(** * Step generators of the algorithm visualizer

    A shallow embedding of the three step-generator modules
    ([sortingAlgorithms.js], [pathfindingAlgorithms.js],
    [graphAlgorithms.js]) and the properties of the step sequences
    they return.

    Conventions of the embedding:
    - JS numbers that hold array indices, grid coordinates and array
      elements are integers ([Z]); the distances and scores of
      [dijkstra] and [aStar] are binary64 numbers with the machine's
      addition and comparisons;
    - [steps.push(s)] is [steps ++ [s]]; every snapshot ([...array],
      [new Set(visited)]) is the value of the working structure at
      that moment;
    - a [for (let i = lo; i < hi; i++)] loop whose body does not leave
      the loop is [for_loop lo hi body]; loops that are left by
      [return]/[break] and recursive helpers carry a fuel argument;
      every top-level function is proved to return with the fuel it is
      given;
    - a function that can throw returns a [result]: [Ok v] for a normal
      return, [TypeError] where JS dereferences [undefined]. *)

From stdpp Require Import gmap list sorting strings.
From Stdlib Require Import ZArith Lia.
From Stdlib Require Import PrimFloat FloatOps FloatAxioms SpecFloat.

(** ** Counted loops *)

Section ForLoop.
Context {S : Type}.

Fixpoint for_iter (k : nat) (i : Z) (body : Z → S → S) (s : S) : S :=
  match k with
  | O => s
  | Datatypes.S k' => for_iter k' (i + 1)%Z body (body i s)
  end.

(** [for (let i = lo; i < hi; i++) s = body i s] *)
Definition for_loop (lo hi : Z) (body : Z → S → S) (s : S) : S :=
  for_iter (Z.to_nat (hi - lo)) lo body s.

(** [while (cond s) s = body s], at most [fuel] tests of the condition. *)
Fixpoint while_loop (fuel : nat) (cond : S → bool) (body : S → S) (s : S) : option S :=
  match fuel with
  | O => None
  | Datatypes.S fuel' =>
      if cond s then while_loop fuel' cond body (body s) else Some s
  end.

End ForLoop.

(** ** Outcomes of a call *)

Inductive result (A : Type) : Type :=
  | Ok (a : A)
  | TypeError
  | OutOfFuel.
Global Arguments Ok {A} a.
Global Arguments TypeError {A}.
Global Arguments OutOfFuel {A}.

Global Instance result_ret : MRet result := λ A a, Ok a.
Global Instance result_bind : MBind result := λ A B f m,
  match m with
  | Ok a => f a
  | TypeError => TypeError
  | OutOfFuel => OutOfFuel
  end.
Global Instance result_fmap : FMap result := λ A B f m,
  match m with
  | Ok a => Ok (f a)
  | TypeError => TypeError
  | OutOfFuel => OutOfFuel
  end.

(** Dereferencing a value that may be [undefined]. *)
Definition defined {A} (o : option A) : result A :=
  match o with Some a => Ok a | None => TypeError end.

(** [for (const x of l) s = body x s] *)
Fixpoint for_of {A S : Type} (l : list A) (body : A → S → result S) (s : S) : result S :=
  match l with
  | [] => Ok s
  | x :: l' => s' ← body x s; for_of l' body s'
  end.

(** ** Snapshots of a growing set *)

(** [snap s] is the [visited] set that the step [s] carries, if it
    carries one.  The sets of successive steps only grow. *)
Definition monotone_snapshots {A K} `{Countable K}
    (snap : A → option (gset K)) (steps : list A) : Prop :=
  ∀ i j s t X Y, i ≤ j → steps !! i = Some s → steps !! j = Some t →
    snap s = Some X → snap t = Some Y → X ⊆ Y.

(** The loop invariant behind it: the sets emitted so far grow, and
    the working set [cur] contains them all. *)
Definition mono_inv {A K} `{Countable K}
    (snap : A → option (gset K)) (steps : list A) (cur : gset K) : Prop :=
  monotone_snapshots snap steps
  ∧ ∀ s X, s ∈ steps → snap s = Some X → X ⊆ cur.

(** ** JS arrays of numbers *)

(** [a[i]]: [None] is [undefined]. *)
Definition aget {A} (a : list A) (i : Z) : option A :=
  if decide (0 ≤ i)%Z then a !! Z.to_nat i else None.

(** [a[i] = v] for an index inside the array.  Outside it JS would grow
    the array; no call below writes there (the loop guards keep every
    index between [0] and [a.length - 1]), and the model leaves the
    array as it is. *)
Definition aset (a : list Z) (i : Z) (v : Z) : list Z :=
  if decide (0 ≤ i)%Z then <[Z.to_nat i := v]> a else a.

(** [a[i] = v] where [v] was read from an array.  Storing [undefined]
    does not happen below (every read that feeds a write is inside its
    array); the model leaves the array as it is. *)
Definition store (a : list Z) (i : Z) (v : option Z) : list Z :=
  match v with Some x => aset a i x | None => a end.

(** [[a[i], a[j]] = [a[j], a[i]]]: both reads, then both writes. *)
Definition exchange (a : list Z) (i j : Z) : list Z :=
  match aget a i, aget a j with
  | Some x, Some y => aset (aset a i y) j x
  | _, _ => a
  end.

(** [a.slice(lo, hi)] for [0 ≤ lo]. *)
Definition slice (a : list Z) (lo hi : Z) : list Z :=
  take (Z.to_nat (hi - lo)) (drop (Z.to_nat lo) a).

(** Comparisons of JS numbers; with [undefined] on a side they are false. *)
Definition js_lt (x y : option Z) : bool :=
  match x, y with Some u, Some v => bool_decide (u < v)%Z | _, _ => false end.
Definition js_le (x y : option Z) : bool :=
  match x, y with Some u, Some v => bool_decide (u ≤ v)%Z | _, _ => false end.
Definition js_gt (x y : option Z) : bool := js_lt y x.

(** [Array.from({ length: len }, (_, idx) => f idx)] *)
Definition array_from (len : Z) (f : Z → Z) : list Z := f <$> seqZ 0 len.

(** Sortedness by indices: the part of [a] from index [k] on is in
    order, and nothing before index [k] exceeds anything from [k] on. *)
Definition sorted_from (a : list Z) (k : Z) : Prop :=
  ∀ p q x y, (k ≤ p)%Z → (p ≤ q)%Z → aget a p = Some x → aget a q = Some y → (x ≤ y)%Z.

Definition split_at (a : list Z) (k : Z) : Prop :=
  ∀ p q x y, (p < k)%Z → (k ≤ q)%Z → aget a p = Some x → aget a q = Some y → (x ≤ y)%Z.

(** The part of [a] between the indices [lo] and [hi] is in order. *)
Definition sorted_range (a : list Z) (lo hi : Z) : Prop :=
  ∀ p q x y, (lo ≤ p)%Z → (p ≤ q)%Z → (q ≤ hi)%Z →
    aget a p = Some x → aget a q = Some y → (x ≤ y)%Z.

(** [exchanged lo hi a a']: [a'] comes from [a] by exchanges of
    positions between [lo] and [hi]. *)
Inductive exchanged (lo hi : Z) (a : list Z) : list Z → Prop :=
  | exchanged_refl : exchanged lo hi a a
  | exchanged_step a' i j :
      (lo ≤ i ≤ hi)%Z → (lo ≤ j ≤ hi)%Z →
      exchanged lo hi a a' → exchanged lo hi a (exchange a' i j).

Module Sorting.
Local Open Scope Z_scope.

Inductive step_type := compare | swap | sorted.

Global Instance step_type_eq_dec : EqDecision step_type.
Proof. solve_decision. Defined.

Record step := Step { type : step_type; indices : list Z; array : list Z }.

(** The closure variable [steps] and the working copy [array]. *)
Definition state : Type := list step * list Z.

Definition bubble_inner (j : Z) (st : state) : state :=
  let '(steps, array) := st in
  let steps := steps ++ [Step compare [j; j + 1] array] in
  if js_gt (aget array j) (aget array (j + 1)) then
    let array := exchange array j (j + 1) in
    (steps ++ [Step swap [j; j + 1] array], array)
  else (steps, array).

Definition bubble_outer (n i : Z) (st : state) : state :=
  let '(steps, array) := for_loop 0 (n - i - 1) bubble_inner st in
  (steps ++ [Step sorted (array_from (n - i) (λ idx, n - 1 - idx)) array], array).

Definition bubbleSort (arr : list Z) : list step :=
  let n := Z.of_nat (length arr) in
  fst (for_loop 0 n (bubble_outer n) ([], arr)).

(** The snapshot of the last step, [d] when there is none. *)
Definition last_array (steps : list step) (d : list Z) : list Z :=
  match last steps with Some s => array s | None => d end.

(** *** mergeSort *)

(** The locals of [merge]: [steps], [array], [i], [j], [k]. *)
Definition merge_state : Type := list step * list Z * Z * Z * Z.

Definition merge_both (left mid : Z) (leftArr rightArr : list Z)
    (s : merge_state) : merge_state :=
  let '(steps, array, i, j, k) := s in
  let steps := steps ++ [Step compare [left + i; mid + 1 + j] array] in
  let '(array, i, j) :=
    if js_le (aget leftArr i) (aget rightArr j)
    then (store array k (aget leftArr i), i + 1, j)
    else (store array k (aget rightArr j), i, j + 1) in
  let steps := steps ++ [Step swap [k] array] in
  (steps, array, i, j, k + 1).

Definition merge_left (leftArr : list Z) (s : merge_state) : merge_state :=
  let '(steps, array, i, j, k) := s in
  let array := store array k (aget leftArr i) in
  let steps := steps ++ [Step swap [k] array] in
  (steps, array, i + 1, j, k + 1).

Definition merge_right (rightArr : list Z) (s : merge_state) : merge_state :=
  let '(steps, array, i, j, k) := s in
  let array := store array k (aget rightArr j) in
  let steps := steps ++ [Step swap [k] array] in
  (steps, array, i, j + 1, k + 1).

Definition merge (left mid right : Z) (st : state) : option state :=
  let '(steps, array) := st in
  let leftArr := slice array left (mid + 1) in
  let rightArr := slice array (mid + 1) (right + 1) in
  let llen := Z.of_nat (length leftArr) in
  let rlen := Z.of_nat (length rightArr) in
  let fuel := S (length leftArr + length rightArr) in
  s ← while_loop fuel
        (λ '(_, _, i, j, _), bool_decide (i < llen) && bool_decide (j < rlen))
        (merge_both left mid leftArr rightArr)
        (steps, array, 0, 0, left);
  s ← while_loop fuel (λ '(_, _, i, _, _), bool_decide (i < llen))
        (merge_left leftArr) s;
  s ← while_loop fuel (λ '(_, _, _, j, _), bool_decide (j < rlen))
        (merge_right rightArr) s;
  let '(steps, array, _, _, _) := s in
  Some (steps, array).

Fixpoint mergeSortHelper (fuel : nat) (left right : Z) (st : state) : option state :=
  match fuel with
  | O => None
  | S fuel' =>
      if bool_decide (left < right) then
        let mid := (left + right) `div` 2 in
        st ← mergeSortHelper fuel' left mid st;
        st ← mergeSortHelper fuel' (mid + 1) right st;
        merge left mid right st
      else Some st
  end.

Definition mergeSort (arr : list Z) : option (list step) :=
  let array := arr in
  st ← mergeSortHelper (S (length array)) 0 (Z.of_nat (length array) - 1) ([], array);
  Some st.1.

(** What the snapshots of a merge sort keep of the input [arr]: its
    length, and no value that is not in it. *)
Definition merge_snapshot (arr : list Z) (s : step) : Prop :=
  length (array s) = length arr ∧ array s ⊆ arr.

(** The invariant of the three loops of [merge] on the array
    [pre ++ L ++ R ++ post], with [L] and [R] the two slices: the
    window holds the first [i + j] elements of the merge of [L] and [R],
    then what it held at the start. *)
Definition merge_inv (arr pre L R post : list Z) (s : merge_state) : Prop :=
  let '(steps, array, i, j, k) := s in
  ∃ (iN jN : nat) (out : list Z),
    i = Z.of_nat iN ∧ j = Z.of_nat jN ∧ k = Z.of_nat (length pre + (iN + jN)) ∧
    (iN ≤ length L)%nat ∧ (jN ≤ length R)%nat ∧ length out = (iN + jN)%nat ∧
    array = pre ++ out ++ drop (iN + jN) (L ++ R) ++ post ∧
    out ++ list_merge Z.le (drop iN L) (drop jN R) = list_merge Z.le L R ∧
    Forall (merge_snapshot arr) steps ∧ last_array steps arr = array.

(** *** quickSort *)

Definition partition_body (high : Z) (pivot : option Z) (j : Z)
    (s : list step * list Z * Z) : list step * list Z * Z :=
  let '(steps, array, i) := s in
  let steps := steps ++ [Step compare [j; high] array] in
  if js_lt (aget array j) pivot then
    let i := i + 1 in
    let array := exchange array i j in
    (steps ++ [Step swap [i; j] array], array, i)
  else (steps, array, i).

Definition partition (low high : Z) (st : state) : Z * state :=
  let '(steps, array) := st in
  let pivot := aget array high in
  let '(steps, array, i) :=
    for_loop low high (partition_body high pivot) (steps, array, low - 1) in
  let array := exchange array (i + 1) high in
  let steps := steps ++ [Step swap [i + 1; high] array] in
  (i + 1, (steps, array)).

Fixpoint quickSortHelper (fuel : nat) (low high : Z) (st : state) : option state :=
  match fuel with
  | O => None
  | S fuel' =>
      if bool_decide (low < high) then
        let '(pi, st) := partition low high st in
        st ← quickSortHelper fuel' low (pi - 1) st;
        quickSortHelper fuel' (pi + 1) high st
      else Some st
  end.

Definition quickSort (arr : list Z) : option (list step) :=
  let array := arr in
  st ← quickSortHelper (S (length array)) 0 (Z.of_nat (length array) - 1) ([], array);
  Some st.1.

Definition count_type (t : step_type) (steps : list step) : Z :=
  Z.of_nat (length (filter (λ s, type s = t) steps)).

(** The snapshot of the final step, when there is one, is the input
    [arr] in order. *)
Definition final_sorted (arr : list Z) (steps : list step) : Prop :=
  ∀ s, last steps = Some s → StronglySorted Z.le (array s) ∧ array s ≡ₚ arr.

(** Every snapshot holds the values of the input [arr], each as often
    as [arr] does. *)
Definition multiset_kept (arr : list Z) (steps : list step) : Prop :=
  Forall (λ s, array s ≡ₚ arr) steps.

(** The index lists of the [sorted] steps, in the order of emission. *)
Definition sorted_indices (steps : list step) : list (list Z) :=
  indices <$> filter (λ s, type s = sorted) steps.

End Sorting.

Module Graph.

(** [{ nodes, edges }]: the functions read [nodes.length] only, so a
    node object is kept as its id; an edge [[u, v]] is a pair of ids. *)
Record graph := { nodes : list nat; edges : list (nat * nat) }.

(** Every endpoint of an edge is one of the ids [0 .. nodes.length - 1]. *)
Definition wf_graph (g : graph) : Prop :=
  Forall (λ e, e.1 < length (nodes g) ∧ e.2 < length (nodes g)) (edges g).

(** [adj = {}; for (let i = 0; i < nodeCount; i++) adj[i] = []] *)
Definition empty_adj (nodeCount : nat) : gmap nat (list nat) :=
  foldl (λ adj i, <[i := []]> adj) ∅ (seq 0 nodeCount).

(** [adj[u].push(v)] *)
Definition adj_push (u v : nat) (adj : gmap nat (list nat)) : result (gmap nat (list nat)) :=
  l ← defined (adj !! u); Ok (<[u := l ++ [v]]> adj).

Definition buildAdjacencyList (nodeCount : nat) (edges : list (nat * nat))
    : result (gmap nat (list nat)) :=
  for_of edges (λ '(u, v) adj, adj ← adj_push u v adj; adj_push v u adj)
    (empty_adj nodeCount).

(** The directed adjacency list of [topologicalSort] and [detectCycle]. *)
Definition directed_adj (g : graph) : result (gmap nat (list nat)) :=
  for_of (edges g) (λ '(u, v) adj, adj_push u v adj) (empty_adj (length (nodes g))).

(** *** dfs and graphBFS *)

Inductive step :=
  | visit (node : nat) (visited : gset nat) (visitOrder : list nat).

(** [steps], [visited], [stack], [visitOrder]; the stack is kept top
    first ([push] is cons, [pop] takes the head). *)
Definition dfs_state : Type := list step * gset nat * list nat * list nat.

Definition dfs_push (visited : gset nat) (neighbor : nat) (stack : list nat) : result (list nat) :=
  if decide (neighbor ∈ visited) then Ok stack else Ok (neighbor :: stack).

Fixpoint dfs_loop (fuel : nat) (g : graph) (st : dfs_state) : result (list step) :=
  match fuel with
  | O => OutOfFuel
  | S fuel' =>
      let '(steps, visited, stack, visitOrder) := st in
      match stack with
      | [] => Ok steps
      | node :: stack =>
          if decide (node ∈ visited) then dfs_loop fuel' g (steps, visited, stack, visitOrder)
          else
            let visited := {[node]} ∪ visited in
            let visitOrder := visitOrder ++ [node] in
            let steps := steps ++ [visit node visited visitOrder] in
            adj ← buildAdjacencyList (length (nodes g)) (edges g);
            neighbors ← reverse <$> defined (adj !! node);
            stack ← for_of neighbors (dfs_push visited) stack;
            dfs_loop fuel' g (steps, visited, stack, visitOrder)
      end
  end.

Definition dfs (g : graph) (startNode : nat) : result (list step) :=
  dfs_loop (S (S (2 * length (edges g)))) g ([], ∅, [startNode], []).

(** [visited] and [queue] of [graphBFS]. *)
Definition bfs_enqueue (neighbor : nat) (s : gset nat * list nat) : result (gset nat * list nat) :=
  let '(visited, queue) := s in
  if decide (neighbor ∈ visited) then Ok (visited, queue)
  else Ok ({[neighbor]} ∪ visited, queue ++ [neighbor]).

Definition bfs_state : Type := list step * gset nat * list nat * list nat.

Fixpoint graphBFS_loop (fuel : nat) (adj : gmap nat (list nat)) (st : bfs_state)
    : result (list step) :=
  match fuel with
  | O => OutOfFuel
  | S fuel' =>
      let '(steps, visited, queue, visitOrder) := st in
      match queue with
      | [] => Ok steps
      | node :: queue =>
          let visitOrder := visitOrder ++ [node] in
          let steps := steps ++ [visit node visited visitOrder] in
          neighbors ← defined (adj !! node);
          '(visited, queue) ← for_of neighbors bfs_enqueue (visited, queue);
          graphBFS_loop fuel' adj (steps, visited, queue, visitOrder)
      end
  end.

Definition graphBFS (g : graph) (startNode : nat) : result (list step) :=
  let visited := {[startNode]} in
  adj ← buildAdjacencyList (length (nodes g)) (edges g);
  graphBFS_loop (S (S (length (nodes g)))) adj ([], visited, [startNode], []).

(** *** topologicalSort *)

Inductive topo_step :=
  | topo_visit (node : nat) (visited : gset nat) (result : list nat)
  | topo_finish (node : nat) (visited : gset nat) (result : list nat).

(** [steps], [visited], [result] *)
Definition topo_state : Type := list topo_step * gset nat * list nat.

Fixpoint topo_dfsHelper (fuel : nat) (adj : gmap nat (list nat)) (node : nat)
    (st : topo_state) : result topo_state :=
  match fuel with
  | O => OutOfFuel
  | S fuel' =>
      let '(steps, visited, result) := st in
      let visited := {[node]} ∪ visited in
      let steps := steps ++ [topo_visit node visited result] in
      neighbors ← defined (adj !! node);
      '(steps, visited, result) ←
        for_of neighbors (λ neighbor st,
          if decide (neighbor ∈ st.1.2) then Ok st
          else topo_dfsHelper fuel' adj neighbor st) (steps, visited, result);
      let result := node :: result in
      Ok (steps ++ [topo_finish node visited result], visited, result)
  end.

Definition topologicalSort (g : graph) : result (list topo_step) :=
  adj ← directed_adj g;
  st ← for_of (seq 0 (length (nodes g))) (λ i st,
         if decide (i ∈ st.1.2) then Ok st
         else topo_dfsHelper (S (length (nodes g))) adj i st) ([], ∅, []);
  Ok st.1.1.

(** *** detectCycle *)

Inductive cycle_step :=
  | cycle_visit (node : nat) (state : string) (hasCycle : bool)
  | cycle_found (node : nat) (hasCycle : bool)
  | cycle_finish (node : nat) (hasCycle : bool).

(** [steps], [states] (0: unvisited, 1: visiting, 2: visited), [hasCycle] *)
Definition cycle_state : Type := list cycle_step * gmap nat nat * bool.

Fixpoint cycle_dfsHelper (fuel : nat) (adj : gmap nat (list nat)) (node : nat)
    (st : cycle_state) : result cycle_state :=
  match fuel with
  | O => OutOfFuel
  | S fuel' =>
      let '(steps, states, hasCycle) := st in
      let states := <[node := 1]> states in
      let steps := steps ++ [cycle_visit node "visiting" false] in
      neighbors ← defined (adj !! node);
      '(steps, states, hasCycle) ←
        for_of neighbors (λ neighbor st,
          let '(steps, states, hasCycle) := st in
          if decide (states !! neighbor = Some 1) then
            let hasCycle := true in
            Ok (steps ++ [cycle_found neighbor true], states, hasCycle)
          else if decide (states !! neighbor = Some 0) then
            cycle_dfsHelper fuel' adj neighbor st
          else Ok st) (steps, states, hasCycle);
      let states := <[node := 2]> states in
      Ok (steps ++ [cycle_finish node hasCycle], states, hasCycle)
  end.

Definition detectCycle (g : graph) : result (list cycle_step) :=
  let n := length (nodes g) in
  let states := foldl (λ states i, <[i := 0]> states) ∅ (seq 0 n) in
  adj ← directed_adj g;
  st ← for_of (seq 0 n) (λ i st,
         if decide (st.1.2 !! i = Some 0) then cycle_dfsHelper (S n) adj i st
         else Ok st) ([], states, false);
  Ok st.1.1.

(** The source of every edge is one of the ids [0 .. nodes.length - 1]
    (what [adj[u].push(v)] needs). *)
Definition sources_in_range (g : graph) : Prop :=
  Forall (λ e, e.1 < length (nodes g)) (edges g).

Definition is_cycle_found (s : cycle_step) : bool :=
  match s with cycle_found _ _ => true | _ => false end.

(** Every [finish] step carries [true] exactly when a [cycle] step
    comes before it. *)
Definition finish_flags_faithful (steps : list cycle_step) : Prop :=
  ∀ l1 node b l2, steps = l1 ++ cycle_finish node b :: l2 →
    (b = true ↔ ∃ s, s ∈ l1 ∧ is_cycle_found s = true).

(** The invariant of [detectCycle]: the flag is up exactly when a
    [cycle] step was emitted. *)
Definition cycle_inv (st : cycle_state) : Prop :=
  let '(steps, _, hasCycle) := st in
  (hasCycle = true ↔ ∃ s, s ∈ steps ∧ is_cycle_found s = true)
  ∧ finish_flags_faithful steps.

(** The nodes in state 0. *)
Definition unvisited (states : gmap nat nat) : gset nat :=
  dom (filter (λ kv, kv.2 = 0) states).

(** The [visited] set of a step, and the claim that a [visit] step has
    its own node in it. *)
Definition step_visited (s : step) : option (gset nat) :=
  match s with visit _ visited _ => Some visited end.

Definition visit_self (s : step) : Prop :=
  match s with visit node visited _ => node ∈ visited end.

Definition topo_visited (s : topo_step) : option (gset nat) :=
  match s with
  | topo_visit _ visited _ | topo_finish _ visited _ => Some visited
  end.

Definition topo_visit_self (s : topo_step) : Prop :=
  match s with
  | topo_visit node visited _ => node ∈ visited
  | topo_finish _ _ _ => True
  end.

(** How often [k] is an endpoint of an edge: the length of [adj[k]]
    in the undirected adjacency list. *)
Definition deg (k : nat) (edges : list (nat * nat)) : nat :=
  sum_list_with (λ e, (if decide (e.1 = k) then 1 else 0)
                      + (if decide (e.2 = k) then 1 else 0)) edges.

(** The endpoints of edges that are not visited yet: a bound on the
    pushes that [dfs] still has to do. *)
Definition weight (visited : gset nat) (edges : list (nat * nat)) : nat :=
  sum_list_with (λ e, (if decide (e.1 ∈ visited) then 0 else 1)
                      + (if decide (e.2 ∈ visited) then 0 else 1)) edges.

(** [u → v] is an edge of [g]. *)
Definition edge (g : graph) (u v : nat) : Prop := (u, v) ∈ edges g.

(** A directed acyclic graph: no node reaches itself along edges. *)
Definition acyclic (g : graph) : Prop := ∀ u, ¬ tc (edge g) u u.

(** In [res] every node is followed by all its successors. *)
Definition ordered (g : graph) (res : list nat) : Prop :=
  ∀ l1 u l2, res = l1 ++ u :: l2 → ∀ v, edge g u v → v ∈ l2.

Definition finish_result (s : topo_step) : option (list nat) :=
  match s with topo_finish _ _ result => Some result | topo_visit _ _ _ => None end.

(** The [result] of the last [finish] step. *)
Definition last_finish (steps : list topo_step) : option (list nat) :=
  last (omap finish_result steps).

(** The invariant of the depth-first search of [topologicalSort]:
    [A] holds the nodes entered and not left yet; the other visited
    nodes are the ones in [result]. *)
Definition topo_inv (g : graph) (A : gset nat) (st : topo_state) : Prop :=
  let '(steps, visited, result) := st in
  visited = list_to_set result ∪ A
  ∧ (∀ w, w ∈ A → w ∉ result)
  ∧ ordered g result ∧ NoDup result
  ∧ (∀ w, w ∈ visited → w < length (nodes g))
  ∧ (last_finish steps = Some result ∨ (result = [] ∧ last_finish steps = None)).

End Graph.
Module Pathfinding.
Local Open Scope Z_scope.

(** A position [[row, col]]; as a key of a [Set] or [Map] it stands
    for [JSON.stringify([row, col])]. *)
Abbreviation pos := (Z * Z)%type.

Inductive step :=
  | explore (position : pos) (visited : gset pos)
  | path (path : list pos).

(** [grid[r][c]] *)
Definition cell (grid : list (list Z)) (r c : Z) : option Z :=
  row ← aget grid r; aget row c.

(** [[rows, cols] = [grid.length, grid[0].length]] *)
Definition dims (grid : list (list Z)) : result (Z * Z) :=
  row0 ← defined (aget grid 0);
  Ok (Z.of_nat (length grid), Z.of_nat (length row0)).

(** [newRow >= 0 && newRow < rows && newCol >= 0 && newCol < cols &&
    grid[newRow][newCol] === 0] *)
Definition walkable (grid : list (list Z)) (rows cols : Z) (p : pos) : bool :=
  bool_decide (0 ≤ p.1) && bool_decide (p.1 < rows)
  && bool_decide (0 ≤ p.2) && bool_decide (p.2 < cols)
  && bool_decide (cell grid p.1 p.2 = Some 0).

(** [current[0] === endPos[0] && current[1] === endPos[1]] *)
Definition same_pos (p q : pos) : bool :=
  bool_decide (p.1 = q.1) && bool_decide (p.2 = q.2).

(** [while (parent.get(key(current))) { path.unshift(current);
    current = parent.get(key(current)) }] of [bfs] and [dijkstra]. *)
Fixpoint reconstruct (fuel : nat) (parent : gmap pos pos) (current : pos)
    (path : list pos) : result (list pos) :=
  match fuel with
  | O => OutOfFuel
  | S fuel' =>
      match parent !! current with
      | Some p => reconstruct fuel' parent p (current :: path)
      | None => Ok path
      end
  end.

(** *** bfs *)

Definition directions4 : list (Z * Z) := [(-1, 0); (1, 0); (0, -1); (0, 1)].

(** [visited], [parent], [queue] *)
Definition bfs_vars : Type := gset pos * gmap pos pos * list pos.

Definition bfs_neighbor (grid : list (list Z)) (rows cols : Z) (cur : pos)
    (s : bfs_vars) (d : Z * Z) : bfs_vars :=
  let '(visited, parent, queue) := s in
  let new := (cur.1 + d.1, cur.2 + d.2) in
  if walkable grid rows cols new && negb (bool_decide (new ∈ visited)) then
    ({[new]} ∪ visited, <[new := cur]> parent, queue ++ [new])
  else s.

Fixpoint bfs_loop (fuel : nat) (grid : list (list Z)) (rows cols : Z)
    (startPos endPos : pos) (steps : list step) (s : bfs_vars) : result (list step) :=
  match fuel with
  | O => OutOfFuel
  | S fuel' =>
      let '(visited, parent, queue) := s in
      match queue with
      | [] => Ok steps
      | cur :: queue =>
          let steps := steps ++ [explore cur visited] in
          if same_pos cur endPos then
            p ← reconstruct (S (size parent)) parent endPos [];
            Ok (steps ++ [path (startPos :: p)])
          else
            bfs_loop fuel' grid rows cols startPos endPos steps
              (foldl (bfs_neighbor grid rows cols cur) (visited, parent, queue) directions4)
      end
  end.

Definition bfs (grid : list (list Z)) (startPos endPos : pos) : result (list step) :=
  let visited : gset pos := {[startPos]} in
  '(rows, cols) ← dims grid;
  bfs_loop (S (S (Z.to_nat (rows * cols)))) grid rows cols startPos endPos []
    (visited, ∅, [startPos]).

(** *** Distances *)

(** A distance or score is a JS number: an IEEE 754 binary64 value,
    with the operations of the machine ([+] rounds to nearest, ties to
    even; [<] and [===] are false on NaN). *)
Definition num : Type := float.

Definition Infinity : num := infinity.

Definition num_lt (a b : num) : bool := PrimFloat.ltb a b.
Definition num_add (a b : num) : num := PrimFloat.add a b.
Definition num_sub (a b : num) : num := PrimFloat.sub a b.
Definition num_abs (a : num) : num := PrimFloat.abs a.

(** [a === b] on numbers. *)
Definition num_eq (a b : num) : bool := PrimFloat.eqb a b.

(** The number that an integer coordinate is: the binary64 value
    nearest to it (the integer itself up to [2^53]). *)
Definition num_of_Z (z : Z) : num := SF2Prim (binary_normalize prec emax z 0 false).

(** The literals [1] and [1.4]; the second is the binary64 value
    nearest to 1.4. *)
Definition cost_straight : num := 1%float.
Definition cost_diagonal : num := 0x1.6666666666666p+0%float.

(** [[dRow, dCol, cost]] *)
Definition directions8 : list (Z * Z * num) :=
  [(-1, 0, cost_straight); (1, 0, cost_straight);
   (0, -1, cost_straight); (0, 1, cost_straight);
   (-1, -1, cost_diagonal); (-1, 1, cost_diagonal);
   (1, -1, cost_diagonal); (1, 1, cost_diagonal)].

(** [for i < rows, for j < cols: m.set(key([i, j]), Infinity)] *)
Definition init_scores (rows cols : Z) (m : gmap pos num) : gmap pos num :=
  for_loop 0 rows (λ i m, for_loop 0 cols (λ j m, <[(i, j) := Infinity]> m) m) m.

(** *** dijkstra *)

(** The scan for the unvisited cell of minimum distance; the state is
    [current] and [minDistance]. *)
Definition dijkstra_scan_cell (visited : gset pos) (distances : gmap pos num)
    (i j : Z) (s : option pos * num) : option pos * num :=
  let '(current, minDistance) := s in
  match distances !! (i, j) with
  | Some d =>
      if negb (bool_decide ((i, j) ∈ visited)) && num_lt d minDistance
      then (Some (i, j), d) else s
  | None => s
  end.

Definition dijkstra_scan (rows cols : Z) (visited : gset pos) (distances : gmap pos num)
    : option pos * num :=
  for_loop 0 rows (λ i s, for_loop 0 cols (dijkstra_scan_cell visited distances i) s)
    (None, Infinity).

(** [distances], [parent] *)
Definition dijkstra_relax (grid : list (list Z)) (rows cols : Z) (current : pos)
    (s : gmap pos num * gmap pos pos) (d : Z * Z * num) : gmap pos num * gmap pos pos :=
  let '(distances, parent) := s in
  let '(dRow, dCol, cost) := d in
  let key := (current.1 + dRow, current.2 + dCol) in
  if walkable grid rows cols key then
    match distances !! current, distances !! key with
    | Some dcur, Some dkey =>
        let newDist := num_add dcur cost in
        if num_lt newDist dkey
        then (<[key := newDist]> distances, <[key := current]> parent)
        else s
    | _, _ => s
    end
  else s.

Definition dijkstra_state : Type := gset pos * gmap pos num * gmap pos pos.

Fixpoint dijkstra_loop (fuel : nat) (grid : list (list Z)) (rows cols : Z)
    (startPos endPos : pos) (steps : list step) (s : dijkstra_state) : result (list step) :=
  match fuel with
  | O => OutOfFuel
  | S fuel' =>
      let '(visited, distances, parent) := s in
      if bool_decide (Z.of_nat (size visited) < rows * cols) then
        match dijkstra_scan rows cols visited distances with
        | (None, _) => Ok steps
        | (Some current, minDistance) =>
            if num_eq minDistance Infinity then Ok steps
            else
              let visited := {[current]} ∪ visited in
              let steps := steps ++ [explore current visited] in
              if same_pos current endPos then
                p ← reconstruct (S (size parent)) parent endPos [];
                Ok (steps ++ [path (startPos :: p)])
              else
                let '(distances, parent) :=
                  foldl (dijkstra_relax grid rows cols current) (distances, parent)
                    directions8 in
                dijkstra_loop fuel' grid rows cols startPos endPos steps
                  (visited, distances, parent)
        end
      else Ok steps
  end.

Definition dijkstra (grid : list (list Z)) (startPos endPos : pos) : result (list step) :=
  '(rows, cols) ← dims grid;
  let distances := <[startPos := 0%float]> (init_scores rows cols ∅) in
  dijkstra_loop (S (Z.to_nat (rows * cols))) grid rows cols startPos endPos []
    (∅, distances, ∅).

(** *** aStar *)

(** [Math.abs(pos[0] - endPos[0]) + Math.abs(pos[1] - endPos[1])] *)
Definition heuristic (endPos p : pos) : num :=
  num_add (num_abs (num_sub (num_of_Z p.1) (num_of_Z endPos.1)))
          (num_abs (num_sub (num_of_Z p.2) (num_of_Z endPos.2))).

(** Comparison of two values read from a [Map]; [undefined] compares
    false. *)
Definition js_num_lt (a b : option num) : bool :=
  match a, b with Some x, Some y => num_lt x y | _, _ => false end.

(** The scan of the open set for the lowest [fScore]: [current],
    [currentIndex], [lowestF]. *)
Definition aStar_select_at (fScore : gmap pos num) (openSet : list pos) (i : Z)
    (s : pos * Z * option num) : pos * Z * option num :=
  let '(current, currentIndex, lowestF) := s in
  match aget openSet i with
  | Some p =>
      let f := fScore !! p in
      if js_num_lt f lowestF then (p, i, f) else s
  | None => s
  end.

Definition aStar_select (fScore : gmap pos num) (openSet : list pos) (first : pos)
    : pos * Z * option num :=
  for_loop 1 (Z.of_nat (length openSet)) (aStar_select_at fScore openSet)
    (first, 0, fScore !! first).

(** [while (parent.get(key(pos))) { pos = parent.get(key(pos));
    path.unshift(pos) }] *)
Fixpoint trace_back (fuel : nat) (parent : gmap pos pos) (p : pos)
    (path : list pos) : result (list pos) :=
  match fuel with
  | O => OutOfFuel
  | S fuel' =>
      match parent !! p with
      | Some q => trace_back fuel' parent q (q :: path)
      | None => Ok path
      end
  end.

(** [gScore], [fScore], [parent], [openSet] *)
Definition aStar_vars : Type := gmap pos num * gmap pos num * gmap pos pos * list pos.

Definition aStar_neighbor (grid : list (list Z)) (rows cols : Z) (endPos : pos)
    (visited : gset pos) (current : pos) (s : aStar_vars) (d : Z * Z * num) : aStar_vars :=
  let '(gScore, fScore, parent, openSet) := s in
  let '(dRow, dCol, cost) := d in
  let neighbor := (current.1 + dRow, current.2 + dCol) in
  if walkable grid rows cols neighbor && negb (bool_decide (neighbor ∈ visited)) then
    match gScore !! current, gScore !! neighbor with
    | Some gcur, Some gnb =>
        let tentativeGScore := num_add gcur cost in
        if num_lt tentativeGScore gnb then
          let parent := <[neighbor := current]> parent in
          let gScore := <[neighbor := tentativeGScore]> gScore in
          let f := num_add tentativeGScore (heuristic endPos neighbor) in
          let fScore := <[neighbor := f]> fScore in
          let openSet :=
            if bool_decide (Exists (λ p, same_pos p neighbor = true) openSet)
            then openSet else openSet ++ [neighbor] in
          (gScore, fScore, parent, openSet)
        else s
    | _, _ => s
    end
  else s.

Fixpoint aStar_loop (fuel : nat) (grid : list (list Z)) (rows cols : Z) (endPos : pos)
    (steps : list step) (visited : gset pos) (s : aStar_vars) : result (list step) :=
  match fuel with
  | O => OutOfFuel
  | S fuel' =>
      let '(gScore, fScore, parent, openSet) := s in
      match openSet with
      | [] => Ok steps
      | first :: _ =>
          let '(current, currentIndex, _) := aStar_select fScore openSet first in
          if same_pos current endPos then
            p ← trace_back (S (size parent)) parent endPos [endPos];
            Ok (steps ++ [path p])
          else
            let openSet := delete (Z.to_nat currentIndex) openSet in
            let visited := {[current]} ∪ visited in
            let steps := steps ++ [explore current visited] in
            aStar_loop fuel' grid rows cols endPos steps visited
              (foldl (aStar_neighbor grid rows cols endPos visited current)
                 (gScore, fScore, parent, openSet) directions8)
      end
  end.

Definition aStar (grid : list (list Z)) (startPos endPos : pos) : result (list step) :=
  '(rows, cols) ← dims grid;
  let gScore := <[startPos := 0%float]> (init_scores rows cols ∅) in
  let fScore := <[startPos := heuristic endPos startPos]> (init_scores rows cols ∅) in
  aStar_loop (S (S (Z.to_nat (rows * cols)))) grid rows cols endPos [] ∅
    (gScore, fScore, ∅, [startPos]).

(** *** What the step sequences are measured against *)

(** A move of [bfs]: one of the four directions, into a cell that is
    inside the grid and open. *)
Definition move4 (grid : list (list Z)) (rows cols : Z) (p q : pos) : Prop :=
  ∃ d, d ∈ directions4 ∧ q = (p.1 + d.1, p.2 + d.2) ∧ walkable grid rows cols q = true.

(** A move of [dijkstra] and [aStar] and its cost. *)
Definition move8_cost (grid : list (list Z)) (rows cols : Z) (p q : pos) (c : num) : Prop :=
  ∃ d, d ∈ directions8 ∧ q = (p.1 + d.1.1, p.2 + d.1.2) ∧ c = d.2
       ∧ walkable grid rows cols q = true.

Definition move8 (grid : list (list Z)) (rows cols : Z) (p q : pos) : Prop :=
  ∃ c, move8_cost grid rows cols p q c.

(** [l] is a path from [s] to [e] along [R]. *)
Definition is_path (R : relation pos) (s e : pos) (l : list pos) : Prop :=
  head l = Some s ∧ last l = Some e
  ∧ ∀ i a b, l !! i = Some a → l !! S i = Some b → R a b.

(** The cost of a list of cells walked in order, in tenths: [10] for
    a move along a row or a column, [14] for a diagonal move. *)
Definition step_cost (p q : pos) : Z :=
  if bool_decide (p.1 = q.1) || bool_decide (p.2 = q.2) then 10 else 14.

Fixpoint path_cost (l : list pos) : Z :=
  match l with
  | p :: (q :: _) as l' => step_cost p q + path_cost l'
  | _ => 0
  end.

Definition is_explore (s : step) : Prop :=
  match s with explore _ _ => True | path _ => False end.

Definition step_visited (s : step) : option (gset pos) :=
  match s with explore _ visited => Some visited | path _ => None end.

(** An [explore] step has its own position in its visited set. *)
Definition explore_self (s : step) : Prop :=
  match s with explore position visited => position ∈ visited | path _ => True end.

(** No [explore] step is at [p]. *)
Definition not_explored (p : pos) (s : step) : Prop :=
  match s with explore position _ => position ≠ p | path _ => True end.

(** The cells of the rectangle [rows] by [cols]. *)
Definition all_cells (rows cols : Z) : list pos :=
  (λ k, (k `div` cols, k `mod` cols)) <$> seqZ 0 (rows * cols).

Definition cells (rows cols : Z) : gset pos := list_to_set (all_cells rows cols).

(** Executable checks of a move and of a path, for concrete grids. *)
Definition move4b (grid : list (list Z)) (rows cols : Z) (p q : pos) : bool :=
  existsb (λ d : Z * Z, bool_decide (q = (p.1 + d.1, p.2 + d.2))) directions4
  && walkable grid rows cols q.

Definition move8b (grid : list (list Z)) (rows cols : Z) (p q : pos) : bool :=
  existsb (λ d : Z * Z * num, bool_decide (q = (p.1 + d.1.1, p.2 + d.1.2))) directions8
  && walkable grid rows cols q.

Fixpoint chainb (mv : pos → pos → bool) (l : list pos) : bool :=
  match l with
  | p :: (q :: _) as l' => mv p q && chainb mv l'
  | _ => true
  end.

Definition path_check (mv : pos → pos → bool) (s e : pos) (l : list pos) : bool :=
  bool_decide (head l = Some s) && bool_decide (last l = Some e) && chainb mv l.

(** No move leaves [p]: every neighbour is a wall or outside the grid. *)
Definition blocked4 (grid : list (list Z)) (rows cols : Z) (p : pos) : bool :=
  forallb (λ d : Z * Z, negb (walkable grid rows cols (p.1 + d.1, p.2 + d.2))) directions4.

Definition blocked8 (grid : list (list Z)) (rows cols : Z) (p : pos) : bool :=
  forallb (λ d : Z * Z * num, negb (walkable grid rows cols (p.1 + d.1.1, p.2 + d.1.2)))
    directions8.

(** The path carried by the last step, if that step is a [path] step. *)
Definition final_path (steps : list step) : option (list pos) :=
  match last steps with Some (path p) => Some p | _ => None end.

(** *** The invariant of [bfs] *)

(** The number of moves that the search has found to reach a visited
    cell; [d] is not a variable of the program. *)
Definition level (d : gmap pos nat) (p : pos) : nat := default 0%nat (d !! p).

(** [pending] holds the cells that are visited and not expanded yet:
    the queue, and in front of it the cell being expanded. *)
Record bfs_inv (R : relation pos) (startPos endPos : pos) (d : gmap pos nat)
    (pending : list pos) (visited : gset pos) (parent : gmap pos pos) : Prop := {
  bfs_start : startPos ∈ visited ∧ level d startPos = 0%nat ∧ parent !! startPos = None;
  bfs_reach : ∀ v, v ∈ visited → nsteps R (level d v) startPos v;
  bfs_least : ∀ v j, v ∈ visited → nsteps R j startPos v → (level d v ≤ j)%nat;
  bfs_pending : ∀ q, q ∈ pending → q ∈ visited;
  bfs_sorted : ∀ i j x y, (i ≤ j)%nat → pending !! i = Some x → pending !! j = Some y →
                 (level d x ≤ level d y)%nat;
  bfs_window : ∀ h y, head pending = Some h → y ∈ pending →
                 (level d y ≤ level d h + 1)%nat;
  bfs_closed : ∀ u w, u ∈ visited → u ∉ pending → R u w → w ∈ visited;
  bfs_done_low : ∀ u q, u ∈ visited → u ∉ pending → q ∈ pending →
                   (level d u ≤ level d q)%nat;
  bfs_parent : ∀ v p, parent !! v = Some p →
                 p ∈ visited ∧ v ∈ visited ∧ R p v ∧ level d v = S (level d p);
  bfs_has_parent : ∀ v, v ∈ visited → v ≠ startPos → is_Some (parent !! v);
  bfs_end : ∀ u, u ∈ visited → u ∉ pending → u ≠ endPos
}.

(** What a run of a search returns: only [explore] steps when the end
    is out of reach, else [explore] steps, the last one at the end, and
    a [path] step with a shortest path. *)
Definition bfs_post (R : relation pos) (startPos endPos : pos) (steps : list step) : Prop :=
  monotone_snapshots step_visited steps ∧ Forall explore_self steps
  ∧ ((Forall is_explore steps ∧ ¬ rtc R startPos endPos)
     ∨ ∃ l visited p, steps = l ++ [explore endPos visited; path p]
         ∧ Forall is_explore l ∧ is_path R startPos endPos p
         ∧ ∀ l', is_path R startPos endPos l' → (length p ≤ length l')%nat).

(** *** Numbers in order *)

(** [0 <= x]: [x] is neither NaN nor negative. *)
Definition nonneg (x : num) : Prop := PrimFloat.leb 0 x = true.

(** The same on the specification of binary64. *)
Definition SFnonneg (x : spec_float) : Prop :=
  match x with
  | S754_zero _ | S754_infinity false | S754_finite false _ _ => True
  | _ => False
  end.

(** A positive finite value. *)
Definition SFpositive (x : spec_float) : Prop :=
  match x with S754_finite false _ _ => True | _ => False end.

(** The place of a non-negative value in the order: its class (zero,
    finite, infinite), then its exponent, then its mantissa. *)
Definition SFkey (x : spec_float) : Z * Z * Z :=
  match x with
  | S754_finite _ m e => (1, e, Zpos m)
  | S754_infinity _ => (2, 0, 0)
  | _ => (0, 0, 0)
  end.

Definition key_lt (a b : Z * Z * Z) : Prop :=
  a.1.1 < b.1.1 ∨ (a.1.1 = b.1.1 ∧ (a.1.2 < b.1.2 ∨ (a.1.2 = b.1.2 ∧ a.2 < b.2))).

(** [m * 2^e] is at least [mx * 2^ex], with [e] inside the format. *)
Definition above (mx : positive) (ex : Z) (m e : Z) : Prop :=
  0 < m ∧ -1074 ≤ e ∧ (e ≤ ex → Zpos mx * 2 ^ (ex - e) ≤ m).

(** *** The invariant of [aStar] *)

(** [rank] is not a variable of the program: it numbers the cells so
    that a parent comes before its children. *)
Record aStar_inv (R : relation pos) (U : gset pos) (startPos : pos) (rank : pos → nat)
    (visited : gset pos) (parent : gmap pos pos) (openSet : list pos) : Prop := {
  as_nodup : NoDup openSet;
  as_fresh : ∀ v, v ∈ openSet → v ∉ visited;
  as_cells : ∀ v, v ∈ openSet → v ∈ U ∨ v = startPos;
  as_parent : ∀ v p, parent !! v = Some p → p ∈ visited ∧ (rank p < rank v)%nat;
  as_reach : ∀ v, v ∈ openSet → rtc R startPos v;
  as_visited_cells : ∀ v, v ∈ visited → v ∈ U ∨ v = startPos
}.

(** *** The invariant of [dijkstra] *)

Definition in_rect (rows cols : Z) (p : pos) : Prop :=
  (0 ≤ p.1 < rows) ∧ (0 ≤ p.2 < cols).

Record dijkstra_inv (R : relation pos) (rows cols : Z) (startPos : pos) (rank : pos → nat)
    (visited : gset pos) (distances : gmap pos num) (parent : gmap pos pos) : Prop := {
  dj_nonneg : ∀ v x, distances !! v = Some x → nonneg x;
  dj_reach : ∀ v x, distances !! v = Some x → num_eq x Infinity = false →
      rtc R startPos v;
  dj_settled : ∀ u w x y, u ∈ visited → in_rect rows cols w → w ∉ visited →
      distances !! u = Some x → distances !! w = Some y → num_lt y x = false;
  dj_parent : ∀ v p, parent !! v = Some p → p ∈ visited ∧ (rank p < rank v)%nat
}.

(** What a run of [aStar] returns. *)
Definition aStar_post (R : relation pos) (startPos endPos : pos) (steps : list step) : Prop :=
  monotone_snapshots step_visited steps ∧ Forall explore_self steps
  ∧ Forall (not_explored endPos) steps
  ∧ (Forall is_explore steps
     ∨ ∃ l p, steps = l ++ [path p] ∧ Forall is_explore l ∧ rtc R startPos endPos).

(** What a run of [dijkstra] returns. *)
Definition dijkstra_post (R : relation pos) (startPos endPos : pos) (steps : list step) : Prop :=
  monotone_snapshots step_visited steps ∧ Forall explore_self steps
  ∧ (Forall is_explore steps
     ∨ ∃ l visited p, steps = l ++ [explore endPos visited; path p]
         ∧ Forall is_explore l ∧ rtc R startPos endPos).

End Pathfinding.
(** * Properties *)

(** ** Counted loops *)

Section ForLoopFacts.
Context {S : Type}.

Lemma for_iter_ind (P : Z → S → Prop) (body : Z → S → S) k : ∀ i s,
  P i s →
  (∀ j t, (i ≤ j < i + Z.of_nat k)%Z → P j t → P (j + 1)%Z (body j t)) →
  P (i + Z.of_nat k)%Z (for_iter k i body s).
Proof.
  induction k as [|k IH]; intros i s Hs Hstep; simpl.
  - replace (i + Z.of_nat 0)%Z with i by lia. done.
  - replace (i + Z.of_nat (Datatypes.S k))%Z with ((i + 1) + Z.of_nat k)%Z by lia.
    apply IH.
    + apply Hstep; [lia | done].
    + intros j t Hj. apply Hstep. lia.
Qed.

(** The invariant rule of a counted loop. *)
Lemma for_loop_ind (P : Z → S → Prop) lo hi (body : Z → S → S) s :
  P lo s →
  (∀ j t, (lo ≤ j < hi)%Z → P j t → P (j + 1)%Z (body j t)) →
  P (Z.max lo hi) (for_loop lo hi body s).
Proof.
  intros Hs Hstep. unfold for_loop.
  replace (Z.max lo hi) with (lo + Z.of_nat (Z.to_nat (hi - lo)))%Z by lia.
  apply for_iter_ind; [done|].
  intros j t Hj. apply Hstep. lia.
Qed.

(** The rule of a [while] loop: an invariant and a measure that the
    body decreases; with more fuel than the measure the loop ends. *)
Lemma while_loop_spec (I : S → Prop) (μ : S → nat) (cond : S → bool) (body : S → S) :
  (∀ s, I s → cond s = true → I (body s) ∧ (μ (body s) < μ s)%nat) →
  ∀ fuel s, I s → (μ s < fuel)%nat →
    ∃ s', while_loop fuel cond body s = Some s' ∧ I s' ∧ cond s' = false.
Proof.
  intros Hbody. induction fuel as [|fuel IH]; intros s Hs Hfuel; [lia|].
  simpl. destruct (cond s) eqn:Hc; [|eauto].
  destruct (Hbody s Hs Hc) as [Hs' Hlt]. apply IH; [done | lia].
Qed.

End ForLoopFacts.

(** ** [for ... of] loops *)

Section ForOfFacts.
Context {A S : Type}.

(** An invariant over the part of the list already handled; every
    call of the body returns, so the loop does. *)
Lemma for_of_spec (P : list A → S → Prop) (body : A → S → result S) l : ∀ pre s,
  P pre s →
  (∀ pre' x post s, pre ++ l = pre' ++ x :: post → P pre' s →
     ∃ s', body x s = Ok s' ∧ P (pre' ++ [x]) s') →
  ∃ s', for_of l body s = Ok s' ∧ P (pre ++ l) s'.
Proof.
  induction l as [|x l IH]; intros pre s Hs Hbody; simpl.
  - rewrite app_nil_r. eauto.
  - destruct (Hbody pre x l s eq_refl Hs) as (s1 & E1 & Hs1).
    rewrite E1. simpl.
    destruct (IH (pre ++ [x]) s1 Hs1) as (s2 & E2 & Hs2).
    + intros pre' y post t E. apply (Hbody pre' y post). by rewrite <- E, <- app_assoc.
    + rewrite <- app_assoc in Hs2. eauto.
Qed.

Lemma for_of_inv (P : S → Prop) (body : A → S → result S) l s :
  P s →
  (∀ x s, x ∈ l → P s → ∃ s', body x s = Ok s' ∧ P s') →
  ∃ s', for_of l body s = Ok s' ∧ P s'.
Proof.
  intros Hs Hbody.
  destruct (for_of_spec (λ _, P) body l [] s Hs) as (s' & E & Hs'); [|eauto].
  intros pre' x post t E Ht. apply Hbody; [|done].
  simpl in E. rewrite E. apply elem_of_app. right. by left.
Qed.

End ForOfFacts.

(** ** Snapshots of a growing set *)

Section Snapshots.
Context {A K : Type} `{Countable K} (snap : A → option (gset K)).

Lemma mono_inv_nil cur : mono_inv snap [] cur.
Proof.
  split.
  - intros i j s t X Y _ Hs. by rewrite lookup_nil in Hs.
  - intros s X Hs. by apply elem_of_nil in Hs.
Qed.

Lemma mono_inv_grow steps cur cur' :
  mono_inv snap steps cur → cur ⊆ cur' → mono_inv snap steps cur'.
Proof.
  intros [Hm Hb] Hsub. split; [done|].
  intros s X Hs HX. etrans; [by eapply Hb | done].
Qed.

Lemma mono_inv_push steps cur s :
  mono_inv snap steps cur → (∀ X, snap s = Some X → X = cur) →
  mono_inv snap (steps ++ [s]) cur.
Proof.
  intros [Hm Hb] Hs. split.
  - intros i j s1 s2 X Y Hij H1 H2 HX HY.
    destruct (decide (j < length steps)) as [Hj|Hj].
    + rewrite lookup_app_l in H1, H2 by lia. by apply (Hm i j s1 s2 X Y).
    + apply lookup_lt_Some in H2 as Hj2. rewrite length_app in Hj2. simpl in Hj2.
      assert (j = length steps) as -> by lia.
      rewrite list_lookup_middle in H2 by done. simplify_eq.
      rewrite (Hs Y HY).
      destruct (decide (i < length steps)) as [Hi|Hi].
      * rewrite lookup_app_l in H1 by lia.
        eapply Hb; [by eapply list_elem_of_lookup_2 | done].
      * assert (i = length steps) as -> by lia.
        rewrite list_lookup_middle in H1 by done. simplify_eq.
        by rewrite (Hs X HX).
  - intros s' X [Hin|Hin%list_elem_of_singleton]%elem_of_app HX.
    + by eapply Hb.
    + subst. by rewrite (Hs X HX).
Qed.

Lemma mono_inv_push_none steps cur s :
  mono_inv snap steps cur → snap s = None → mono_inv snap (steps ++ [s]) cur.
Proof. intros Hinv Hs. apply mono_inv_push; [done|]. intros X. by rewrite Hs. Qed.

End Snapshots.

(** ** Arrays *)

Section ArrayFacts.
Local Open Scope Z_scope.
Implicit Types a : list Z.

Lemma aget_Some a i x : aget a i = Some x → 0 ≤ i < Z.of_nat (length a).
Proof.
  unfold aget. case_decide; [|done].
  intros Hl%lookup_lt_Some. lia.
Qed.

Lemma aget_is_Some a i : 0 ≤ i < Z.of_nat (length a) → is_Some (aget a i).
Proof.
  intros Hi. unfold aget. rewrite decide_True by lia.
  apply lookup_lt_is_Some. lia.
Qed.

Lemma aget_None a i : ¬ (0 ≤ i < Z.of_nat (length a)) → aget a i = None.
Proof.
  intros Hi. destruct (aget a i) eqn:E; [|done].
  apply aget_Some in E. lia.
Qed.

Lemma aget_of_nat a (i : nat) : aget a (Z.of_nat i) = a !! i.
Proof. unfold aget. rewrite decide_True by lia. by rewrite Nat2Z.id. Qed.

Lemma aset_of_nat a (i : nat) v : aset a (Z.of_nat i) v = <[i := v]> a.
Proof. unfold aset. rewrite decide_True by lia. by rewrite Nat2Z.id. Qed.

Lemma insert_middle (pre out rest : list Z) z x :
  <[(length pre + length out)%nat := x]> (pre ++ out ++ z :: rest)
  = pre ++ (out ++ [x]) ++ rest.
Proof.
  rewrite insert_app_r. f_equal.
  rewrite <- (Nat.add_0_r (length out)), insert_app_r. simpl.
  by rewrite <- app_assoc.
Qed.

Lemma slice_middle (pre mid post : list Z) lo hi :
  lo = Z.of_nat (length pre) → hi = lo + Z.of_nat (length mid) →
  slice (pre ++ mid ++ post) lo hi = mid.
Proof.
  intros -> ->. unfold slice. rewrite Nat2Z.id.
  replace (Z.to_nat (_ + _ - _)) with (length mid) by lia.
  rewrite drop_app_length. apply take_app_length.
Qed.

Lemma length_aset a i v : length (aset a i v) = length a.
Proof. unfold aset. case_decide; [apply length_insert | done]. Qed.

Lemma aget_aset_eq a i v :
  0 ≤ i < Z.of_nat (length a) → aget (aset a i v) i = Some v.
Proof.
  intros Hi. unfold aget, aset. rewrite !decide_True by lia.
  apply list_lookup_insert_eq. lia.
Qed.

Lemma aget_aset_ne a i j v : i ≠ j → aget (aset a i v) j = aget a j.
Proof.
  intros Hne. unfold aget, aset. destruct (decide (0 ≤ j)); [|done].
  destruct (decide (0 ≤ i)); [|done].
  apply list_lookup_insert_ne. lia.
Qed.

Lemma aget_aset a i j v :
  0 ≤ i < Z.of_nat (length a) →
  aget (aset a i v) j = if decide (j = i) then Some v else aget a j.
Proof.
  intros Hi. case_decide as E.
  - subst. by apply aget_aset_eq.
  - by apply aget_aset_ne.
Qed.

Lemma length_exchange a i j : length (exchange a i j) = length a.
Proof.
  unfold exchange. destruct (aget a i), (aget a j); try done.
  by rewrite !length_aset.
Qed.

Lemma aget_exchange a i j k x y :
  aget a i = Some x → aget a j = Some y →
  aget (exchange a i j) k =
    if decide (k = j) then Some x else if decide (k = i) then Some y else aget a k.
Proof.
  intros Hi Hj. unfold exchange. rewrite Hi, Hj.
  apply aget_Some in Hi. apply aget_Some in Hj.
  rewrite aget_aset by (rewrite length_aset; lia).
  case_decide; [done|]. by rewrite aget_aset by lia.
Qed.

Lemma insert_cons_perm (l : list Z) j x y :
  l !! j = Some y → y :: <[j:=x]> l ≡ₚ x :: l.
Proof.
  revert j. induction l as [|z l IH]; intros [|j] Hj; simplify_eq/=.
  - apply perm_swap.
  - rewrite perm_swap. rewrite (IH j Hj). apply perm_swap.
Qed.

Lemma insert_insert_perm (l : list Z) i j x y :
  l !! i = Some x → l !! j = Some y → <[j:=x]> (<[i:=y]> l) ≡ₚ l.
Proof.
  revert i j. induction l as [|z l IH]; intros [|i] [|j] Hi Hj; simplify_eq/=.
  - done.
  - by apply insert_cons_perm.
  - symmetry. rewrite <- (insert_cons_perm l i y x Hi). done.
  - f_equiv. by apply IH.
Qed.

Lemma exchange_perm a i j : exchange a i j ≡ₚ a.
Proof.
  unfold exchange. destruct (aget a i) as [x|] eqn:Hi; [|done].
  destruct (aget a j) as [y|] eqn:Hj; [|done].
  unfold aget, aset in *. repeat case_decide; try done.
  by apply insert_insert_perm.
Qed.

Lemma sorted_from_StronglySorted a : sorted_from a 0 → StronglySorted Z.le a.
Proof.
  induction a as [|z a IH]; intros Hs; constructor.
  - apply IH. intros p q x y Hp Hpq Hx Hy.
    apply (Hs (p + 1) (q + 1)); try lia.
    + unfold aget in *. repeat case_decide; try lia.
      replace (Z.to_nat (p + 1)) with (S (Z.to_nat p)) by lia. done.
    + unfold aget in *. repeat case_decide; try lia.
      replace (Z.to_nat (q + 1)) with (S (Z.to_nat q)) by lia. done.
  - apply Forall_forall. intros y [q Hq]%list_elem_of_lookup.
    apply (Hs 0 (Z.of_nat q + 1)); try lia; [done|].
    unfold aget. rewrite decide_True by lia.
    replace (Z.to_nat (Z.of_nat q + 1)) with (S q) by lia. done.
Qed.

Lemma sorted_range_from a n :
  Z.of_nat (length a) = n → sorted_range a 0 (n - 1) → sorted_from a 0.
Proof.
  intros Hn Hs p q x y Hp Hq Hx Hy.
  apply (Hs p q); try done. apply aget_Some in Hy. lia.
Qed.

Lemma aget_exchange_cases a i j k :
  aget (exchange a i j) k = aget a k
  ∨ (k = i ∧ aget (exchange a i j) k = aget a j)
  ∨ (k = j ∧ aget (exchange a i j) k = aget a i).
Proof.
  unfold exchange. destruct (aget a i) as [x|] eqn:Hi; [|by left].
  destruct (aget a j) as [y|] eqn:Hj; [|by left].
  fold (exchange a i j).
  assert (exchange a i j = aset (aset a i y) j x) as <-.
  { unfold exchange. by rewrite Hi, Hj. }
  rewrite (aget_exchange a i j k x y Hi Hj).
  repeat case_decide; subst; rewrite ?Hi, ?Hj; auto.
Qed.

Lemma aget_exchange_ne a i j k : k ≠ i → k ≠ j → aget (exchange a i j) k = aget a k.
Proof. intros. destruct (aget_exchange_cases a i j k) as [?|[[]|[]]]; done. Qed.

Lemma exchanged_trans lo hi a b c :
  exchanged lo hi a b → exchanged lo hi b c → exchanged lo hi a c.
Proof. intros Hab Hbc. induction Hbc; [done|]. by constructor. Qed.

Lemma exchanged_mono lo hi lo' hi' a b :
  lo' ≤ lo → hi ≤ hi' → exchanged lo hi a b → exchanged lo' hi' a b.
Proof. intros ?? H. induction H; constructor; try done; lia. Qed.

Lemma exchanged_length lo hi a b : exchanged lo hi a b → length b = length a.
Proof. induction 1; [done|]. by rewrite length_exchange. Qed.

Lemma exchanged_perm lo hi a b : exchanged lo hi a b → b ≡ₚ a.
Proof. induction 1; [done|]. etrans; [apply exchange_perm | done]. Qed.

Lemma exchanged_outside lo hi a b k :
  exchanged lo hi a b → ¬ (lo ≤ k ≤ hi) → aget b k = aget a k.
Proof.
  intros H Hk. induction H; [done|].
  rewrite aget_exchange_ne by lia. done.
Qed.

Lemma exchanged_inside lo hi a b k x :
  exchanged lo hi a b → lo ≤ k ≤ hi → aget b k = Some x →
  ∃ k', lo ≤ k' ≤ hi ∧ aget a k' = Some x.
Proof.
  intros H. revert k. induction H as [|b i j Hi Hj H IH]; intros k Hk Hx; [eauto|].
  destruct (aget_exchange_cases b i j k) as [E|[[-> E]|[-> E]]];
    rewrite E in Hx; eauto.
Qed.

End ArrayFacts.

(** ** Bubble sort *)

Module BubbleFacts.
Import Sorting.
Local Open Scope Z_scope.

Lemma count_type_app t s1 s2 :
  count_type t (s1 ++ s2) = count_type t s1 + count_type t s2.
Proof. unfold count_type. rewrite filter_app, length_app. lia. Qed.

Lemma count_type_snoc t s x :
  count_type t (s ++ [x]) = count_type t s + (if decide (type x = t) then 1 else 0).
Proof.
  rewrite count_type_app. f_equal. unfold count_type. simpl.
  rewrite filter_cons, filter_nil. by case_decide.
Qed.

Lemma count_bubble_inner j st :
  count_type compare (bubble_inner j st).1 = count_type compare st.1 + 1.
Proof.
  destruct st as [steps a]. unfold bubble_inner.
  destruct (js_gt _ _); simpl; rewrite !count_type_snoc; simpl; lia.
Qed.

Lemma count_bubble_pass m st :
  count_type compare (for_loop 0 m bubble_inner st).1
  = count_type compare st.1 + Z.max 0 m.
Proof.
  apply (for_loop_ind (λ j t, count_type compare t.1 = count_type compare st.1 + j)).
  - lia.
  - intros j t _ IH. rewrite count_bubble_inner, IH. lia.
Qed.

Lemma count_bubble_outer n i st :
  0 ≤ i < n →
  count_type compare (bubble_outer n i st).1 = count_type compare st.1 + (n - i - 1).
Proof.
  intros Hi. unfold bubble_outer.
  pose proof (count_bubble_pass (n - i - 1) st) as H.
  destruct (for_loop 0 (n - i - 1) bubble_inner st) as [steps a]. simpl in *.
  rewrite count_type_snoc, H. simpl. lia.
Qed.

(** Twice the number of comparisons after [i] passes. *)
Lemma count_bubble_passes n (st0 : state) :
  0 ≤ n →
  let r := for_loop 0 n (bubble_outer n) st0 in
  2 * count_type compare r.1 = 2 * count_type compare st0.1 + n * (n - 1).
Proof.
  intros Hn r. subst r.
  assert (2 * count_type compare (for_loop 0 n (bubble_outer n) st0).1
          = 2 * count_type compare st0.1 + Z.max 0 n * (2 * n - Z.max 0 n - 1)) as H.
  { apply (for_loop_ind
      (λ i t, 2 * count_type compare t.1
              = 2 * count_type compare st0.1 + i * (2 * n - i - 1))).
    - lia.
    - intros j t Hj IH. rewrite count_bubble_outer by lia. lia. }
  replace (Z.max 0 n) with n in H by lia. lia.
Qed.

Lemma sum_pass_lengths n k :
  0 ≤ k → 2 * foldr Z.add 0 ((λ i, n - i - 1) <$> seqZ 0 k) = k * (2 * n - k - 1).
Proof.
  intros Hk. rewrite <- (Z2Nat.id k) by lia.
  generalize (Z.to_nat k) as m. clear k Hk.
  induction m as [|m IH].
  - reflexivity.
  - replace (Z.of_nat (S m)) with (Z.of_nat m + 1) by lia.
    rewrite seqZ_app by lia. rewrite fmap_app, foldr_app. simpl.
    replace (seqZ (0 + Z.of_nat m) 1) with [Z.of_nat m] by reflexivity.
    simpl.
    assert (∀ (l : list Z) c, foldr Z.add c l = foldr Z.add 0 l + c) as Hf.
    { induction l as [|z l IHl]; intros c; simpl; [lia|]. rewrite IHl. lia. }
    rewrite Hf. lia.
Qed.

(** C8: on an array of length [n], [bubbleSort] emits exactly
    [n (n - 1) / 2] [compare] steps, whatever the values are; that is
    the sum over the passes [i = 0 .. n-1] of [n - i - 1]. *)
Theorem bubbleSort_compare_count (arr : list Z) :
  let n := Z.of_nat (length arr) in
  count_type compare (bubbleSort arr) = n * (n - 1) / 2
  ∧ count_type compare (bubbleSort arr)
    = foldr Z.add 0 ((λ i, n - i - 1) <$> seqZ 0 n).
Proof.
  intros n. unfold bubbleSort. fold n.
  pose proof (count_bubble_passes n ([], arr) ltac:(lia)) as H.
  simpl in H. change (count_type compare []) with 0 in H.
  pose proof (sum_pass_lengths n n ltac:(lia)) as Hs.
  split.
  - apply Z.div_unique_exact; lia.
  - lia.
Qed.

Lemma sorted_indices_snoc steps s :
  sorted_indices (steps ++ [s])
  = sorted_indices steps ++ (if decide (type s = sorted) then [indices s] else []).
Proof.
  unfold sorted_indices. rewrite filter_app, fmap_app. f_equal.
  rewrite filter_cons, filter_nil. by case_decide.
Qed.

Lemma sorted_indices_bubble_inner j st :
  sorted_indices (bubble_inner j st).1 = sorted_indices st.1.
Proof.
  destruct st as [steps a]. unfold bubble_inner.
  destruct (js_gt _ _); simpl; rewrite !sorted_indices_snoc; simpl;
    by rewrite ?app_nil_r.
Qed.

Lemma sorted_indices_bubble_outer n i st :
  sorted_indices (bubble_outer n i st).1
  = sorted_indices st.1 ++ [array_from (n - i) (λ idx, n - 1 - idx)].
Proof.
  unfold bubble_outer.
  assert (sorted_indices (for_loop 0 (n - i - 1) bubble_inner st).1
          = sorted_indices st.1) as H.
  { apply (for_loop_ind (λ _ t, sorted_indices t.1 = sorted_indices st.1)); [done|].
    intros j t _ IH. by rewrite sorted_indices_bubble_inner. }
  destruct (for_loop 0 (n - i - 1) bubble_inner st) as [steps a]. simpl in *.
  by rewrite sorted_indices_snoc, H.
Qed.

(** [Array.from({ length: k }, (_, idx) => c - idx)] counts down from [c]. *)
Lemma array_from_down c k :
  array_from k (λ idx, c - idx) = reverse (seqZ (c - k + 1) k).
Proof.
  unfold array_from. destruct (decide (0 ≤ k)) as [Hk|Hk].
  2:{ rewrite !seqZ_nil by lia. done. }
  rewrite <- (Z2Nat.id k) by lia. generalize (Z.to_nat k) as m. clear k Hk.
  induction m as [|m IH]; [done|].
  replace (Z.of_nat (S m)) with (Z.of_nat m + 1) by lia.
  rewrite seqZ_app by lia. rewrite fmap_app, IH.
  rewrite (seqZ_cons (c - (Z.of_nat m + 1) + 1)) by lia.
  rewrite reverse_cons. repeat f_equal; try lia.
  simpl. f_equal. lia.
Qed.

(** C3, what the code does: the [sorted] step that closes pass [i]
    carries the [n - i] indices [n-1, n-2, ..., i], that is every
    position from [i] on, and not the last [i + 1] positions.  On
    [[3; 2; 1]] the step that closes pass [0] marks all three positions
    while the array is [[2; 1; 3]]. *)
Theorem bubbleSort_sorted_indices (arr : list Z) :
  let n := Z.of_nat (length arr) in
  sorted_indices (bubbleSort arr) = (λ i, reverse (seqZ i (n - i))) <$> seqZ 0 n
  ∧ bubbleSort [3; 2; 1] !! 4%nat = Some (Step sorted [2; 1; 0] [2; 1; 3])
  ∧ sorted_indices (bubbleSort [3; 2; 1]) = [[2; 1; 0]; [2; 1]; [2]].
Proof.
  intros n. split; [|split; reflexivity].
  unfold bubbleSort. fold n.
  assert (sorted_indices (for_loop 0 n (bubble_outer n) ([], arr)).1
          = (λ i, reverse (seqZ i (n - i))) <$> seqZ 0 (Z.max 0 n)) as H.
  { apply (for_loop_ind
      (λ i t, sorted_indices t.1 = (λ i, reverse (seqZ i (n - i))) <$> seqZ 0 i)).
    - done.
    - intros j t Hj IH. rewrite sorted_indices_bubble_outer, IH.
      rewrite seqZ_app by lia. rewrite fmap_app. f_equal. simpl.
      rewrite array_from_down. do 3 f_equal; lia. }
  replace (Z.max 0 n) with n in H by lia. done.
Qed.

(** One pass over the window [0 .. m-1]: the largest element of the
    window ends at its last position. *)
Lemma bubble_pass_spec (arr : list Z) n m (st : state) :
  1 ≤ m ≤ n →
  Z.of_nat (length st.2) = n → st.2 ≡ₚ arr → Forall (λ s, array s ≡ₚ arr) st.1 →
  sorted_from st.2 m → split_at st.2 m →
  let r := for_loop 0 (m - 1) bubble_inner st in
  Z.of_nat (length r.2) = n ∧ r.2 ≡ₚ arr ∧ Forall (λ s, array s ≡ₚ arr) r.1 ∧
  sorted_from r.2 (m - 1) ∧ split_at r.2 (m - 1).
Proof.
  intros Hm Hlen Hperm Hsteps Hsorted Hsplit r.
  assert (Z.of_nat (length r.2) = n ∧ r.2 ≡ₚ arr ∧ Forall (λ s, array s ≡ₚ arr) r.1 ∧
          sorted_from r.2 m ∧ split_at r.2 m ∧
          ∀ p x y, 0 ≤ p ≤ Z.max 0 (m - 1) → aget r.2 p = Some x →
                   aget r.2 (Z.max 0 (m - 1)) = Some y → x ≤ y) as H.
  { subst r. apply (for_loop_ind (λ j t,
      Z.of_nat (length t.2) = n ∧ t.2 ≡ₚ arr ∧ Forall (λ s, array s ≡ₚ arr) t.1 ∧
      sorted_from t.2 m ∧ split_at t.2 m ∧
      ∀ p x y, 0 ≤ p ≤ j → aget t.2 p = Some x → aget t.2 j = Some y → x ≤ y)).
    - repeat split; try done.
      intros p x y Hp Hx Hy. assert (p = 0) by lia. simplify_eq. lia.
    - clear dependent st. intros j [steps a] Hj (Hlen & Hperm & Hsteps & Hso & Hsp & Hmax).
      simpl in *. unfold bubble_inner.
      destruct (aget_is_Some a j ltac:(lia)) as [x Hx].
      destruct (aget_is_Some a (j + 1) ltac:(lia)) as [y Hy].
      rewrite Hx, Hy. unfold js_gt, js_lt. case_bool_decide as Hc; simpl.
      + pose proof (λ k, aget_exchange a j (j + 1) k x y Hx Hy) as Hex.
        rewrite length_exchange.
        split; [done|]. split; [by etrans; [apply exchange_perm|]|].
        split; [|split; [|split]].
        * rewrite !Forall_app, !Forall_singleton. simpl. repeat split; try done.
          by etrans; [apply exchange_perm|].
        * intros p q u v Hp Hq. rewrite !Hex.
          repeat case_decide; try lia. intros. apply (Hso p q); done || lia.
        * intros p q u v Hp Hq. rewrite !Hex.
          repeat case_decide; try lia; intros; simplify_eq.
          -- apply (Hsp j q); done || lia.
          -- apply (Hsp (j + 1) q); done || lia.
          -- apply (Hsp p q); done || lia.
        * intros p u v Hp. rewrite !Hex.
          repeat case_decide; try lia; intros; simplify_eq; try lia.
          apply (Hmax p); done || lia.
      + repeat split; try done.
        * rewrite !Forall_app, !Forall_singleton. done.
        * intros p u v Hp Hu Hv.
          destruct (decide (p = j + 1)) as [->|]; [simplify_eq; lia|].
          simplify_eq. assert (u ≤ x); [|lia]. apply (Hmax p); done || lia. }
  replace (Z.max 0 (m - 1)) with (m - 1) in H by lia.
  destruct H as (H1 & H2 & H3 & Hso & Hsp & Hmax). repeat split; try done.
  - intros p q x y Hp Hq Hx Hy.
    destruct (decide (p = m - 1)) as [->|].
    + destruct (decide (q = m - 1)) as [->|]; [simplify_eq; lia|].
      apply (Hsp (m - 1) q); [lia | lia | done | done].
    + apply (Hso p q); [lia | lia | done | done].
  - intros p q x y Hp Hq Hx Hy.
    destruct (decide (q = m - 1)) as [->|].
    + apply (Hmax p); [|done|done]. apply aget_Some in Hx. lia.
    + apply (Hsp p q); [lia | lia | done | done].
Qed.

Lemma last_array_snoc steps s d : last_array (steps ++ [s]) d = array s.
Proof. unfold last_array. by rewrite last_snoc. Qed.

(** The whole run of bubble sort. *)
Lemma bubbleSort_run (arr : list Z) :
  let n := Z.of_nat (length arr) in
  let r := for_loop 0 n (bubble_outer n) ([], arr) in
  r.2 ≡ₚ arr ∧ Forall (λ s, array s ≡ₚ arr) r.1 ∧
  last_array r.1 arr = r.2 ∧ sorted_from r.2 0.
Proof.
  intros n r.
  assert (Z.of_nat (length r.2) = n ∧ r.2 ≡ₚ arr ∧ Forall (λ s, array s ≡ₚ arr) r.1 ∧
          last_array r.1 arr = r.2 ∧
          sorted_from r.2 (n - Z.max 0 n) ∧ split_at r.2 (n - Z.max 0 n)) as H.
  { subst r. apply (for_loop_ind (λ i t,
      Z.of_nat (length t.2) = n ∧ t.2 ≡ₚ arr ∧ Forall (λ s, array s ≡ₚ arr) t.1 ∧
      last_array t.1 arr = t.2 ∧ sorted_from t.2 (n - i) ∧ split_at t.2 (n - i))).
    - simpl. repeat split; try done.
      + intros p q x y Hp Hq Hx Hy. apply aget_Some in Hx. lia.
      + intros p q x y Hp Hq Hx Hy. apply aget_Some in Hy. lia.
    - intros i t Hi (Hlen & Hperm & Hsteps & _ & Hso & Hsp).
      destruct (bubble_pass_spec arr n (n - i) t ltac:(lia) Hlen Hperm Hsteps Hso Hsp)
        as (H1 & H2 & H3 & H4 & H5).
      unfold bubble_outer.
      replace (n - i - 1) with (n - i - 1) in * by lia.
      destruct (for_loop 0 (n - i - 1) bubble_inner t) as [steps a]. simpl in *.
      rewrite last_array_snoc, Forall_app, Forall_singleton. simpl.
      replace (n - (i + 1)) with (n - i - 1) by lia. done. }
  replace (n - Z.max 0 n) with 0 in H by lia. tauto.
Qed.

End BubbleFacts.

(** ** Quick sort *)

Module QuickFacts.
Import Sorting BubbleFacts.
Local Open Scope Z_scope.

(** The scan of [partition]: positions [low .. i] hold the elements
    below the pivot, positions [i+1 .. j-1] the others. *)
Lemma partition_scan (arr a : list Z) steps low high pv :
  0 ≤ low → low < high → high < Z.of_nat (length a) →
  aget a high = Some pv → a ≡ₚ arr → Forall (λ s, array s ≡ₚ arr) steps →
  let r := for_loop low high (partition_body high (Some pv)) (steps, a, low - 1) in
  low - 1 ≤ r.2 < high ∧ exchanged low (high - 1) a r.1.2 ∧
  Forall (λ s, array s ≡ₚ arr) r.1.1 ∧
  (∀ k x, low ≤ k ≤ r.2 → aget r.1.2 k = Some x → x < pv) ∧
  (∀ k x, r.2 < k < high → aget r.1.2 k = Some x → pv ≤ x).
Proof.
  intros Hlow Hlh Hhigh Hpv Hperm Hsteps r.
  assert (low - 1 ≤ r.2 < Z.max low high ∧ exchanged low (high - 1) a r.1.2 ∧
    Forall (λ s, array s ≡ₚ arr) r.1.1 ∧
    (∀ k x, low ≤ k ≤ r.2 → aget r.1.2 k = Some x → x < pv) ∧
    (∀ k x, r.2 < k < Z.max low high → aget r.1.2 k = Some x → pv ≤ x)) as H.
  { subst r. apply (for_loop_ind (λ j t,
      low - 1 ≤ t.2 < j ∧ exchanged low (high - 1) a t.1.2 ∧
      Forall (λ s, array s ≡ₚ arr) t.1.1 ∧
      (∀ k x, low ≤ k ≤ t.2 → aget t.1.2 k = Some x → x < pv) ∧
      (∀ k x, t.2 < k < j → aget t.1.2 k = Some x → pv ≤ x))).
    - simpl. repeat split; try done; try lia; [constructor | intros; lia ..].
    - intros j [[steps' a'] i] Hj (Hi & Hex & Hst & Hlt & Hge). simpl in *.
      pose proof (exchanged_length _ _ _ _ Hex) as Hlen.
      pose proof (exchanged_perm _ _ _ _ Hex) as Hp'.
      destruct (aget_is_Some a' j ltac:(lia)) as [x Hx].
      unfold partition_body. rewrite Hx. simpl. case_bool_decide as Hc; simpl.
      + destruct (aget_is_Some a' (i + 1) ltac:(lia)) as [y Hy].
        pose proof (λ k, aget_exchange a' (i + 1) j k y x Hy Hx) as Hag.
        split; [lia|]. split; [constructor; [lia | lia | done]|].
        split; [|split].
        * rewrite !Forall_app, !Forall_singleton. simpl. repeat split; try done.
          -- by etrans.
          -- etrans; [apply exchange_perm|]. by etrans.
        * intros k u Hk. rewrite Hag. repeat case_decide; intros; simplify_eq; try lia.
          -- assert (i + 1 = j) by lia. congruence.
          -- apply (Hlt k); done || lia.
        * intros k u Hk. rewrite Hag. repeat case_decide; intros; simplify_eq; try lia.
          -- apply (Hge (i + 1)); done || lia.
          -- apply (Hge k); done || lia.
      + split; [lia|]. split; [done|]. split; [|split].
        * rewrite !Forall_app, !Forall_singleton. simpl. repeat split; try done.
          by etrans.
        * done.
        * intros k u Hk Hu. destruct (decide (k = j)) as [->|]; [simplify_eq; lia|].
          apply (Hge k); done || lia. }
  replace (Z.max low high) with high in H by lia. done.
Qed.

Lemma partition_spec (arr a : list Z) steps low high pv :
  0 ≤ low → low < high → high < Z.of_nat (length a) →
  aget a high = Some pv → a ≡ₚ arr → Forall (λ s, array s ≡ₚ arr) steps →
  let r := partition low high (steps, a) in
  low ≤ r.1 ≤ high ∧ exchanged low high a r.2.2 ∧
  Forall (λ s, array s ≡ₚ arr) r.2.1 ∧ last_array r.2.1 arr = r.2.2 ∧
  aget r.2.2 r.1 = Some pv ∧
  (∀ k x, low ≤ k < r.1 → aget r.2.2 k = Some x → x < pv) ∧
  (∀ k x, r.1 < k ≤ high → aget r.2.2 k = Some x → pv ≤ x).
Proof.
  intros Hlow Hlh Hhigh Hpv Hperm Hsteps. unfold partition. rewrite Hpv.
  pose proof (partition_scan arr a steps low high pv Hlow Hlh Hhigh Hpv Hperm Hsteps) as H.
  destruct (for_loop low high (partition_body high (Some pv)) (steps, a, low - 1))
    as [[steps' a'] i].
  simpl in *. destruct H as (Hi & Hex & Hst & Hlt & Hge).
  pose proof (exchanged_length _ _ _ _ Hex) as Hlen.
  pose proof (exchanged_perm _ _ _ _ Hex) as Hp'.
  assert (aget a' high = Some pv) as Hpv'.
  { rewrite (exchanged_outside low (high - 1) a a') by (done || lia). done. }
  destruct (aget_is_Some a' (i + 1) ltac:(lia)) as [z Hz].
  pose proof (λ k, aget_exchange a' (i + 1) high k z pv Hz Hpv') as Hag.
  split; [lia|]. split.
  { constructor; [lia | lia |]. eapply exchanged_mono; [| |done]; lia. }
  split.
  { rewrite !Forall_app, !Forall_singleton. simpl. split; [done|].
    etrans; [apply exchange_perm|]. by etrans. }
  split; [by rewrite last_array_snoc|].
  split; [|split].
  - rewrite Hag. repeat case_decide; try done. congruence.
  - intros k x Hk. rewrite Hag. repeat case_decide; intros; simplify_eq; try lia.
    apply (Hlt k); done || lia.
  - intros k x Hk. rewrite Hag. repeat case_decide; intros; simplify_eq; try lia.
    + apply (Hge (i + 1)); done || lia.
    + apply (Hge k); done || lia.
Qed.

Lemma quickSortHelper_spec (arr : list Z) fuel : ∀ low high steps a,
  (low < high → 0 ≤ low ∧ high < Z.of_nat (length a)) →
  Z.max 0 (high - low + 1) < Z.of_nat fuel →
  a ≡ₚ arr → Forall (λ s, array s ≡ₚ arr) steps → last_array steps arr = a →
  ∃ steps' a', quickSortHelper fuel low high (steps, a) = Some (steps', a') ∧
    exchanged low high a a' ∧ Forall (λ s, array s ≡ₚ arr) steps' ∧
    last_array steps' arr = a' ∧ sorted_range a' low high.
Proof.
  induction fuel as [|fuel IH]; intros low high steps a Hr Hf Hperm Hsteps Hlast; [lia|].
  cbn [quickSortHelper]. case_bool_decide as Hlh.
  2:{ exists steps, a. repeat split; try done; [constructor|].
      intros p q x y ?????. assert (p = q) by lia. simplify_eq. lia. }
  destruct (Hr Hlh) as [Hlow Hhigh].
  destruct (aget_is_Some a high ltac:(lia)) as [pv Hpv].
  pose proof (partition_spec arr a steps low high pv Hlow Hlh Hhigh Hpv Hperm Hsteps) as H.
  destruct (partition low high (steps, a)) as [pi [steps1 a1]]. simpl in H.
  destruct H as (Hpi & Hex1 & Hst1 & Hla1 & Hpiv & Hlt & Hge).
  pose proof (exchanged_length _ _ _ _ Hex1) as Hlen1.
  destruct (IH low (pi - 1) steps1 a1) as (steps2 & a2 & E2 & Hex2 & Hst2 & Hla2 & Hso2);
    [lia | lia | by etrans; [eapply exchanged_perm|] | done | done |].
  pose proof (exchanged_length _ _ _ _ Hex2) as Hlen2.
  destruct (IH (pi + 1) high steps2 a2) as (steps3 & a3 & E3 & Hex3 & Hst3 & Hla3 & Hso3);
    [lia | lia | | done | done |].
  { etrans; [eapply exchanged_perm; apply Hex2|]. by etrans; [eapply exchanged_perm|]. }
  rewrite E2. simpl. rewrite E3. exists steps3, a3.
  split; [done|]. split.
  { eapply exchanged_trans; [apply Hex1|].
    eapply exchanged_trans; (eapply exchanged_mono; [| |done]; lia). }
  split; [done|]. split; [done|].
  (* the three parts of the final array *)
  assert (∀ k x, low ≤ k < pi → aget a3 k = Some x → x < pv) as Hleft.
  { intros k x Hk Hx.
    rewrite (exchanged_outside _ _ _ _ k Hex3) in Hx by lia.
    destruct (exchanged_inside _ _ _ _ k x Hex2 ltac:(lia) Hx) as (k' & Hk' & Hx').
    apply (Hlt k'); done || lia. }
  assert (aget a3 pi = Some pv) as Hmid.
  { rewrite (exchanged_outside _ _ _ _ pi Hex3) by lia.
    rewrite (exchanged_outside _ _ _ _ pi Hex2) by lia. done. }
  assert (∀ k x, pi < k ≤ high → aget a3 k = Some x → pv ≤ x) as Hright.
  { intros k x Hk Hx.
    destruct (exchanged_inside _ _ _ _ k x Hex3 ltac:(lia) Hx) as (k' & Hk' & Hx').
    rewrite (exchanged_outside _ _ _ _ k' Hex2) in Hx' by lia.
    apply (Hge k'); done || lia. }
  intros p q x y Hp Hpq Hq Hx Hy.
  destruct (decide (q < pi)).
  - apply (Hso2 p q); try lia.
    + by rewrite <- (exchanged_outside _ _ _ _ p Hex3) by lia.
    + by rewrite <- (exchanged_outside _ _ _ _ q Hex3) by lia.
  - destruct (decide (pi < p)).
    + apply (Hso3 p q); done || lia.
    + assert (x ≤ pv).
      { destruct (decide (p = pi)) as [->|]; [simplify_eq; lia|].
        assert (x < pv); [|lia]. apply (Hleft p); done || lia. }
      assert (pv ≤ y); [|lia].
      destruct (decide (q = pi)) as [->|]; [simplify_eq; lia|].
      apply (Hright q); done || lia.
Qed.

(** [quickSort] returns; every snapshot is a permutation of the input
    and the last one is in order. *)
Lemma quickSort_run (arr : list Z) :
  ∃ steps, quickSort arr = Some steps ∧
    Forall (λ s, array s ≡ₚ arr) steps ∧
    last_array steps arr ≡ₚ arr ∧ sorted_from (last_array steps arr) 0.
Proof.
  unfold quickSort.
  destruct (quickSortHelper_spec arr (S (length arr)) 0 (Z.of_nat (length arr) - 1) [] arr)
    as (steps & a & E & Hex & Hst & Hla & Hso); try done; try lia.
  rewrite E. exists steps. simpl. rewrite Hla.
  split; [done|]. split; [done|]. split; [by eapply exchanged_perm|].
  apply (sorted_range_from a (Z.of_nat (length a))); [done|].
  by rewrite (exchanged_length _ _ _ _ Hex).
Qed.

End QuickFacts.

(** ** Merge sort *)

Module MergeFacts.
Import Sorting BubbleFacts.
Local Open Scope Z_scope.

Section MergeLoops.
Context (arr pre L R post : list Z).
Context (Hlen : length (pre ++ L ++ R ++ post) = length arr).
Context (Hsub : pre ++ L ++ R ++ post ⊆ arr).

(** An array of the shape kept by [merge_inv] is a snapshot that
    [merge_snapshot] accepts. *)
Lemma merge_shape_snapshot t (m : nat) out rest steps :
  (m ≤ length L + length R)%nat → length out = m →
  out ++ rest = list_merge Z.le L R →
  merge_snapshot arr (Step t steps (pre ++ out ++ drop m (L ++ R) ++ post)).
Proof.
  intros Hm Hout Hmerge. split; simpl.
  - rewrite <- Hlen. rewrite !length_app, length_drop, !length_app. lia.
  - intros x Hx. apply Hsub.
    assert (x ∈ out → x ∈ L ++ R) as Hin.
    { intros Ho. rewrite <- (merge_Permutation Z.le L R), <- Hmerge.
      apply elem_of_app. by left. }
    assert (x ∈ drop m (L ++ R) → x ∈ L ++ R) as Hdr.
    { intros [i Hi]%list_elem_of_lookup. rewrite lookup_drop in Hi.
      by eapply list_elem_of_lookup_2. }
    rewrite !elem_of_app in Hx. rewrite !elem_of_app.
    rewrite elem_of_app in Hin, Hdr. tauto.
Qed.

Lemma merge_both_step left mid s :
  merge_inv arr pre L R post s →
  (let '(_, _, i, j, _) := s in
   bool_decide (i < Z.of_nat (length L)) && bool_decide (j < Z.of_nat (length R))) = true →
  merge_inv arr pre L R post (merge_both left mid L R s)
  ∧ ((let '(_, _, i, j, _) := merge_both left mid L R s in
      Z.to_nat (Z.of_nat (length L) - i + (Z.of_nat (length R) - j))) <
     (let '(_, _, i, j, _) := s in
      Z.to_nat (Z.of_nat (length L) - i + (Z.of_nat (length R) - j))))%nat.
Proof.
  destruct s as [[[[steps cur] i] j] k].
  intros (iN & jN & out & -> & -> & -> & HiN & HjN & Hout & -> & Hmerge & Hsteps & Hlast) Hc.
  apply andb_true_iff in Hc as [Hi%bool_decide_eq_true Hj%bool_decide_eq_true].
  destruct (lookup_lt_is_Some_2 L iN ltac:(lia)) as [x Hx].
  destruct (lookup_lt_is_Some_2 R jN ltac:(lia)) as [y Hy].
  destruct (lookup_lt_is_Some_2 (L ++ R) (iN + jN)) as [z Hz].
  { rewrite length_app. lia. }
  unfold merge_both. rewrite !aget_of_nat, Hx, Hy. simpl.
  rewrite (drop_S _ _ _ Hx), (drop_S _ _ _ Hy), list_merge_cons in Hmerge.
  assert (merge_snapshot arr
    (Step compare [left + Z.of_nat iN; mid + 1 + Z.of_nat jN]
       (pre ++ out ++ drop (iN + jN) (L ++ R) ++ post))).
  { eapply merge_shape_snapshot; [|done|done]. lia. }
  assert (∀ v, aset (pre ++ out ++ drop (iN + jN) (L ++ R) ++ post)
                 (Z.of_nat (length pre + (iN + jN))) v
               = pre ++ (out ++ [v]) ++ drop (S (iN + jN)) (L ++ R) ++ post) as Hset.
  { intros v. rewrite aset_of_nat, (drop_S _ _ _ Hz), <- Hout. apply insert_middle. }
  rewrite !Hset.
  case_bool_decide as Hxy; simpl.
  - rewrite decide_True in Hmerge by done.
    split; [|lia].
    exists (S iN), jN, (out ++ [x]).
    repeat split; try done; try lia.
    + rewrite length_app. simpl. lia.
    + rewrite <- app_assoc. simpl. by rewrite (drop_S _ _ _ Hy).
    + rewrite !Forall_app, !Forall_singleton. split; [by split|].
      eapply merge_shape_snapshot.
      * lia.
      * rewrite length_app. simpl. lia.
      * rewrite <- app_assoc. simpl. done.
    + by rewrite last_array_snoc.
  - rewrite decide_False in Hmerge by done.
    split; [|lia].
    exists iN, (S jN), (out ++ [y]).
    replace (iN + S jN)%nat with (S (iN + jN)) by lia.
    repeat split; try done; try lia.
    + rewrite length_app. simpl. lia.
    + rewrite <- app_assoc. simpl. by rewrite (drop_S _ _ _ Hx).
    + rewrite !Forall_app, !Forall_singleton. split; [by split|].
      eapply merge_shape_snapshot.
      * lia.
      * rewrite length_app. simpl. lia.
      * rewrite <- app_assoc. simpl. done.
    + by rewrite last_array_snoc.
Qed.

(** One write of a tail-copy loop. *)
Lemma merge_inv_write steps cur (iN jN iN' jN' : nat) out v k :
  (iN' + jN' = S (iN + jN))%nat → (iN' ≤ length L)%nat → (jN' ≤ length R)%nat →
  length out = (iN + jN)%nat →
  cur = pre ++ out ++ drop (iN + jN) (L ++ R) ++ post →
  (out ++ [v]) ++ list_merge Z.le (drop iN' L) (drop jN' R) = list_merge Z.le L R →
  Forall (merge_snapshot arr) steps → k = Z.of_nat (length pre + (iN + jN)) →
  merge_inv arr pre L R post
    (steps ++ [Step swap [k] (aset cur k v)], aset cur k v,
     Z.of_nat iN', Z.of_nat jN', k + 1).
Proof.
  intros Hsum HiN HjN Hout -> Hmerge Hsteps ->.
  destruct (lookup_lt_is_Some_2 (L ++ R) (iN + jN)) as [z Hz].
  { rewrite length_app. lia. }
  assert (aset (pre ++ out ++ drop (iN + jN) (L ++ R) ++ post)
               (Z.of_nat (length pre + (iN + jN))) v
          = pre ++ (out ++ [v]) ++ drop (iN' + jN') (L ++ R) ++ post) as ->.
  { rewrite Hsum, aset_of_nat, (drop_S _ _ _ Hz), <- Hout. apply insert_middle. }
  exists iN', jN', (out ++ [v]).
  split; [done|]. split; [done|]. split; [lia|]. split; [done|]. split; [done|].
  split; [rewrite length_app; simpl; lia|]. split; [done|]. split; [done|].
  split; [|by rewrite last_array_snoc].
  rewrite Forall_app, Forall_singleton. split; [done|].
  eapply merge_shape_snapshot; [lia | rewrite length_app; simpl; lia | done].
Qed.

Lemma merge_left_step s :
  (merge_inv arr pre L R post s
   ∧ let '(_, _, i, j, _) := s in i < Z.of_nat (length L) → j = Z.of_nat (length R)) →
  (let '(_, _, i, _, _) := s in bool_decide (i < Z.of_nat (length L))) = true →
  (merge_inv arr pre L R post (merge_left L s)
   ∧ let '(_, _, i, j, _) := merge_left L s in
     i < Z.of_nat (length L) → j = Z.of_nat (length R))
  ∧ ((let '(_, _, i, _, _) := merge_left L s in Z.to_nat (Z.of_nat (length L) - i)) <
     (let '(_, _, i, _, _) := s in Z.to_nat (Z.of_nat (length L) - i)))%nat.
Proof.
  destruct s as [[[[steps cur] i] j] k].
  intros [(iN & jN & out & -> & -> & -> & HiN & HjN & Hout & Hcur & Hmerge & Hsteps & Hlast) Hj]
    Hc%bool_decide_eq_true.
  specialize (Hj Hc). assert (jN = length R) as -> by lia.
  destruct (lookup_lt_is_Some_2 L iN ltac:(lia)) as [x Hx].
  unfold merge_left. rewrite aget_of_nat, Hx. simpl.
  rewrite (drop_S _ _ _ Hx), drop_all, list_merge_nil_r in Hmerge.
  split; [split; [|done]|lia].
  replace (Z.of_nat iN + 1) with (Z.of_nat (S iN)) by lia.
  eapply merge_inv_write; try done; try lia.
  rewrite drop_all, list_merge_nil_r, <- app_assoc. done.
Qed.

Lemma merge_right_step s :
  (merge_inv arr pre L R post s
   ∧ let '(_, _, i, _, _) := s in i = Z.of_nat (length L)) →
  (let '(_, _, _, j, _) := s in bool_decide (j < Z.of_nat (length R))) = true →
  (merge_inv arr pre L R post (merge_right R s)
   ∧ let '(_, _, i, _, _) := merge_right R s in i = Z.of_nat (length L))
  ∧ ((let '(_, _, _, j, _) := merge_right R s in Z.to_nat (Z.of_nat (length R) - j)) <
     (let '(_, _, _, j, _) := s in Z.to_nat (Z.of_nat (length R) - j)))%nat.
Proof.
  destruct s as [[[[steps cur] i] j] k].
  intros [(iN & jN & out & -> & -> & -> & HiN & HjN & Hout & Hcur & Hmerge & Hsteps & Hlast) Hi]
    Hc%bool_decide_eq_true.
  assert (iN = length L) as -> by lia.
  destruct (lookup_lt_is_Some_2 R jN ltac:(lia)) as [y Hy].
  unfold merge_right. rewrite aget_of_nat, Hy. simpl.
  rewrite drop_all, list_merge_nil_l, (drop_S _ _ _ Hy) in Hmerge.
  split; [split; [|done]|lia].
  replace (Z.of_nat jN + 1) with (Z.of_nat (S jN)) by lia.
  eapply merge_inv_write; try done; try lia.
  rewrite drop_all, list_merge_nil_l, <- app_assoc. done.
Qed.

End MergeLoops.

(** [merge] on two adjacent slices writes their merge in their place. *)
Lemma merge_spec (arr pre L R post : list Z) steps left mid right :
  left = Z.of_nat (length pre) →
  mid + 1 = left + Z.of_nat (length L) →
  right + 1 = mid + 1 + Z.of_nat (length R) →
  length (pre ++ L ++ R ++ post) = length arr →
  pre ++ L ++ R ++ post ⊆ arr →
  Forall (merge_snapshot arr) steps →
  last_array steps arr = pre ++ L ++ R ++ post →
  ∃ steps', merge left mid right (steps, pre ++ L ++ R ++ post)
            = Some (steps', pre ++ list_merge Z.le L R ++ post)
    ∧ Forall (merge_snapshot arr) steps'
    ∧ last_array steps' arr = pre ++ list_merge Z.le L R ++ post.
Proof.
  intros Hleft Hmid Hright Hlen Hsub Hsteps Hlast. unfold merge.
  rewrite (slice_middle pre L (R ++ post)) by (done || lia).
  assert (slice (pre ++ L ++ R ++ post) (mid + 1) (right + 1) = R) as ->.
  { rewrite (app_assoc pre L). apply slice_middle; rewrite ?length_app; lia. }
  (* first loop *)
  destruct (while_loop_spec (merge_inv arr pre L R post)
    (λ '(_, _, i, j, _), Z.to_nat (Z.of_nat (length L) - i + (Z.of_nat (length R) - j)))
    (λ '(_, _, i, j, _),
       bool_decide (i < Z.of_nat (length L)) && bool_decide (j < Z.of_nat (length R)))
    (merge_both left mid L R)
    (λ s, merge_both_step arr pre L R post Hlen Hsub left mid s)
    (S (length L + length R)) (steps, pre ++ L ++ R ++ post, 0, 0, left))
    as (s1 & E1 & Hinv1 & Hc1).
  { exists 0%nat, 0%nat, []. simpl. rewrite Nat.add_0_r, drop_0, <- app_assoc.
    repeat split; done || lia. }
  { lia. }
  unfold merge_state in *. rewrite E1. cbn [mbind option_bind].
  (* second loop *)
  destruct (while_loop_spec
    (λ s, merge_inv arr pre L R post s
          ∧ let '(_, _, i, j, _) := s in i < Z.of_nat (length L) → j = Z.of_nat (length R))
    (λ '(_, _, i, _, _), Z.to_nat (Z.of_nat (length L) - i))
    (λ '(_, _, i, _, _), bool_decide (i < Z.of_nat (length L)))
    (merge_left L)
    (merge_left_step arr pre L R post Hlen Hsub)
    (S (length L + length R)) s1)
    as (s2 & E2 & [Hinv2 _] & Hc2).
  { split; [done|]. destruct s1 as [[[[? ?] i] j] ?].
    destruct Hinv1 as (iN & jN & out & -> & -> & ? & ? & ? & _).
    apply andb_false_iff in Hc1. rewrite !bool_decide_eq_false in Hc1. lia. }
  { destruct s1 as [[[[? ?] i] j] ?].
    destruct Hinv1 as (iN & jN & out & -> & -> & _). lia. }
  unfold merge_state in *. rewrite E2. cbn [mbind option_bind].
  (* third loop *)
  destruct (while_loop_spec
    (λ s, merge_inv arr pre L R post s
          ∧ let '(_, _, i, _, _) := s in i = Z.of_nat (length L))
    (λ '(_, _, _, j, _), Z.to_nat (Z.of_nat (length R) - j))
    (λ '(_, _, _, j, _), bool_decide (j < Z.of_nat (length R)))
    (merge_right R)
    (merge_right_step arr pre L R post Hlen Hsub)
    (S (length L + length R)) s2)
    as (s3 & E3 & [Hinv3 Hi3] & Hc3).
  { split; [done|]. destruct s2 as [[[[? ?] i] j] ?].
    destruct Hinv2 as (iN & jN & out & -> & -> & ? & ? & ? & _).
    rewrite bool_decide_eq_false in Hc2. lia. }
  { destruct s2 as [[[[? ?] i] j] ?].
    destruct Hinv2 as (iN & jN & out & -> & -> & _). lia. }
  unfold merge_state in *. rewrite E3. cbn [mbind option_bind].
  destruct s3 as [[[[steps3 cur3] i] j] k].
  destruct Hinv3 as (iN & jN & out & -> & -> & -> & HiN & HjN & Hout & -> & Hmerge & Hst3 & Hla3).
  rewrite bool_decide_eq_false in Hc3.
  assert (iN = length L) as -> by lia. assert (jN = length R) as -> by lia.
  rewrite !drop_all, app_nil_r in Hmerge. subst out.
  rewrite <- length_app, drop_all in Hla3 |- *. simpl in *.
  eauto.
Qed.

Lemma perm_merge_hyps (arr a : list Z) :
  a ≡ₚ arr → length a = length arr ∧ a ⊆ arr.
Proof.
  intros Hp. split; [by apply Permutation_length|].
  intros x. by rewrite Hp.
Qed.

(** [mergeSortHelper] sorts the window [seg] of [pre ++ seg ++ post]. *)
Lemma mergeSortHelper_spec (arr : list Z) fuel : ∀ pre seg post steps left right,
  left = Z.of_nat (length pre) → right + 1 = left + Z.of_nat (length seg) →
  (length seg < fuel)%nat →
  pre ++ seg ++ post ≡ₚ arr →
  Forall (merge_snapshot arr) steps →
  last_array steps arr = pre ++ seg ++ post →
  ∃ steps' seg',
    mergeSortHelper fuel left right (steps, pre ++ seg ++ post)
    = Some (steps', pre ++ seg' ++ post)
    ∧ seg' ≡ₚ seg ∧ Sorted Z.le seg'
    ∧ Forall (merge_snapshot arr) steps'
    ∧ last_array steps' arr = pre ++ seg' ++ post.
Proof.
  induction fuel as [|fuel IH];
    intros pre seg post steps left right Hleft Hright Hfuel Hperm Hsteps Hlast; [lia|].
  cbn [mergeSortHelper]. case_bool_decide as Hlr.
  2:{ exists steps, seg. repeat split; try done.
      destruct seg as [|x [|y seg]]; simpl in *; try lia; repeat constructor. }
  set (mid := (left + right) `div` 2).
  assert (left ≤ mid < right) as Hmid.
  { subst mid. split; [apply Z.div_le_lower_bound | apply Z.div_lt_upper_bound]; lia. }
  set (m := Z.to_nat (mid - left + 1)).
  assert (seg = take m seg ++ drop m seg) as Hseg by (by rewrite take_drop).
  assert (length (take m seg) = m) as HlenL by (rewrite length_take; lia).
  assert (length (drop m seg) = (length seg - m)%nat) as HlenR by apply length_drop.
  revert Hseg HlenL HlenR.
  generalize (take m seg) as L0, (drop m seg) as R0. intros L0 R0 -> HlenL HlenR.
  rewrite length_app in *. rewrite <- !app_assoc in *.
  (* left half *)
  destruct (IH pre L0 (R0 ++ post) steps left mid)
    as (steps1 & L' & E1 & HpL & HsL & Hst1 & Hla1); try done; try lia.
  rewrite E1. cbn [mbind option_bind].
  (* right half *)
  destruct (IH (pre ++ L') R0 post steps1 (mid + 1) right)
    as (steps2 & R' & E2 & HpR & HsR & Hst2 & Hla2); try done.
  { rewrite length_app, (Permutation_length HpL). lia. }
  { lia. }
  { lia. }
  { rewrite <- app_assoc. by rewrite HpL. }
  { by rewrite <- app_assoc. }
  rewrite <- (app_assoc pre L' (R0 ++ post)) in E2.
  rewrite E2. cbn [mbind option_bind]. rewrite <- !app_assoc in Hla2 |- *.
  (* merge *)
  assert (pre ++ L' ++ R' ++ post ≡ₚ arr) as Hperm'.
  { by rewrite HpL, HpR. }
  destruct (perm_merge_hyps _ _ Hperm') as [Hlen' Hsub'].
  destruct (merge_spec arr pre L' R' post steps2 left mid right)
    as (steps3 & E3 & Hst3 & Hla3); try done.
  { rewrite (Permutation_length HpL). lia. }
  { rewrite (Permutation_length HpR). lia. }
  rewrite E3. exists steps3, (list_merge Z.le L' R').
  split; [done|]. split; [by rewrite merge_Permutation, HpL, HpR|].
  split; [by apply (Sorted_list_merge _)|]. done.
Qed.

(** [mergeSort] returns; the last snapshot is the input in order, and
    every snapshot has the length of the input and only values of it. *)
Lemma mergeSort_run (arr : list Z) :
  ∃ steps, mergeSort arr = Some steps ∧
    Forall (merge_snapshot arr) steps ∧
    last_array steps arr ≡ₚ arr ∧ Sorted Z.le (last_array steps arr).
Proof.
  unfold mergeSort.
  destruct (mergeSortHelper_spec arr (S (length arr)) [] arr [] []
              0 (Z.of_nat (length arr) - 1))
    as (steps & seg & E & Hp & Hs & Hst & Hla); simpl; try done; try lia.
  { by rewrite app_nil_r. }
  { by rewrite app_nil_r. }
  rewrite app_nil_r in E. simpl in *. rewrite E. exists steps. simpl.
  rewrite Hla, app_nil_r. done.
Qed.

End MergeFacts.

(** ** The three sorts together *)

Module SortingFacts.
Import Sorting BubbleFacts QuickFacts MergeFacts.
Local Open Scope Z_scope.

Lemma final_sorted_intro (arr : list Z) steps :
  last_array steps arr ≡ₚ arr → StronglySorted Z.le (last_array steps arr) →
  final_sorted arr steps.
Proof.
  unfold last_array. intros Hp Hs s Hlast. rewrite Hlast in Hp, Hs. done.
Qed.

(** C1 as stated fails for merge sort: on [[2; 1]] the step after the
    first write carries [[1; 1]], which has lost the value [2]. *)
Lemma mergeSort_snapshot_loses_value :
  ¬ (∀ steps, mergeSort [2; 1] = Some steps →
       steps ≠ [] → final_sorted [2; 1] steps ∧ multiset_kept [2; 1] steps).
Proof.
  intros H. destruct (H _ eq_refl) as [_ Hk]; [done|].
  unfold multiset_kept in Hk. rewrite Forall_forall in Hk.
  assert ([1; 1] ≡ₚ [2; 1]) as Hp.
  { apply (Hk (Step swap [0] [1; 1])). set_solver. }
  assert (2 ∈ [1; 1]) as Hin by (rewrite Hp; set_solver).
  set_solver.
Qed.

(** C1, amended: each of the three sorts returns a sequence whose
    final snapshot (when the sequence is not empty) is the input in
    order; every snapshot of bubble sort and of quick sort is a
    permutation of the input; every snapshot of merge sort has the
    length of the input and holds only values of the input. *)
Theorem sorts_final_snapshot_sorted (A : list Z) :
  (final_sorted A (bubbleSort A) ∧ multiset_kept A (bubbleSort A))
  ∧ (∃ steps, quickSort A = Some steps
       ∧ final_sorted A steps ∧ multiset_kept A steps)
  ∧ (∃ steps, mergeSort A = Some steps
       ∧ final_sorted A steps ∧ Forall (merge_snapshot A) steps).
Proof.
  split; [|split].
  - destruct (bubbleSort_run A) as (Hp & Hst & Hla & Hso).
    unfold bubbleSort. split; [|done].
    apply final_sorted_intro; rewrite Hla; [done|].
    by apply sorted_from_StronglySorted.
  - destruct (quickSort_run A) as (steps & E & Hst & Hp & Hso).
    exists steps. split; [done|]. split; [|done].
    apply final_sorted_intro; [done|]. by apply sorted_from_StronglySorted.
  - destruct (mergeSort_run A) as (steps & E & Hst & Hp & Hso).
    exists steps. split; [done|]. split; [|done].
    apply final_sorted_intro; [done|]. by apply Sorted_StronglySorted; [apply _|].
Qed.

End SortingFacts.

(** ** Cycle detection *)

Module CycleFacts.
Import Graph.

Lemma elem_of_unvisited (states : gmap nat nat) k :
  k ∈ unvisited states ↔ states !! k = Some 0.
Proof.
  unfold unvisited. rewrite elem_of_dom. split.
  - intros [v Hv]. apply map_lookup_filter_Some in Hv as [Hv E].
    simpl in E. by subst.
  - intros Hk. exists 0. by apply map_lookup_filter_Some.
Qed.

Lemma cycle_inv_push_other steps states hasCycle s :
  is_cycle_found s = false → (∀ node b, s ≠ cycle_finish node b) →
  cycle_inv (steps, states, hasCycle) →
  ∀ states', cycle_inv (steps ++ [s], states', hasCycle).
Proof.
  intros Hs Hnf [Hflag Hfin] states'. split.
  - rewrite Hflag. split; intros (s' & Hin & Hc).
    + exists s'. split; [|done]. apply elem_of_app. by left.
    + apply elem_of_app in Hin as [Hin|Hin%list_elem_of_singleton]; [eauto|].
      subst. congruence.
  - intros l1 node b l2 E.
    destruct l2 as [|s2 l2 _] using rev_ind.
    + apply (app_inj_2 _ _ _ [_]) in E as [_ E]; [|done]. simplify_eq.
      by destruct (Hnf node b).
    + rewrite app_comm_cons, app_assoc in E.
      apply (app_inj_2 _ _ _ [_]) in E as [E _]; [|done]. by eapply Hfin.
Qed.

Lemma cycle_inv_push_found steps states hasCycle node :
  cycle_inv (steps, states, hasCycle) →
  cycle_inv (steps ++ [cycle_found node true], states, true).
Proof.
  intros [Hflag Hfin]. split.
  - split; [|done]. intros _. exists (cycle_found node true).
    split; [|done]. apply elem_of_app. right. by left.
  - intros l1 n b l2 E.
    destruct l2 as [|s2 l2 _] using rev_ind.
    + apply (app_inj_2 _ _ _ [_]) in E as [_ E]; [|done]. simplify_eq.
    + rewrite app_comm_cons, app_assoc in E.
      apply (app_inj_2 _ _ _ [_]) in E as [E _]; [|done]. by eapply Hfin.
Qed.

Lemma cycle_inv_push_finish steps states hasCycle node states' :
  cycle_inv (steps, states, hasCycle) →
  cycle_inv (steps ++ [cycle_finish node hasCycle], states', hasCycle).
Proof.
  intros [Hflag Hfin]. split.
  - rewrite Hflag. split; intros (s' & Hin & Hc).
    + exists s'. split; [|done]. apply elem_of_app. by left.
    + apply elem_of_app in Hin as [Hin|Hin%list_elem_of_singleton]; [eauto|].
      by subst.
  - intros l1 n b l2 E.
    destruct l2 as [|s2 l2 _] using rev_ind.
    + apply (app_inj_2 _ _ _ [_]) in E as [E1 E2]; [|done]. simplify_eq. done.
    + rewrite app_comm_cons, app_assoc in E.
      apply (app_inj_2 _ _ _ [_]) in E as [E _]; [|done]. by eapply Hfin.
Qed.

(** [dfsHelper] returns when it has one unit of fuel for every node in
    state 0, keeps the invariant and leaves no new node in state 0. *)
Lemma cycle_dfsHelper_spec (adj : gmap nat (list nat)) fuel : ∀ node steps states hasCycle,
  (∀ k, states !! k = Some 0 → is_Some (adj !! k)) →
  states !! node = Some 0 →
  size (unvisited states) ≤ fuel →
  cycle_inv (steps, states, hasCycle) →
  ∃ steps' states' hasCycle',
    cycle_dfsHelper fuel adj node (steps, states, hasCycle) = Ok (steps', states', hasCycle')
    ∧ cycle_inv (steps', states', hasCycle')
    ∧ unvisited states' ⊆ unvisited states ∖ {[node]}.
Proof.
  induction fuel as [|fuel IH]; intros node steps states hasCycle Hadj Hnode Hfuel Hinv.
  { assert (node ∈ unvisited states) as Hin by by apply elem_of_unvisited.
    assert (size (unvisited states) ≠ 0); [|lia].
    apply size_non_empty_iff. set_solver. }
  cbn [cycle_dfsHelper].
  destruct (Hadj node Hnode) as [neighbors Hn]. rewrite Hn. cbn [defined mbind result_bind].
  assert (unvisited (<[node:=1]> states) ⊆ unvisited states ∖ {[node]}) as Hsub0.
  { intros k Hk. apply elem_of_unvisited in Hk.
    destruct (decide (k = node)) as [->|]; [by rewrite lookup_insert_eq in Hk|].
    rewrite lookup_insert_ne in Hk by done.
    apply elem_of_difference. split; [by apply elem_of_unvisited | set_solver]. }
  assert (size (unvisited states ∖ {[node]}) < size (unvisited states)) as Hlt.
  { apply subset_size. apply elem_of_unvisited in Hnode. set_solver. }
  destruct (for_of_inv
    (λ st : cycle_state, cycle_inv st ∧ unvisited st.1.2 ⊆ unvisited states ∖ {[node]})
    (λ neighbor st,
       let '(steps, states, hasCycle) := st in
       if decide (states !! neighbor = Some 1)
       then Ok (steps ++ [cycle_found neighbor true], states, true)
       else if decide (states !! neighbor = Some 0)
            then cycle_dfsHelper fuel adj neighbor st else Ok st)
    neighbors
    (steps ++ [cycle_visit node "visiting" false], <[node:=1]> states, hasCycle))
    as ([[steps1 states1] hc1] & E1 & Hinv1 & Hsub1).
  { split; [|done]. by eapply cycle_inv_push_other; [done | intros; done | apply Hinv]. }
  { intros neighbor [[steps2 states2] hc2] _ [Hinv2 Hsub2]. simpl in Hsub2.
    destruct (decide (states2 !! neighbor = Some 1)).
    { eexists. split; [done|]. split; [|done]. eapply cycle_inv_push_found, Hinv2. }
    destruct (decide (states2 !! neighbor = Some 0)) as [H0|]; [|eauto].
    destruct (IH neighbor steps2 states2 hc2) as (steps3 & states3 & hc3 & E3 & Hinv3 & Hsub3);
      try done.
    - intros k Hk. apply Hadj. apply elem_of_unvisited.
      apply elem_of_unvisited in Hk. set_solver.
    - apply subseteq_size in Hsub2. lia.
    - exists (steps3, states3, hc3). split; [done|]. split; [done|]. simpl. set_solver. }
  simpl in Hsub1. unfold cycle_state in *. rewrite E1. cbn [mbind result_bind].
  eexists _, _, _. split; [done|]. split; [eapply cycle_inv_push_finish, Hinv1|].
  intros k Hk. apply elem_of_unvisited in Hk.
  destruct (decide (k = node)) as [->|]; [by rewrite lookup_insert_eq in Hk|].
  rewrite lookup_insert_ne in Hk by done. apply Hsub1. by apply elem_of_unvisited.
Qed.

Lemma lookup_fold_insert_seq {V} (v : V) n : ∀ a (m0 : gmap nat V) k,
  foldl (λ m i, <[i := v]> m) m0 (seq a n) !! k
  = if decide (a ≤ k < a + n) then Some v else m0 !! k.
Proof.
  induction n as [|n IH]; intros a m0 k; simpl.
  - by rewrite decide_False by lia.
  - rewrite IH. destruct (decide (k = a)) as [->|].
    + rewrite lookup_insert_eq. repeat case_decide; done || lia.
    + rewrite lookup_insert_ne by done. repeat case_decide; done || lia.
Qed.

Lemma lookup_empty_adj n k :
  empty_adj n !! k = if decide (k < n) then Some [] else None.
Proof.
  unfold empty_adj. rewrite lookup_fold_insert_seq, lookup_empty.
  repeat case_decide; done || lia.
Qed.

(** The directed adjacency list is built and has an entry for every id. *)
Lemma directed_adj_total g :
  sources_in_range g →
  ∃ adj, directed_adj g = Ok adj ∧ ∀ k, k < length (nodes g) → is_Some (adj !! k).
Proof.
  intros Hg. unfold directed_adj.
  apply (for_of_inv (λ adj : gmap nat (list nat),
                       ∀ k, k < length (nodes g) → is_Some (adj !! k))).
  - intros k Hk. rewrite lookup_empty_adj, decide_True by done. eauto.
  - intros [u v] adj Hin Hadj. unfold sources_in_range in Hg.
    rewrite Forall_forall in Hg. specialize (Hg _ Hin). simpl in Hg.
    unfold adj_push. destruct (Hadj u Hg) as [l Hl]. rewrite Hl. simpl.
    eexists. split; [done|]. intros k Hk.
    destruct (decide (k = u)) as [->|]; [by rewrite lookup_insert_eq|].
    rewrite lookup_insert_ne by done. by apply Hadj.
Qed.

Lemma detectCycle_spec (g : graph) :
  sources_in_range g →
  ∃ steps, detectCycle g = Ok steps ∧ finish_flags_faithful steps.
Proof.
  intros Hg. unfold detectCycle.
  destruct (directed_adj_total g Hg) as (adj & -> & Hadj). cbn [mbind result_bind].
  set (n := length (nodes g)) in *.
  destruct (for_of_inv
    (λ st : cycle_state, cycle_inv st ∧ unvisited st.1.2 ⊆ set_seq 0 n)
    (λ i (st : cycle_state),
       if decide (st.1.2 !! i = Some 0) then cycle_dfsHelper (S n) adj i st else Ok st)
    (seq 0 n)
    ([], foldl (λ states i, <[i:=0]> states) ∅ (seq 0 n), false))
    as ([[steps states] hc] & E & [_ Hfin] & _).
  - split.
    + split; [split; [done|]|].
      * intros (s & Hs & _). by apply elem_of_nil in Hs.
      * intros l1 node b l2 E. by destruct l1.
    + intros k Hk. simpl in Hk. apply elem_of_unvisited in Hk.
      rewrite lookup_fold_insert_seq, lookup_empty in Hk.
      case_decide; [|done]. apply elem_of_set_seq. lia.
  - intros i [[steps states] hc] _ [Hinv Hsub]. simpl in *.
    case_decide as Hi; [|eauto].
    destruct (cycle_dfsHelper_spec adj (S n) i steps states hc)
      as (steps' & states' & hc' & E & Hinv' & Hsub'); try done.
    + intros k Hk. apply Hadj.
      assert (k ∈ (set_seq 0 n : gset nat)) as Hin.
      { apply Hsub. by apply elem_of_unvisited. }
      apply elem_of_set_seq in Hin. lia.
    + apply subseteq_size in Hsub. rewrite size_set_seq in Hsub. lia.
    + eexists. split; [done|]. split; [done|]. simpl. set_solver.
  - unfold cycle_state in *. rewrite E. simpl. eauto.
Qed.

(** C6: every [finish] step of [detectCycle] carries the flag as it is
    when the node is completed: [hasCycle] is [true] exactly when a
    [cycle] step occurs earlier in the sequence; a node that finishes
    before the first [cycle] step carries [false], also when the run
    finds a cycle later. *)
Theorem detectCycle_finish_flag (g : graph) :
  sources_in_range g →
  ∃ steps, detectCycle g = Ok steps
    ∧ (∀ l1 node b l2, steps = l1 ++ cycle_finish node b :: l2 →
         (b = true ↔ ∃ s, s ∈ l1 ∧ is_cycle_found s = true))
    ∧ (∀ l1 node b l2, steps = l1 ++ cycle_finish node b :: l2 →
         Forall (λ s, is_cycle_found s = false) l1 → b = false).
Proof.
  intros Hg. destruct (detectCycle_spec g Hg) as (steps & E & Hfin).
  exists steps. split; [done|]. split; [done|].
  intros l1 node b l2 Hsteps Hno.
  destruct b; [|done].
  destruct (proj1 (Hfin l1 node true l2 Hsteps) eq_refl) as (s & Hs & Hc).
  rewrite Forall_forall in Hno. rewrite (Hno s Hs) in Hc. done.
Qed.

(** A cyclic graph on which two nodes finish before the back edge is
    found. *)
Lemma detectCycle_finish_flag_witness :
  let g := {| nodes := [0; 1; 2; 3]; edges := [(0, 1); (2, 3); (3, 2)] |} in
  sources_in_range g
  ∧ ∃ steps, detectCycle g = Ok steps
    ∧ (∀ l1 node b l2, steps = l1 ++ cycle_finish node b :: l2 →
         (b = true ↔ ∃ s, s ∈ l1 ∧ is_cycle_found s = true))
    ∧ (∀ l1 node b l2, steps = l1 ++ cycle_finish node b :: l2 →
         Forall (λ s, is_cycle_found s = false) l1 → b = false).
Proof.
  intros g.
  assert (sources_in_range g) as Hg by (repeat constructor).
  split; [exact Hg | exact (detectCycle_finish_flag g Hg)].
Defined.

Example detectCycle_late_cycle :
  detectCycle {| nodes := [0; 1; 2; 3]; edges := [(0, 1); (2, 3); (3, 2)] |}
  = Ok [cycle_visit 0 "visiting" false; cycle_visit 1 "visiting" false;
        cycle_finish 1 false; cycle_finish 0 false;
        cycle_visit 2 "visiting" false; cycle_visit 3 "visiting" false;
        cycle_found 2 true; cycle_finish 3 true; cycle_finish 2 true].
Proof. vm_compute. reflexivity. Qed.

End CycleFacts.

(** ** Topological sort *)

Module TopoFacts.
Import Graph CycleFacts.

(** The directed adjacency list holds, for every id, its successors. *)
Lemma directed_adj_spec g :
  sources_in_range g →
  ∃ adj, directed_adj g = Ok adj
    ∧ ∀ u, u < length (nodes g) →
        ∃ l, adj !! u = Some l ∧ ∀ v, v ∈ l ↔ edge g u v.
Proof.
  intros Hg. unfold directed_adj, edge.
  destruct (for_of_spec
    (λ pre (adj : gmap nat (list nat)),
       ∀ u, u < length (nodes g) → ∃ l, adj !! u = Some l ∧ ∀ v, v ∈ l ↔ (u, v) ∈ pre)
    (λ '(u, v) adj, adj_push u v adj) (edges g) [] (empty_adj (length (nodes g))))
    as (adj & E & Hadj).
  - intros u Hu. exists []. rewrite lookup_empty_adj, decide_True by done.
    split; [done|]. intros v. split; intros Hin; by apply elem_of_nil in Hin.
  - intros pre [u v] post adj E Hadj. simpl in E.
    assert (u < length (nodes g)) as Hu.
    { unfold sources_in_range in Hg. rewrite Forall_forall in Hg.
      apply (Hg (u, v)). rewrite E. apply elem_of_app. right. by left. }
    unfold adj_push. destruct (Hadj u Hu) as (l & Hl & Hlv). rewrite Hl. simpl.
    eexists. split; [done|]. intros u' Hu'.
    destruct (decide (u' = u)) as [->|].
    + rewrite lookup_insert_eq. eexists. split; [done|]. intros v'.
      rewrite !elem_of_app, Hlv, !list_elem_of_singleton.
      split; intros [?|?]; simplify_eq; auto.
    + rewrite lookup_insert_ne by done.
      destruct (Hadj u' Hu') as (l' & Hl' & Hlv'). exists l'. split; [done|].
      intros v'. rewrite Hlv', elem_of_app, list_elem_of_singleton.
      split; [auto|]. intros [?|?]; simplify_eq; auto.
  - exists adj. split; [done|]. simpl in Hadj. done.
Qed.

Lemma last_finish_snoc steps node visited result :
  last_finish (steps ++ [topo_finish node visited result]) = Some result.
Proof. unfold last_finish. rewrite omap_app. simpl. by rewrite last_snoc. Qed.

Lemma ordered_cons g node res :
  ordered g res → (∀ v, edge g node v → v ∈ res) → ordered g (node :: res).
Proof.
  intros Hres Hnode l1 u l2 E v Huv.
  destruct l1 as [|x l1]; simplify_eq/=; [by apply Hnode|].
  by eapply Hres.
Qed.

Lemma last_finish_snoc_visit steps node visited result :
  last_finish (steps ++ [topo_visit node visited result]) = last_finish steps.
Proof. unfold last_finish. rewrite omap_app. simpl. by rewrite app_nil_r. Qed.

Section TopoSearch.
Context (g : graph) (adj : gmap nat (list nat)).
Context (Hwf : wf_graph g) (Hacyc : acyclic g).
Context (Hadj : ∀ u, u < length (nodes g) →
                  ∃ l, adj !! u = Some l ∧ ∀ v, v ∈ l ↔ edge g u v).

Lemma edge_in_range u v : edge g u v → u < length (nodes g) ∧ v < length (nodes g).
Proof.
  unfold edge, wf_graph in *. rewrite Forall_forall in Hwf.
  intros Hin. apply (Hwf _ Hin).
Qed.

(** A call of [dfsHelper] on a node that is not visited: it returns,
    and [result] gains the node and the nodes reached from it that were
    not visited, every node before its successors. *)
Lemma topo_dfsHelper_spec fuel : ∀ node A steps visited result,
  node < length (nodes g) → node ∉ visited →
  topo_inv g A (steps, visited, result) →
  (∀ w, w ∈ A → rtc (edge g) w node) →
  size (set_seq 0 (length (nodes g)) ∖ visited : gset nat) ≤ fuel →
  ∃ steps' visited' result',
    topo_dfsHelper fuel adj node (steps, visited, result) = Ok (steps', visited', result')
    ∧ topo_inv g A (steps', visited', result')
    ∧ node ∈ result' ∧ visited ⊆ visited' ∧ last_finish steps' = Some result'.
Proof.
  induction fuel as [|fuel IH];
    intros node A steps visited result Hnode Hfresh Hinv Hreach Hfuel.
  { assert (node ∈ (set_seq 0 (length (nodes g)) ∖ visited : gset nat)) as Hin.
    { apply elem_of_difference. split; [|done]. apply elem_of_set_seq. lia. }
    assert (size (set_seq 0 (length (nodes g)) ∖ visited : gset nat) ≠ 0); [|lia].
    apply size_non_empty_iff. intros He. rewrite He in Hin. by apply not_elem_of_empty in Hin. }
  destruct Hinv as (Hvis & Hact & Hord & Hnd & Hrange & Hlast).
  cbn [topo_dfsHelper].
  destruct (Hadj node Hnode) as (neighbors & Hn & Hnb). rewrite Hn.
  cbn [defined mbind result_bind].
  assert (node ∉ result) as Hnres.
  { intros Hin. apply Hfresh. rewrite Hvis. apply elem_of_union. left.
    by apply elem_of_list_to_set. }
  assert (node ∉ A) as HnA.
  { intros Hin. apply Hfresh. rewrite Hvis. apply elem_of_union. by right. }
  destruct (for_of_spec
    (λ pre (st : topo_state),
       topo_inv g (A ∪ {[node]}) st ∧ {[node]} ∪ visited ⊆ st.1.2
       ∧ ∀ v, v ∈ pre → v ∈ st.2)
    (λ neighbor (st : topo_state),
       if decide (neighbor ∈ st.1.2) then Ok st
       else topo_dfsHelper fuel adj neighbor st)
    neighbors []
    (steps ++ [topo_visit node ({[node]} ∪ visited) result], {[node]} ∪ visited, result))
    as ([[steps1 vis1] res1] & E1 & Hinv1 & Hsub1 & Hdone1).
  { split; [|split; [done|]].
    - split; [|split; [|split; [|split; [|split]]]]; try done.
      + rewrite Hvis. set_solver.
      + intros w [Hw|Hw%elem_of_singleton]%elem_of_union; [by apply Hact|by subst].
      + intros w [Hw%elem_of_singleton|Hw]%elem_of_union; [by subst|by apply Hrange].
      + by rewrite last_finish_snoc_visit.
    - intros v Hv. by apply elem_of_nil in Hv. }
  { intros pre v post [[steps2 vis2] res2] Epre (Hinv2 & Hsub2 & Hdone2). simpl in *.
    assert (edge g node v) as Hedge.
    { apply Hnb. rewrite Epre. apply elem_of_app. right. by left. }
    destruct (edge_in_range _ _ Hedge) as [_ Hv].
    destruct Hinv2 as (Hvis2 & Hact2 & Hord2 & Hnd2 & Hrange2 & Hlast2).
    destruct (decide (v ∈ vis2)) as [Hin|Hnin].
    - eexists. split; [done|]. split; [done|]. split; [done|].
      intros x [Hx|Hx%list_elem_of_singleton]%elem_of_app; [by apply Hdone2|].
      subst x. rewrite Hvis2 in Hin.
      apply elem_of_union in Hin as [Hin|Hin]; [by apply elem_of_list_to_set in Hin|].
      exfalso. apply (Hacyc node).
      apply elem_of_union in Hin as [Hin|Hin%elem_of_singleton].
      + eapply tc_rtc_r; [by apply tc_once | by apply Hreach].
      + subst. by apply tc_once.
    - destruct (IH v (A ∪ {[node]}) steps2 vis2 res2)
        as (steps3 & vis3 & res3 & E3 & Hinv3 & Hv3 & Hsub3 & Hlast3); try done.
      + intros w [Hw|Hw%elem_of_singleton]%elem_of_union.
        * eapply rtc_r; [by apply Hreach | done].
        * subst. by apply rtc_once.
      + assert (set_seq 0 (length (nodes g)) ∖ vis2
                ⊂ (set_seq 0 (length (nodes g)) ∖ visited : gset nat)) as Hlt.
        { assert (node ∈ (set_seq 0 (length (nodes g)) : gset nat))
            by (apply elem_of_set_seq; lia).
          set_solver. }
        apply subset_size in Hlt. lia.
      + exists (steps3, vis3, res3). split; [done|]. split; [done|].
        split; [simpl; set_solver|]. simpl.
        destruct Hinv3 as (Hvis3 & Hact3 & _).
        intros x [Hx|Hx%list_elem_of_singleton]%elem_of_app; [|by subst].
        specialize (Hdone2 x Hx).
        assert (x ∈ vis3) as Hx3.
        { apply Hsub3. rewrite Hvis2. apply elem_of_union. left.
          by apply elem_of_list_to_set. }
        rewrite Hvis3 in Hx3.
        apply elem_of_union in Hx3 as [Hx3|Hx3]; [by apply elem_of_list_to_set in Hx3|].
        by destruct (Hact2 x Hx3). }
  simpl in *. unfold topo_state in *. rewrite E1. cbn [mbind result_bind].
  destruct Hinv1 as (Hvis1 & Hact1 & Hord1 & Hnd1 & Hrange1 & Hlast1).
  eexists _, _, _. split; [done|].
  split; [|split; [by left|split; [set_solver|by apply last_finish_snoc]]].
  split; [|split; [|split; [|split; [|split]]]]; try done.
  - rewrite Hvis1. set_solver.
  - intros w Hw [->|Hin]%elem_of_cons; [done|].
    apply (Hact1 w); [|done]. apply elem_of_union. by left.
  - apply ordered_cons; [done|]. intros v Hv. apply Hdone1. by apply Hnb.
  - constructor; [|done]. apply Hact1. apply elem_of_union. right. by apply elem_of_singleton.
  - left. apply last_finish_snoc.
Qed.

End TopoSearch.

(** C7: on a directed acyclic graph [topologicalSort] returns, and in
    the [result] of its last [finish] step every node of the graph
    occurs once and, for every edge [u → v], [u] comes before [v]. *)
Theorem topologicalSort_edges_ordered (g : graph) :
  wf_graph g → acyclic g →
  ∃ steps, topologicalSort g = Ok steps
    ∧ (nodes g ≠ [] → is_Some (last_finish steps))
    ∧ ∀ r, last_finish steps = Some r →
        NoDup r ∧ (∀ i, i < length (nodes g) → i ∈ r)
        ∧ ∀ u v, (u, v) ∈ edges g → ∃ l1 l2 l3, r = l1 ++ u :: l2 ++ v :: l3.
Proof.
  intros Hwf Hacyc. unfold topologicalSort.
  assert (sources_in_range g) as Hsrc.
  { unfold sources_in_range, wf_graph in *. eapply Forall_impl; [done|]. by intros ? []. }
  destruct (directed_adj_spec g Hsrc) as (adj & -> & Hadj). cbn [mbind result_bind].
  set (n := length (nodes g)) in *.
  destruct (for_of_spec
    (λ pre (st : topo_state), topo_inv g ∅ st ∧ ∀ i, i ∈ pre → i ∈ st.2)
    (λ i (st : topo_state),
       if decide (i ∈ st.1.2) then Ok st else topo_dfsHelper (S n) adj i st)
    (seq 0 n) [] ([], ∅, []))
    as ([[steps vis] res] & E & Hinv & Hall).
  - split.
    + split; [set_solver|]. split; [set_solver|]. split.
      * intros l1 u l2 El. by destruct l1.
      * split; [constructor|]. split; [set_solver|]. by right.
    + intros i Hi. by apply elem_of_nil in Hi.
  - intros pre i post [[steps2 vis2] res2] Epre [Hinv2 Hdone2]. simpl in *.
    assert (i < n) as Hi.
    { assert (i ∈ seq 0 n) as Hin by (rewrite Epre; apply elem_of_app; right; by left).
      apply elem_of_seq in Hin. lia. }
    pose proof Hinv2 as (Hvis2 & _).
    destruct (decide (i ∈ vis2)) as [Hin|Hnin].
    + eexists. split; [done|]. split; [done|]. simpl.
      intros x [Hx|Hx%list_elem_of_singleton]%elem_of_app; [by apply Hdone2|].
      subst x. rewrite Hvis2 in Hin. set_solver.
    + destruct (topo_dfsHelper_spec g adj Hwf Hacyc Hadj (S n) i ∅ steps2 vis2 res2)
        as (steps3 & vis3 & res3 & E3 & Hinv3 & Hi3 & Hsub3 & Hlast3); try done.
      * assert (size (set_seq 0 n ∖ vis2 : gset nat) ≤ size (set_seq 0 n : gset nat)) as Hle.
        { apply subseteq_size. set_solver. }
        rewrite size_set_seq in Hle. unfold n in *. lia.
      * exists (steps3, vis3, res3). split; [done|]. split; [done|]. simpl.
        destruct Hinv3 as (Hvis3 & _).
        intros x [Hx|Hx%list_elem_of_singleton]%elem_of_app; [|by subst].
        specialize (Hdone2 x Hx). set_solver.
  - unfold topo_state in *. rewrite E. cbn [mbind result_bind]. simpl in *.
    exists steps. split; [done|].
    destruct Hinv as (Hvis & _ & Hord & Hnd & _ & Hlast).
    assert (∀ i, i < n → i ∈ res) as Hcover.
    { intros i Hi. apply Hall. apply elem_of_seq. lia. }
    split.
    + intros Hne. destruct Hlast as [->|[-> _]]; [done|].
      destruct (nodes g) as [|x l] eqn:En; [done|].
      assert (0 < n) as H0 by (subst n; simpl; lia).
      by apply Hcover, elem_of_nil in H0.
    + intros r Hr. destruct Hlast as [Hl|[_ Hl]]; [|congruence].
      assert (r = res) as -> by congruence.
      split; [done|]. split; [done|].
      intros u v Huv.
      destruct (edge_in_range g Hwf u v Huv) as [Hu Hv].
      destruct (list_elem_of_split res u (Hcover u Hu)) as (l1 & l2' & ->).
      destruct (list_elem_of_split l2' v (Hord l1 u l2' eq_refl v Huv)) as (l2 & l3 & ->).
      eauto.
Qed.

(** A graph whose edges all go from a smaller to a larger id is acyclic. *)
Lemma acyclic_increasing (g : graph) :
  Forall (λ e, e.1 < e.2) (edges g) → acyclic g.
Proof.
  intros Hinc. rewrite Forall_forall in Hinc.
  assert (∀ u v, tc (edge g) u v → u < v) as Htc.
  { intros u v Huv. induction Huv as [u v Huv|u w v Huw _ IH].
    - apply (Hinc (u, v) Huv).
    - pose proof (Hinc (u, w) Huw). simpl in *. lia. }
  intros u Hu. apply Htc in Hu. lia.
Qed.

Lemma topologicalSort_edges_ordered_witness :
  let g := {| nodes := [0; 1; 2; 3]; edges := [(0, 2); (1, 2); (2, 3); (0, 3)] |} in
  wf_graph g ∧ acyclic g
  ∧ ∃ steps, topologicalSort g = Ok steps
    ∧ (nodes g ≠ [] → is_Some (last_finish steps))
    ∧ ∀ r, last_finish steps = Some r →
        NoDup r ∧ (∀ i, i < length (nodes g) → i ∈ r)
        ∧ ∀ u v, (u, v) ∈ edges g → ∃ l1 l2 l3, r = l1 ++ u :: l2 ++ v :: l3.
Proof.
  intros g.
  assert (wf_graph g) as Hwf by (repeat constructor).
  assert (acyclic g) as Hacyc by (apply acyclic_increasing; repeat constructor).
  split; [exact Hwf|]. split; [exact Hacyc|].
  exact (topologicalSort_edges_ordered g Hwf Hacyc).
Defined.

Example topologicalSort_diamond :
  last_finish <$> topologicalSort
    {| nodes := [0; 1; 2; 3]; edges := [(0, 2); (1, 2); (2, 3); (0, 3)] |}
  = Ok (Some [1; 0; 2; 3]).
Proof. vm_compute. reflexivity. Qed.

End TopoFacts.

(** ** Depth-first and breadth-first traversal *)

Module TraversalFacts.
Import Graph CycleFacts.

Lemma deg_snoc k pre u v :
  deg k (pre ++ [(u, v)])
  = deg k pre + (if decide (u = k) then 1 else 0) + (if decide (v = k) then 1 else 0).
Proof. unfold deg. rewrite sum_list_with_app. simpl. lia. Qed.

(** The undirected adjacency list is built; [adj[k]] has [deg k]
    entries, all of them ids of the graph. *)
Lemma buildAdjacencyList_spec g :
  wf_graph g →
  ∃ adj, buildAdjacencyList (length (nodes g)) (edges g) = Ok adj
    ∧ ∀ k, k < length (nodes g) →
        ∃ l, adj !! k = Some l ∧ length l = deg k (edges g)
             ∧ Forall (λ v, v < length (nodes g)) l.
Proof.
  intros Hg. unfold buildAdjacencyList. set (n := length (nodes g)) in *.
  destruct (for_of_spec
    (λ pre (adj : gmap nat (list nat)),
       ∀ k, k < n → ∃ l, adj !! k = Some l ∧ length l = deg k pre ∧ Forall (λ v, v < n) l)
    (λ '(u, v) adj, adj ← adj_push u v adj; adj_push v u adj)
    (edges g) [] (empty_adj n))
    as (adj & E & Hadj); [| |by eauto].
  - intros k Hk. exists []. rewrite lookup_empty_adj, decide_True by done. done.
  - intros pre [u v] post adj E Hadj. simpl in E.
    assert (u < n ∧ v < n) as [Hu Hv].
    { unfold wf_graph in Hg. rewrite Forall_forall in Hg.
      apply (Hg (u, v)). rewrite E. apply elem_of_app. right. by left. }
    unfold adj_push at 2. destruct (Hadj u Hu) as (lu & Hlu & Hlen_u & Hall_u).
    rewrite Hlu. cbn [defined mbind result_bind]. unfold adj_push.
    destruct (Hadj v Hv) as (lv & Hlv & Hlen_v & Hall_v).
    destruct (decide (u = v)) as [->|Huv].
    + rewrite lookup_insert_eq. cbn [defined mbind result_bind].
      eexists. split; [done|]. intros k Hk. rewrite deg_snoc.
      destruct (decide (k = v)) as [->|].
      * rewrite lookup_insert_eq. eexists. split; [done|]. simplify_eq.
        rewrite !length_app, !decide_True by done. simpl.
        split; [lia|]. rewrite !Forall_app, !Forall_singleton. done.
      * rewrite !lookup_insert_ne by done. rewrite !decide_False by done.
        destruct (Hadj k Hk) as (l & Hl & Hlen & Hall). exists l.
        split; [done|]. split; [lia | done].
    + rewrite lookup_insert_ne, Hlv by done. cbn [defined mbind result_bind].
      eexists. split; [done|]. intros k Hk. rewrite deg_snoc.
      destruct (decide (k = v)) as [->|].
      * rewrite lookup_insert_eq. eexists. split; [done|].
        rewrite length_app, decide_False, decide_True by done. simpl.
        split; [lia|]. rewrite Forall_app, Forall_singleton. done.
      * rewrite lookup_insert_ne by done. destruct (decide (k = u)) as [->|].
        -- rewrite lookup_insert_eq. eexists. split; [done|].
           rewrite length_app, decide_True, decide_False by done. simpl.
           split; [lia|]. rewrite Forall_app, Forall_singleton. done.
        -- rewrite lookup_insert_ne by done. rewrite !decide_False by done.
           destruct (Hadj k Hk) as (l & Hl & Hlen & Hall). exists l.
           split; [done|]. split; [lia | done].
Qed.

Lemma weight_empty edges : weight ∅ edges = 2 * length edges.
Proof.
  unfold weight. induction edges as [|e edges IH]; [done|].
  simpl. rewrite IH.
  rewrite !decide_False by apply not_elem_of_empty. lia.
Qed.

Lemma weight_visit x visited edges :
  x ∉ visited → weight ({[x]} ∪ visited) edges + deg x edges = weight visited edges.
Proof.
  intros Hx. unfold weight, deg. induction edges as [|[u v] edges IH]; [done|].
  simpl.
  assert (∀ y, (if decide (y ∈ {[x]} ∪ visited) then 0 else 1)
               + (if decide (y = x) then 1 else 0)
               = if decide (y ∈ visited) then 0 else 1) as Hone.
  { intros y. repeat case_decide; subst; try done; set_solver. }
  pose proof (Hone u). pose proof (Hone v). lia.
Qed.

Lemma dfs_push_all visited n neighbors : ∀ stack,
  Forall (λ v, v < n) neighbors → Forall (λ v, v < n) stack →
  ∃ stack', for_of neighbors (dfs_push visited) stack = Ok stack'
    ∧ Forall (λ v, v < n) stack'
    ∧ length stack' ≤ length stack + length neighbors.
Proof.
  induction neighbors as [|v neighbors IH]; intros stack Hn Hs; simpl.
  - exists stack. split; [done|]. split; [done|lia].
  - apply Forall_cons in Hn as [Hv Hn].
    assert (dfs_push visited v stack
            = if decide (v ∈ visited) then Ok stack else Ok (v :: stack)) as -> by done.
    destruct (decide (v ∈ visited)); cbn [mbind result_bind].
    + destruct (IH stack Hn Hs) as (stack' & E & Hall & Hlen).
      exists stack'. split; [done|]. split; [done|lia].
    + destruct (IH (v :: stack) Hn) as (stack' & E & Hall & Hlen); [by constructor|].
      exists stack'. split; [done|]. split; [done|]. simpl in Hlen. lia.
Qed.

Lemma dfs_loop_spec g (Hg : wf_graph g) fuel : ∀ steps visited stack visitOrder,
  Forall (λ v, v < length (nodes g)) stack →
  mono_inv step_visited steps visited → Forall visit_self steps →
  length stack + weight visited (edges g) < fuel →
  ∃ steps', dfs_loop fuel g (steps, visited, stack, visitOrder) = Ok steps'
    ∧ monotone_snapshots step_visited steps' ∧ Forall visit_self steps'.
Proof.
  induction fuel as [|fuel IH]; intros steps visited stack visitOrder Hstack Hmono Hself Hfuel;
    [lia|].
  cbn [dfs_loop]. destruct stack as [|node stack].
  { exists steps. split; [done|]. split; [apply Hmono | done]. }
  apply Forall_cons in Hstack as [Hnode Hstack]. simpl in Hfuel.
  case_decide as Hvis.
  { apply IH; try done. lia. }
  destruct (buildAdjacencyList_spec g Hg) as (adj & -> & Hadj).
  cbn [mbind result_bind].
  destruct (Hadj node Hnode) as (l & -> & Hlen & Hall).
  cbn [defined fmap result_fmap mbind result_bind].
  destruct (dfs_push_all ({[node]} ∪ visited) (length (nodes g)) (reverse l) stack)
    as (stack' & -> & Hstack' & Hlen'); [by apply Forall_reverse | done |].
  cbn [mbind result_bind]. rewrite length_reverse in Hlen'.
  pose proof (weight_visit node visited (edges g) Hvis).
  apply IH; try done.
  - apply mono_inv_push; [|by intros X [= <-]].
    eapply mono_inv_grow; [done|]. set_solver.
  - rewrite Forall_app, Forall_singleton. split; [done|]. simpl. set_solver.
  - lia.
Qed.

Lemma dfs_spec g startNode :
  wf_graph g → startNode < length (nodes g) →
  ∃ steps, dfs g startNode = Ok steps
    ∧ monotone_snapshots step_visited steps ∧ Forall visit_self steps.
Proof.
  intros Hg Hs. unfold dfs. apply dfs_loop_spec; try done.
  - by constructor.
  - apply mono_inv_nil.
  - rewrite weight_empty. simpl. lia.
Qed.

Lemma unvisited_shrinks n x (visited : gset nat) :
  x < n → x ∉ visited →
  size (set_seq 0 n ∖ ({[x]} ∪ visited) : gset nat) < size (set_seq 0 n ∖ visited : gset nat).
Proof.
  intros Hx Hnin. apply subset_size.
  assert (x ∈ (set_seq 0 n : gset nat)) by (apply elem_of_set_seq; lia).
  set_solver.
Qed.

Lemma bfs_enqueue_all n neighbors : ∀ visited queue,
  Forall (λ v, v < n) neighbors → Forall (λ v, v < n) queue →
  (∀ x, x ∈ queue → x ∈ visited) →
  ∃ visited' queue', for_of neighbors bfs_enqueue (visited, queue) = Ok (visited', queue')
    ∧ Forall (λ v, v < n) queue' ∧ (∀ x, x ∈ queue' → x ∈ visited')
    ∧ visited ⊆ visited'
    ∧ length queue' + size (set_seq 0 n ∖ visited' : gset nat)
      ≤ length queue + size (set_seq 0 n ∖ visited : gset nat).
Proof.
  induction neighbors as [|v neighbors IH]; intros visited queue Hn Hq Hqv; simpl.
  - exists visited, queue. repeat split; try done.
  - apply Forall_cons in Hn as [Hv Hn].
    destruct (decide (v ∈ visited)) as [Hin|Hnin]; cbn [mbind result_bind].
    + by apply IH.
    + destruct (IH ({[v]} ∪ visited) (queue ++ [v]) Hn)
        as (visited' & queue' & E & Hq' & Hqv' & Hsub & Hlen).
      * rewrite Forall_app, Forall_singleton. done.
      * intros x [Hx|Hx%list_elem_of_singleton]%elem_of_app; set_solver.
      * exists visited', queue'. split; [done|]. split; [done|]. split; [done|].
        split; [set_solver|].
        pose proof (unvisited_shrinks n v visited Hv Hnin).
        rewrite length_app in Hlen. simpl in Hlen. lia.
Qed.

Lemma graphBFS_loop_spec n adj fuel : ∀ steps visited queue visitOrder,
  (∀ k, k < n → ∃ l, adj !! k = Some l ∧ Forall (λ v, v < n) l) →
  Forall (λ v, v < n) queue → (∀ x, x ∈ queue → x ∈ visited) →
  mono_inv step_visited steps visited → Forall visit_self steps →
  length queue + size (set_seq 0 n ∖ visited : gset nat) < fuel →
  ∃ steps', graphBFS_loop fuel adj (steps, visited, queue, visitOrder) = Ok steps'
    ∧ monotone_snapshots step_visited steps' ∧ Forall visit_self steps'.
Proof.
  induction fuel as [|fuel IH];
    intros steps visited queue visitOrder Hadj Hq Hqv Hmono Hself Hfuel; [lia|].
  cbn [graphBFS_loop]. destruct queue as [|node queue].
  { exists steps. split; [done|]. split; [apply Hmono | done]. }
  apply Forall_cons in Hq as [Hnode Hq]. simpl in Hfuel.
  destruct (Hadj node Hnode) as (l & -> & Hl). cbn [defined mbind result_bind].
  destruct (bfs_enqueue_all n l visited queue Hl Hq)
    as (visited' & queue' & -> & Hq' & Hqv' & Hsub & Hlen).
  { intros x Hx. apply Hqv. by right. }
  cbn [mbind result_bind]. apply IH; try done.
  - eapply mono_inv_grow; [|done]. apply mono_inv_push; [done|]. by intros X [= <-].
  - rewrite Forall_app, Forall_singleton. split; [done|]. simpl. apply Hqv. by left.
  - lia.
Qed.

Lemma graphBFS_spec g startNode :
  wf_graph g → startNode < length (nodes g) →
  ∃ steps, graphBFS g startNode = Ok steps
    ∧ monotone_snapshots step_visited steps ∧ Forall visit_self steps.
Proof.
  intros Hg Hs. unfold graphBFS.
  destruct (buildAdjacencyList_spec g Hg) as (adj & -> & Hadj).
  cbn [mbind result_bind].
  apply (graphBFS_loop_spec (length (nodes g))); try done.
  - intros k Hk. destruct (Hadj k Hk) as (l & Hl & _ & Hall). eauto.
  - by constructor.
  - intros x Hx%list_elem_of_singleton. set_solver.
  - apply mono_inv_nil.
  - assert (size (set_seq 0 (length (nodes g)) ∖ {[startNode]} : gset nat)
            ≤ size (set_seq 0 (length (nodes g)) : gset nat)) as Hle.
    { apply subseteq_size. set_solver. }
    rewrite size_set_seq in Hle. simpl. lia.
Qed.

(** The search of [topologicalSort], on any graph: it returns and the
    visited sets of its steps grow. *)
Lemma topo_dfsHelper_mono n adj
    (Hadj : ∀ k, k < n → ∃ l, adj !! k = Some l ∧ Forall (λ v, v < n) l) fuel :
  ∀ node steps visited result,
  node < n → node ∉ visited →
  size (set_seq 0 n ∖ visited : gset nat) ≤ fuel →
  mono_inv topo_visited steps visited → Forall topo_visit_self steps →
  ∃ steps' visited' result',
    topo_dfsHelper fuel adj node (steps, visited, result) = Ok (steps', visited', result')
    ∧ mono_inv topo_visited steps' visited' ∧ Forall topo_visit_self steps'
    ∧ {[node]} ∪ visited ⊆ visited'.
Proof.
  induction fuel as [|fuel IH];
    intros node steps visited result Hnode Hfresh Hfuel Hmono Hself.
  { pose proof (unvisited_shrinks n node visited Hnode Hfresh). lia. }
  cbn [topo_dfsHelper]. destruct (Hadj node Hnode) as (neighbors & -> & Hnb).
  cbn [defined mbind result_bind].
  pose proof (unvisited_shrinks n node visited Hnode Hfresh) as Hshrink.
  destruct (for_of_inv
    (λ st : topo_state, mono_inv topo_visited st.1.1 st.1.2
       ∧ Forall topo_visit_self st.1.1 ∧ {[node]} ∪ visited ⊆ st.1.2)
    (λ neighbor (st : topo_state),
       if decide (neighbor ∈ st.1.2) then Ok st
       else topo_dfsHelper fuel adj neighbor st)
    neighbors
    (steps ++ [topo_visit node ({[node]} ∪ visited) result], {[node]} ∪ visited, result))
    as ([[steps1 vis1] res1] & E1 & Hmono1 & Hself1 & Hsub1).
  { simpl. split; [|split; [|done]].
    - apply mono_inv_push; [|by intros X [= <-]].
      eapply mono_inv_grow; [done|]. set_solver.
    - rewrite Forall_app, Forall_singleton. split; [done|]. simpl. set_solver. }
  { intros v [[steps2 vis2] res2] Hv (Hmono2 & Hself2 & Hsub2). simpl in *.
    case_decide as Hin; [by eauto|].
    rewrite Forall_forall in Hnb.
    destruct (IH v steps2 vis2 res2) as (steps3 & vis3 & res3 & E3 & Hmono3 & Hself3 & Hsub3);
      try done.
    - by apply Hnb.
    - assert (size (set_seq 0 n ∖ vis2 : gset nat)
              ≤ size (set_seq 0 n ∖ ({[node]} ∪ visited) : gset nat)).
      { apply subseteq_size. set_solver. }
      lia.
    - exists (steps3, vis3, res3). split; [done|]. simpl. split; [done|].
      split; [done|]. set_solver. }
  simpl in *. unfold topo_state in *. rewrite E1. cbn [mbind result_bind].
  eexists _, _, _. split; [done|]. split; [|split; [|done]].
  - apply mono_inv_push; [done|]. by intros X [= <-].
  - rewrite Forall_app, Forall_singleton. done.
Qed.

Lemma topologicalSort_mono g :
  wf_graph g →
  ∃ steps, topologicalSort g = Ok steps
    ∧ monotone_snapshots topo_visited steps ∧ Forall topo_visit_self steps.
Proof.
  intros Hwf. unfold topologicalSort.
  assert (sources_in_range g) as Hsrc.
  { unfold sources_in_range, wf_graph in *. eapply Forall_impl; [done|]. by intros ? []. }
  destruct (TopoFacts.directed_adj_spec g Hsrc) as (adj & -> & Hadj).
  cbn [mbind result_bind]. set (n := length (nodes g)) in *.
  assert (∀ k, k < n → ∃ l, adj !! k = Some l ∧ Forall (λ v, v < n) l) as Hadj'.
  { intros k Hk. destruct (Hadj k Hk) as (l & Hl & Hlv). exists l. split; [done|].
    apply Forall_forall. intros v Hv%Hlv.
    by destruct (TopoFacts.edge_in_range g Hwf k v Hv). }
  destruct (for_of_inv
    (λ st : topo_state, mono_inv topo_visited st.1.1 st.1.2
       ∧ Forall topo_visit_self st.1.1)
    (λ i (st : topo_state),
       if decide (i ∈ st.1.2) then Ok st else topo_dfsHelper (S n) adj i st)
    (seq 0 n) ([], ∅, []))
    as ([[steps vis] res] & E & Hmono & Hself).
  - split; [apply mono_inv_nil | constructor].
  - intros i [[steps2 vis2] res2] Hi%elem_of_seq [Hmono2 Hself2]. simpl in *.
    case_decide as Hin; [by eauto|].
    destruct (topo_dfsHelper_mono n adj Hadj' (S n) i steps2 vis2 res2)
      as (steps3 & vis3 & res3 & E3 & Hmono3 & Hself3 & _); try done; [lia| |].
    + assert (size (set_seq 0 n ∖ vis2 : gset nat) ≤ size (set_seq 0 n : gset nat)) as Hle.
      { apply subseteq_size. set_solver. }
      rewrite size_set_seq in Hle. lia.
    + exists (steps3, vis3, res3). done.
  - unfold topo_state in *. rewrite E. cbn [mbind result_bind]. simpl in *.
    exists steps. split; [done|]. split; [apply Hmono | done].
Qed.

End TraversalFacts.

(** ** Binary64 numbers in order *)

Module NumberFacts.
Import Pathfinding.
Local Open Scope Z_scope.

Lemma SFltb_key (a b : spec_float) :
  SFnonneg a → SFnonneg b → (SFltb a b = true ↔ key_lt (SFkey a) (SFkey b)).
Proof.
  unfold SFltb, key_lt.
  destruct a as [sa|[]| |[] ma ea], b as [sb|[]| |[] mb eb]; simpl; try done;
    intros _ _; try (split; [done|lia]); try (split; [lia|done]).
  rewrite Pos.compare_cont_spec. simpl.
  destruct (Z.compare_spec ea eb) as [->|?|?].
  - destruct (Pos.compare_spec ma mb) as [->|?|?]; split; (done || lia).
  - split; (done || lia).
  - split; (done || lia).
Qed.

Lemma nonneg_spec (x : num) : nonneg x ↔ SFnonneg (Prim2SF x).
Proof.
  unfold nonneg. rewrite leb_spec.
  change (Prim2SF 0) with (S754_zero false). unfold SFleb.
  destruct (Prim2SF x) as [s|[]| |[] m e]; simpl; split; done.
Qed.

Lemma num_lt_irrefl (x : num) : num_lt x x = false.
Proof.
  unfold num_lt. rewrite ltb_spec. unfold SFltb.
  destruct (Prim2SF x) as [s|[]| |[] m e]; simpl; try done.
  - by rewrite Z.compare_refl, Pos.compare_cont_refl.
  - by rewrite Z.compare_refl, Pos.compare_cont_refl.
Qed.

Lemma num_lt_trans (x y z : num) :
  nonneg x → nonneg y → nonneg z →
  num_lt x y = true → num_lt y z = true → num_lt x z = true.
Proof.
  unfold num_lt. rewrite !ltb_spec, !nonneg_spec. intros Hx Hy Hz.
  rewrite !SFltb_key by done. unfold key_lt. lia.
Qed.

(** [<] is a weak order on the non-negative numbers. *)
Lemma num_lt_neg_trans (x y z : num) :
  nonneg x → nonneg y → nonneg z →
  num_lt x y = false → num_lt y z = false → num_lt x z = false.
Proof.
  unfold num_lt. rewrite !ltb_spec, !nonneg_spec. intros Hx Hy Hz.
  rewrite <- !not_true_iff_false, !SFltb_key by done. unfold key_lt. lia.
Qed.

(** *** Rounding never goes below a representable lower bound *)

Lemma fexp_eq e : fexp prec emax e = Z.max (e - 53) (-1074).
Proof. reflexivity. Qed.

Lemma digits2_pos_bounds (m : positive) :
  2 ^ (Zpos (digits2_pos m) - 1) ≤ Zpos m < 2 ^ Zpos (digits2_pos m).
Proof.
  induction m as [m IH|m IH|]; simpl digits2_pos; [| |change (1 ≤ 1 < 2); lia].
  - rewrite Pos2Z.inj_succ.
    replace (Z.succ (Zpos (digits2_pos m)) - 1) with (Z.succ (Zpos (digits2_pos m) - 1)) by lia.
    rewrite !Z.pow_succ_r by lia. lia.
  - rewrite Pos2Z.inj_succ.
    replace (Z.succ (Zpos (digits2_pos m)) - 1) with (Z.succ (Zpos (digits2_pos m) - 1)) by lia.
    rewrite !Z.pow_succ_r by lia. lia.
Qed.

(** The number of digits is monotone. *)
Lemma digits2_pos_le (m m' : positive) :
  Zpos m ≤ Zpos m' → Zpos (digits2_pos m) ≤ Zpos (digits2_pos m').
Proof.
  intros Hle. pose proof (digits2_pos_bounds m) as [Hm _].
  pose proof (digits2_pos_bounds m') as [_ Hm'].
  destruct (Z_lt_le_dec (Zpos (digits2_pos m')) (Zpos (digits2_pos m))) as [Hlt|]; [|done].
  assert (2 ^ Zpos (digits2_pos m') ≤ 2 ^ (Zpos (digits2_pos m) - 1))
    by (apply Z.pow_le_mono_r; lia).
  lia.
Qed.

Lemma shr_m_shr_1 (mrs : shr_record) : 0 ≤ shr_m mrs → shr_m (shr_1 mrs) = shr_m mrs / 2.
Proof.
  destruct mrs as [m r s]. simpl. intros Hm.
  destruct m as [|[p|p|]|p]; simpl; try done; try lia.
  - apply Z.div_unique with 1; lia.
  - apply Z.div_unique with 0; lia.
Qed.

Lemma shr_m_iter (p : positive) : ∀ mrs,
  0 ≤ shr_m mrs → shr_m (iter_pos shr_1 p mrs) = shr_m mrs / 2 ^ Zpos p.
Proof.
  induction p as [p IH|p IH|]; intros mrs Hm; simpl iter_pos.
  - assert (0 ≤ shr_m (shr_1 mrs)) as H1 by (rewrite shr_m_shr_1 by done; apply Z.div_pos; lia).
    assert (0 ≤ shr_m (iter_pos shr_1 p (shr_1 mrs))) as H2
      by (rewrite IH by done; apply Z.div_pos; lia).
    rewrite IH, IH, shr_m_shr_1 by done.
    assert (0 < 2 ^ Zpos p) by (apply Z.pow_pos_nonneg; lia).
    rewrite !Z.div_div by lia. f_equal.
    replace (Zpos p~1) with (1 + Zpos p + Zpos p) by lia.
    rewrite !Z.pow_add_r, Z.pow_1_r by lia. ring.
  - assert (0 ≤ shr_m (iter_pos shr_1 p mrs)) as H2
      by (rewrite IH by done; apply Z.div_pos; lia).
    assert (0 < 2 ^ Zpos p) by (apply Z.pow_pos_nonneg; lia).
    rewrite IH, IH by done. rewrite Z.div_div by lia. f_equal.
    replace (Zpos p~0) with (Zpos p + Zpos p) by lia.
    rewrite !Z.pow_add_r by lia. ring.
  - rewrite shr_m_shr_1 by done. done.
Qed.

Lemma shr_m_of_loc m l : shr_m (shr_record_of_loc m l) = m.
Proof. by destruct l as [|[]]. Qed.

(** [shr_fexp] brings the exponent up to the one that the format
    asks for and divides the mantissa accordingly. *)
Lemma shr_fexp_spec (m e : Z) (l : location) :
  0 ≤ m →
  let e' := Z.max e (fexp prec emax (Zdigits2 m + e)) in
  (shr_fexp prec emax m e l).2 = e'
  ∧ shr_m (shr_fexp prec emax m e l).1 = m / 2 ^ (e' - e).
Proof.
  intros Hm e'. unfold shr_fexp, shr.
  destruct (fexp prec emax (Zdigits2 m + e) - e) as [|p|p] eqn:Hn; simpl.
  - replace (e' - e) with 0 by lia. rewrite shr_m_of_loc, Z.div_1_r. split; [lia|done].
  - rewrite shr_m_iter by (by rewrite shr_m_of_loc).
    rewrite shr_m_of_loc. replace (e' - e) with (Zpos p) by lia. split; [lia|done].
  - replace (e' - e) with 0 by lia. rewrite shr_m_of_loc, Z.div_1_r. split; [lia|done].
Qed.

Section Above.
Context (mx : positive) (ex : Z).
Context (Hcanon : fexp prec emax (Zpos (digits2_pos mx) + ex) = ex).

Lemma above_shr_fexp m e l :
  above mx ex m e → above mx ex (shr_m (shr_fexp prec emax m e l).1) (shr_fexp prec emax m e l).2.
Proof.
  intros (Hm & He & Hle).
  destruct (shr_fexp_spec m e l) as [-> ->]; [lia|].
  set (e' := Z.max e (fexp prec emax (Zdigits2 m + e))).
  destruct (decide (e' = e)) as [Heq|Hne].
  { rewrite Heq, Z.sub_diag, Z.div_1_r. done. }
  assert (e < e') as Hlt by lia.
  assert (e' = Zdigits2 m + e - 53) as He'.
  { unfold e' in *. rewrite fexp_eq in *. lia. }
  split; [|split; [lia|]].
  - destruct m as [|p|p]; try lia. simpl in He'.
    pose proof (digits2_pos_bounds p) as [Hp _].
    apply Z.div_str_pos. split; [apply Z.pow_pos_nonneg; lia|].
    etrans; [|exact Hp]. apply Z.pow_le_mono_r; lia.
  - intros Hex. apply Z.div_le_lower_bound; [apply Z.pow_pos_nonneg; lia|].
    specialize (Hle ltac:(lia)).
    replace (ex - e) with ((e' - e) + (ex - e')) in Hle by lia.
    rewrite Z.pow_add_r in Hle by lia. lia.
Qed.

Lemma above_round m e l : above mx ex m e → above mx ex (round_nearest_even m l) e.
Proof.
  intros (Hm & He & Hle).
  assert (m ≤ round_nearest_even m l) as Hge.
  { destruct l as [|[]]; simpl; try lia. destruct (Z.even m); lia. }
  split; [lia|]. split; [done|]. intros Hex. specialize (Hle Hex). lia.
Qed.

(** After [shr_fexp] the mantissa has at most 53 digits. *)
Lemma shr_fexp_digits m e l :
  0 < m → 0 < shr_m (shr_fexp prec emax m e l).1 →
  shr_m (shr_fexp prec emax m e l).1 < 2 ^ 53.
Proof.
  intros Hm. destruct (shr_fexp_spec m e l) as [_ ->]; [lia|].
  set (e' := Z.max e (fexp prec emax (Zdigits2 m + e))). intros Hpos.
  destruct m as [|p|p]; try lia. simpl in e'.
  pose proof (digits2_pos_bounds p) as [_ Hp].
  assert (Zpos (digits2_pos p) + e - 53 ≤ e') as He' by (unfold e'; rewrite fexp_eq; lia).
  apply Z.div_lt_upper_bound; [apply Z.pow_pos_nonneg; lia|].
  rewrite <- Z.pow_add_r by lia.
  eapply Z.lt_le_trans; [exact Hp|]. apply Z.pow_le_mono_r; lia.
Qed.

(** Rounding a value that is at least [mx * 2^ex] gives infinity or a
    finite value that is not below [(mx, ex)]. *)
Lemma binary_round_aux_above m e l :
  above mx ex m e →
  let r := binary_round_aux prec emax false m e l in
  SFnonneg r ∧ ¬ key_lt (SFkey r) (SFkey (S754_finite false mx ex)).
Proof.
  intros Habove. unfold binary_round_aux.
  pose proof (above_shr_fexp m e l Habove) as H1.
  destruct (shr_fexp prec emax m e l) as [mrs1 e1]. simpl in H1.
  pose proof (above_round _ _ (loc_of_shr_record mrs1) H1) as H2.
  pose proof (above_shr_fexp _ _ loc_Exact H2) as H3.
  pose proof (shr_fexp_digits (round_nearest_even (shr_m mrs1) (loc_of_shr_record mrs1))
                e1 loc_Exact ltac:(apply H2)) as Hdig.
  destruct (shr_fexp prec emax _ e1 loc_Exact) as [mrs2 e2]. simpl in H3, Hdig.
  destruct H3 as (Hm & He & Hle). specialize (Hdig Hm).
  destruct (shr_m mrs2) as [|m3|m3]; try lia.
  destruct (e2 <=? emax - prec); simpl; [|split; [done|unfold key_lt; simpl; lia]].
  split; [done|]. unfold key_lt. simpl.
  assert (ex ≤ e2) as Hex.
  { destruct (Z_lt_le_dec e2 ex) as [Hlt|]; [|done]. exfalso.
    specialize (Hle ltac:(lia)).
    assert (2 * Zpos mx ≤ Zpos mx * 2 ^ (ex - e2)).
    { replace (ex - e2) with (1 + (ex - e2 - 1)) by lia.
      rewrite Z.pow_add_r by lia.
      assert (0 < 2 ^ (ex - e2 - 1)) by (apply Z.pow_pos_nonneg; lia). nia. }
    rewrite fexp_eq in Hcanon. pose proof (digits2_pos_bounds mx) as [Hmx _].
    destruct (decide (ex = -1074)) as [|Hnorm]; [lia|].
    assert (Zpos (digits2_pos mx) = 53) as Hd by lia. rewrite Hd in Hmx.
    change (2 ^ (53 - 1)) with 4503599627370496 in Hmx.
    change (2 ^ 53) with 9007199254740992 in Hdig. lia. }
  destruct (decide (e2 = ex)) as [->|]; [|lia].
  specialize (Hle ltac:(lia)). rewrite Z.sub_diag, Z.pow_0_r in Hle. lia.
Qed.

End Above.

Lemma shl_align_value (m : positive) (e e' : Z) :
  e' ≤ e →
  Zpos (shl_align m e e').1 = Zpos m * 2 ^ (e - e') ∧ (shl_align m e e').2 = e'.
Proof.
  intros Hle. unfold shl_align.
  destruct (e' - e) as [|p|p] eqn:Hd; simpl; try lia.
  - replace (e - e') with 0 by lia. split; lia.
  - replace (e - e') with (Zpos p) by lia.
    split; [|lia].
    clear. induction p as [|p IH] using Pos.peano_ind.
    + simpl. rewrite Z.pow_1_r. lia.
    + rewrite Pos.iter_succ, Pos2Z.inj_succ, Z.pow_succ_r by lia. lia.
Qed.

Lemma valid_binary_canonical s m e :
  valid_binary prec emax (S754_finite s m e) = true →
  fexp prec emax (Zpos (digits2_pos m) + e) = e.
Proof.
  simpl. unfold bounded, canonical_mantissa.
  intros [H%Z.eqb_eq _]%andb_true_iff. done.
Qed.

(** Adding a positive finite value to a non-negative one gives a
    non-negative value that is not below the first. *)
Lemma SFadd_ge (x y : spec_float) :
  valid_binary prec emax x = true → valid_binary prec emax y = true → SFnonneg x → SFpositive y →
  SFnonneg (SFadd prec emax x y) ∧ ¬ key_lt (SFkey (SFadd prec emax x y)) (SFkey x).
Proof.
  intros Hvx Hvy Hx Hy.
  destruct y as [| | |[] my ey]; try done.
  destruct x as [sx|[]| |[] mx ex]; try done.
  - simpl. split; [done|]. unfold key_lt. simpl. lia.
  - simpl. split; [done|]. unfold key_lt. simpl. lia.
  - pose proof (valid_binary_canonical _ _ _ Hvx) as Hcx.
    pose proof (valid_binary_canonical _ _ _ Hvy) as Hcy.
    assert (-1074 ≤ ex ∧ -1074 ≤ ey) as [Hex Hey] by (rewrite fexp_eq in Hcx, Hcy; lia).
    unfold SFadd. cbv zeta. unfold cond_Zopp.
    set (ez := Z.min ex ey).
    destruct (shl_align_value mx ex ez ltac:(lia)) as [Hmx _].
    destruct (shl_align_value my ey ez ltac:(lia)) as [Hmy _].
    set (M := Zpos (shl_align mx ex ez).1 + Zpos (shl_align my ey ez).1) in *.
    assert (Zpos mx * 2 ^ (ex - ez) ≤ M) as HM by lia.
    assert (0 < 2 ^ (ex - ez)) by (apply Z.pow_pos_nonneg; lia).
    change (fst (shl_align mx ex ez)) with ((shl_align mx ex ez).1).
    change (fst (shl_align my ey ez)) with ((shl_align my ey ez).1).
    fold M. destruct M as [|Mp|Mp] eqn:EM; try lia.
    unfold binary_normalize, binary_round.
    set (e2 := fexp prec emax (Zpos (digits2_pos Mp) + ez)).
    assert (-1074 ≤ e2) by (unfold e2; rewrite fexp_eq; lia).
    assert (above mx ex (Zpos (shl_align Mp ez e2).1) (shl_align Mp ez e2).2) as Habove.
    { destruct (Z_le_gt_dec e2 ez) as [Hle|Hgt].
      - destruct (shl_align_value Mp ez e2 Hle) as [-> ->].
        assert (0 < 2 ^ (ez - e2)) by (apply Z.pow_pos_nonneg; lia).
        split; [lia|]. split; [done|]. intros He2.
        replace (ex - e2) with ((ex - ez) + (ez - e2)) by lia.
        rewrite Z.pow_add_r by lia. nia.
      - unfold shl_align. destruct (e2 - ez) as [|p|p] eqn:Hd; try lia. simpl.
        split; [lia|]. split; [lia|]. intros _. done. }
    destruct (shl_align Mp ez e2) as [mz ez'].
    by apply binary_round_aux_above.
Qed.

Lemma num_add_ge (x c : num) :
  nonneg x → SFpositive (Prim2SF c) →
  nonneg (num_add x c) ∧ num_lt (num_add x c) x = false.
Proof.
  intros Hx Hc. apply nonneg_spec in Hx as Hx'.
  destruct (SFadd_ge (Prim2SF x) (Prim2SF c)) as [Hnn Hge];
    [apply Prim2SF_valid..|done|done|].
  unfold num_add, num_lt. rewrite nonneg_spec, ltb_spec, add_spec.
  split; [done|]. apply not_true_iff_false. by rewrite SFltb_key.
Qed.

(** The two costs of a move, [1] and [1.4]. *)
Lemma cost_positive (c : num) :
  c = cost_straight ∨ c = cost_diagonal → SFpositive (Prim2SF c).
Proof. intros [->| ->]; vm_compute; done. Qed.

Lemma nonneg_zero : nonneg 0%float.
Proof. reflexivity. Qed.

Lemma nonneg_Infinity : nonneg Infinity.
Proof. reflexivity. Qed.

End NumberFacts.

(** ** Grids and parent chains *)

Module PathFacts.
Import Pathfinding.
Local Open Scope Z_scope.

Lemma foldl_spec {A B} (P : list A → B → Prop) (f : B → A → B) l : ∀ pre b,
  P pre b →
  (∀ pre' x post b, pre ++ l = pre' ++ x :: post → P pre' b → P (pre' ++ [x]) (f b x)) →
  P (pre ++ l) (foldl f b l).
Proof.
  induction l as [|x l IH]; intros pre b Hb Hf; simpl.
  - by rewrite app_nil_r.
  - replace (pre ++ x :: l) with ((pre ++ [x]) ++ l) by (by rewrite <- app_assoc).
    apply IH.
    + by apply (Hf pre x l).
    + intros pre' y post b' E. apply (Hf pre' y post). by rewrite <- E, <- app_assoc.
Qed.

Lemma same_pos_true p q : same_pos p q = true ↔ p = q.
Proof.
  unfold same_pos. rewrite andb_true_iff, !bool_decide_eq_true.
  destruct p, q; simpl. split; [intros [-> ->] | intros [= -> ->]]; done.
Qed.

Lemma same_pos_false p q : same_pos p q = false ↔ p ≠ q.
Proof.
  rewrite <- same_pos_true. destruct (same_pos p q); split; done.
Qed.

Lemma elem_of_all_cells rows cols r c :
  0 ≤ r < rows → 0 ≤ c < cols → (r, c) ∈ all_cells rows cols.
Proof.
  intros Hr Hc. unfold all_cells. apply list_elem_of_fmap.
  exists (r * cols + c). split.
  - f_equal.
    + apply (Z.div_unique_pos _ _ r c); lia.
    + apply (Z.mod_unique_pos _ _ r c); lia.
  - apply elem_of_seqZ. nia.
Qed.

Lemma walkable_cells grid rows cols p :
  walkable grid rows cols p = true → p ∈ cells rows cols.
Proof.
  unfold walkable. rewrite !andb_true_iff, !bool_decide_eq_true.
  intros [[[[? ?] ?] ?] _]. destruct p as [r c]. apply elem_of_list_to_set.
  by apply elem_of_all_cells.
Qed.

Lemma size_list_to_set_le (l : list pos) : (size (list_to_set l : gset pos) ≤ length l)%nat.
Proof.
  induction l as [|x l IH]; [by rewrite list_to_set_nil, size_empty|].
  rewrite list_to_set_cons, size_union_alt, size_singleton. simpl.
  assert (size (list_to_set l ∖ {[x]} : gset pos) ≤ size (list_to_set l : gset pos))%nat.
  { apply subseteq_size. set_solver. }
  lia.
Qed.

Lemma size_cells rows cols : (size (cells rows cols) ≤ Z.to_nat (rows * cols))%nat.
Proof.
  unfold cells. etrans; [apply size_list_to_set_le|].
  unfold all_cells. by rewrite length_fmap, length_seqZ.
Qed.

Lemma pending_cells_shrink (W : gset pos) (p : pos) (visited : gset pos) :
  p ∈ W → p ∉ visited →
  (size (W ∖ ({[p]} ∪ visited)) < size (W ∖ visited))%nat.
Proof. intros Hp Hnin. apply subset_size. set_solver. Qed.

Lemma unvisited_cell_shrinks (rows cols : Z) (p : pos) (visited : gset pos) :
  p ∈ cells rows cols → p ∉ visited →
  (size (cells rows cols ∖ ({[p]} ∪ visited)) < size (cells rows cols ∖ visited))%nat.
Proof. apply pending_cells_shrink. Qed.

Lemma move4b_sound grid rows cols p q :
  move4b grid rows cols p q = true → move4 grid rows cols p q.
Proof.
  unfold move4b. rewrite andb_true_iff, existsb_exists.
  intros [(d & Hd%list_elem_of_In & Hq%bool_decide_eq_true) Hw]. by exists d.
Qed.

Lemma move8b_sound grid rows cols p q :
  move8b grid rows cols p q = true → move8 grid rows cols p q.
Proof.
  unfold move8b. rewrite andb_true_iff, existsb_exists.
  intros [(d & Hd%list_elem_of_In & Hq%bool_decide_eq_true) Hw]. by exists d.2, d.
Qed.

Lemma path_check_sound (R : relation pos) mv s e l :
  (∀ p q, mv p q = true → R p q) → path_check mv s e l = true → is_path R s e l.
Proof.
  intros Hmv. unfold path_check. rewrite !andb_true_iff, !bool_decide_eq_true.
  intros [[Hhd Hla] Hch]. split; [done|]. split; [done|].
  clear Hhd Hla. induction l as [|p [|q l] IH]; intros i a b Ha Hb.
  - by rewrite lookup_nil in Ha.
  - apply lookup_lt_Some in Hb. simpl in Hb. lia.
  - simpl in Hch. apply andb_true_iff in Hch as [Hpq Hch].
    destruct i as [|i]; simplify_eq/=; [by apply Hmv|].
    by apply (IH Hch i).
Qed.

(** A start with no move out of it reaches itself only. *)
Lemma rtc_blocked (R : relation pos) (s e : pos) :
  (∀ q, ¬ R s q) → rtc R s e → e = s.
Proof. intros Hblocked Hrtc. destruct Hrtc as [|x y z Hxy _]; [done|]. by destruct (Hblocked y). Qed.

Lemma blocked4_unreachable grid rows cols (s e : pos) :
  blocked4 grid rows cols s = true → s ≠ e → ¬ rtc (move4 grid rows cols) s e.
Proof.
  unfold blocked4. rewrite forallb_forall. intros Hb Hne Hrtc.
  apply rtc_blocked in Hrtc; [done|]. intros q (d & Hd%list_elem_of_In & -> & Hw).
  apply Hb in Hd. rewrite Hw in Hd. done.
Qed.

Lemma blocked8_unreachable grid rows cols (s e : pos) :
  blocked8 grid rows cols s = true → s ≠ e → ¬ rtc (move8 grid rows cols) s e.
Proof.
  unfold blocked8. rewrite forallb_forall. intros Hb Hne Hrtc.
  apply rtc_blocked in Hrtc; [done|]. intros q (c & d & Hd%list_elem_of_In & -> & _ & Hw).
  apply Hb in Hd. rewrite Hw in Hd. done.
Qed.

Lemma dims_Ok (grid : list (list Z)) :
  grid ≠ [] → ∃ rows cols, dims grid = Ok (rows, cols).
Proof. destruct grid as [|row0 grid]; [done|]. intros _. unfold dims. simpl. eauto. Qed.

(** Following [parent] never comes back when it goes down a rank:
    taking the key just left out of the map changes nothing. *)
Section ParentChains.
Context (rank : pos → nat).

Lemma reconstruct_delete (parent : gmap pos pos) k fuel : ∀ x tail,
  (∀ v p, parent !! v = Some p → (rank p < rank v)%nat) →
  (rank x < rank k)%nat →
  reconstruct fuel (delete k parent) x tail = reconstruct fuel parent x tail.
Proof.
  induction fuel as [|fuel IH]; intros x tail Hrank Hx; [done|]. simpl.
  rewrite lookup_delete_ne by (intros ->; lia).
  destruct (parent !! x) as [p|] eqn:Hp; [|done].
  apply IH; [done|]. specialize (Hrank x p Hp). lia.
Qed.

Lemma reconstruct_total n : ∀ (parent : gmap pos pos) cur tail,
  (size parent ≤ n)%nat →
  (∀ v p, parent !! v = Some p → (rank p < rank v)%nat) →
  ∃ l, reconstruct (S n) parent cur tail = Ok l.
Proof.
  induction n as [|n IH]; intros parent cur tail Hsize Hrank; simpl.
  - assert (parent = ∅) as -> by (apply map_size_empty_iff; lia).
    rewrite lookup_empty. eauto.
  - destruct (parent !! cur) as [p|] eqn:Hp; [|eauto].
    destruct (IH (delete cur parent) p (cur :: tail)) as [l Hl].
    + rewrite map_size_delete, Hp. simpl. lia.
    + intros v q [_ Hq]%lookup_delete_Some. eauto.
    + exists l. rewrite <- Hl. symmetry. apply reconstruct_delete; eauto.
Qed.

Lemma trace_back_delete (parent : gmap pos pos) k fuel : ∀ x tail,
  (∀ v p, parent !! v = Some p → (rank p < rank v)%nat) →
  (rank x < rank k)%nat →
  trace_back fuel (delete k parent) x tail = trace_back fuel parent x tail.
Proof.
  induction fuel as [|fuel IH]; intros x tail Hrank Hx; [done|]. simpl.
  rewrite lookup_delete_ne by (intros ->; lia).
  destruct (parent !! x) as [p|] eqn:Hp; [|done].
  apply IH; [done|]. specialize (Hrank x p Hp). lia.
Qed.

Lemma trace_back_total n : ∀ (parent : gmap pos pos) cur tail,
  (size parent ≤ n)%nat →
  (∀ v p, parent !! v = Some p → (rank p < rank v)%nat) →
  ∃ l, trace_back (S n) parent cur tail = Ok l.
Proof.
  induction n as [|n IH]; intros parent cur tail Hsize Hrank; simpl.
  - assert (parent = ∅) as -> by (apply map_size_empty_iff; lia).
    rewrite lookup_empty. eauto.
  - destruct (parent !! cur) as [p|] eqn:Hp; [|eauto].
    destruct (IH (delete cur parent) p (p :: tail)) as [l Hl].
    + rewrite map_size_delete, Hp. simpl. lia.
    + intros v q [_ Hq]%lookup_delete_Some. eauto.
    + exists l. rewrite <- Hl. symmetry. apply trace_back_delete; eauto.
Qed.

End ParentChains.

End PathFacts.

(** ** Breadth-first search on the grid *)

Module BfsFacts.
Import Pathfinding PathFacts.
Local Open Scope Z_scope.

Section BfsInvariant.
Context (R : relation pos) (startPos endPos : pos).

Lemma level_insert_ne d (w v : pos) k : v ≠ w → level (<[w := k]> d) v = level d v.
Proof. intros Hne. unfold level. by rewrite lookup_insert_ne. Qed.

Lemma level_insert_eq d (w : pos) k : level (<[w := k]> d) w = k.
Proof. unfold level. by rewrite lookup_insert_eq. Qed.

(** Every cell closer to the start than the head of [pending] has been
    expanded. *)
Lemma bfs_behind d h rest visited parent :
  bfs_inv R startPos endPos d (h :: rest) visited parent →
  ∀ j x, nsteps R j startPos x → (j < level d h)%nat → x ∈ visited ∧ x ∉ h :: rest.
Proof.
  intros Hinv. induction j as [|j IH]; intros x Hx Hj.
  - inversion Hx; subst. destruct (bfs_start _ _ _ _ _ _ _ Hinv) as (Hs & H0 & _).
    split; [done|]. intros [i Hi]%list_elem_of_lookup.
    pose proof (bfs_sorted _ _ _ _ _ _ _ Hinv 0%nat i h x ltac:(lia) eq_refl Hi). lia.
  - apply nsteps_inv_r in Hx as (y & Hy & Hyx).
    destruct (IH y Hy ltac:(lia)) as [Hyv Hyp].
    assert (x ∈ visited) as Hxv by (by eapply (bfs_closed _ _ _ _ _ _ _ Hinv y x)).
    split; [done|]. intros [i Hi]%list_elem_of_lookup.
    pose proof (bfs_sorted _ _ _ _ _ _ _ Hinv 0%nat i h x ltac:(lia) eq_refl Hi).
    pose proof (bfs_least _ _ _ _ _ _ _ Hinv x (S j) Hxv
                  (nsteps_r _ _ _ _ Hy Hyx)). lia.
Qed.

Lemma bfs_inv_enqueue d h rest visited parent w :
  bfs_inv R startPos endPos d (h :: rest) visited parent →
  R h w → w ∉ visited →
  bfs_inv R startPos endPos (<[w := S (level d h)]> d) (h :: rest ++ [w])
    ({[w]} ∪ visited) (<[w := h]> parent).
Proof.
  intros Hinv Hhw Hw.
  destruct (bfs_start _ _ _ _ _ _ _ Hinv) as (Hs & H0 & Hps).
  assert (h ∈ visited) as Hh by (apply (bfs_pending _ _ _ _ _ _ _ Hinv); by left).
  assert (∀ v, v ∈ visited → level (<[w := S (level d h)]> d) v = level d v) as Hlev.
  { intros v Hv. apply level_insert_ne. by intros ->. }
  pose proof (level_insert_eq d w (S (level d h))) as Hlw.
  assert (∀ q, q ∈ h :: rest → q ∈ visited) as Hpend
    by apply (bfs_pending _ _ _ _ _ _ _ Hinv).
  split.
  - split; [set_solver|]. split; [by rewrite Hlev|].
    rewrite lookup_insert_ne; [done|]. by intros ->.
  - intros v [->%elem_of_singleton|Hv]%elem_of_union.
    + rewrite Hlw. eapply nsteps_r; [|done]. by apply (bfs_reach _ _ _ _ _ _ _ Hinv).
    + rewrite Hlev by done. by apply (bfs_reach _ _ _ _ _ _ _ Hinv).
  - intros v j [->%elem_of_singleton|Hv]%elem_of_union Hj.
    + rewrite Hlw. destruct (decide (level d h < j)%nat) as [|Hle]; [lia|]. exfalso.
      destruct j as [|j]; [inversion Hj; by subst|].
      apply nsteps_inv_r in Hj as (y & Hy & Hyw).
      destruct (bfs_behind d h rest visited parent Hinv j y Hy ltac:(lia)) as [Hyv Hyp].
      apply Hw. by eapply (bfs_closed _ _ _ _ _ _ _ Hinv y w).
    + rewrite Hlev by done. by apply (bfs_least _ _ _ _ _ _ _ Hinv).
  - intros q. rewrite app_comm_cons, elem_of_app, list_elem_of_singleton.
    intros [Hq| ->]; [|set_solver]. specialize (Hpend q Hq). set_solver.
  - intros i j x y Hij Hx Hy. rewrite app_comm_cons in Hx, Hy.
    destruct (decide (j < length (h :: rest))%nat) as [Hj|Hj].
    + rewrite lookup_app_l in Hx, Hy by lia.
      rewrite !Hlev by (apply Hpend; by eapply list_elem_of_lookup_2).
      by apply (bfs_sorted _ _ _ _ _ _ _ Hinv i j).
    + apply lookup_lt_Some in Hy as Hj'. rewrite length_app in Hj'. simpl in Hj, Hj'.
      assert (j = length (h :: rest)) as -> by (simpl; lia).
      rewrite list_lookup_middle in Hy by done. simplify_eq. rewrite Hlw.
      destruct (decide (i < length (h :: rest))%nat) as [Hi|Hi].
      * rewrite lookup_app_l in Hx by done.
        assert (x ∈ h :: rest) as Hxin by (by eapply list_elem_of_lookup_2).
        rewrite Hlev by (by apply Hpend).
        pose proof (bfs_window _ _ _ _ _ _ _ Hinv h x eq_refl Hxin). lia.
      * assert (i = length (h :: rest)) as -> by (simpl in *; lia).
        rewrite list_lookup_middle in Hx by done. simplify_eq. by rewrite Hlw.
  - intros h' y [= <-]. rewrite app_comm_cons, elem_of_app, list_elem_of_singleton.
    rewrite (Hlev h Hh). intros [Hy| ->]; [|rewrite Hlw; lia].
    rewrite Hlev by (by apply Hpend).
    by apply (bfs_window _ _ _ _ _ _ _ Hinv h y eq_refl).
  - intros u x [->%elem_of_singleton|Hu]%elem_of_union Hup Hux.
    + destruct Hup. rewrite app_comm_cons, elem_of_app, list_elem_of_singleton. by right.
    + apply elem_of_union. right. eapply (bfs_closed _ _ _ _ _ _ _ Hinv u x); try done.
      intros Hin. apply Hup. rewrite app_comm_cons, elem_of_app. by left.
  - intros u q [->%elem_of_singleton|Hu]%elem_of_union Hup.
    { destruct Hup. rewrite app_comm_cons, elem_of_app, list_elem_of_singleton. by right. }
    assert (u ∉ h :: rest) as Hup'.
    { intros Hin. apply Hup. rewrite app_comm_cons, elem_of_app. by left. }
    rewrite app_comm_cons, elem_of_app, list_elem_of_singleton. rewrite (Hlev u Hu).
    intros [Hq| ->].
    + rewrite Hlev by (by apply Hpend). by apply (bfs_done_low _ _ _ _ _ _ _ Hinv).
    + rewrite Hlw.
      pose proof (bfs_done_low _ _ _ _ _ _ _ Hinv u h Hu Hup' ltac:(by left)). lia.
  - intros v p Hvp. destruct (decide (v = w)) as [->|Hne].
    + rewrite lookup_insert_eq in Hvp. simplify_eq.
      rewrite Hlw, (Hlev p Hh). split; [set_solver|]. split; [set_solver|]. done.
    + rewrite lookup_insert_ne in Hvp by done.
      destruct (bfs_parent _ _ _ _ _ _ _ Hinv v p Hvp) as (Hp & Hv & HR & Hl).
      rewrite !Hlev by done. split; [set_solver|]. split; [set_solver|]. done.
  - intros v [->%elem_of_singleton|Hv]%elem_of_union Hvs.
    + by rewrite lookup_insert_eq.
    + rewrite lookup_insert_ne by (by intros ->).
      by apply (bfs_has_parent _ _ _ _ _ _ _ Hinv).
  - intros u [->%elem_of_singleton|Hu]%elem_of_union Hup.
    { destruct Hup. rewrite app_comm_cons, elem_of_app, list_elem_of_singleton. by right. }
    apply (bfs_end _ _ _ _ _ _ _ Hinv u Hu).
    intros Hin. apply Hup. rewrite app_comm_cons, elem_of_app. by left.
Qed.

Lemma bfs_inv_dequeue d h rest visited parent :
  bfs_inv R startPos endPos d (h :: rest) visited parent →
  (∀ w, R h w → w ∈ visited) → h ≠ endPos →
  bfs_inv R startPos endPos d rest visited parent.
Proof.
  intros Hinv Hnb Hend.
  assert (∀ u, u ∈ visited → u ∉ rest → u = h ∨ u ∉ h :: rest) as Hcase.
  { intros u Hu Hur. destruct (decide (u = h)) as [->|]; [by left|].
    right. intros [->|Hin]%elem_of_cons; done. }
  assert (h ∈ visited) as Hh by (apply (bfs_pending _ _ _ _ _ _ _ Hinv); by left).
  split.
  - apply (bfs_start _ _ _ _ _ _ _ Hinv).
  - apply (bfs_reach _ _ _ _ _ _ _ Hinv).
  - apply (bfs_least _ _ _ _ _ _ _ Hinv).
  - intros q Hq. apply (bfs_pending _ _ _ _ _ _ _ Hinv). by right.
  - intros i j x y Hij Hx Hy.
    by apply (bfs_sorted _ _ _ _ _ _ _ Hinv (S i) (S j) x y ltac:(lia)).
  - intros h' y Hh' Hy.
    assert (h' ∈ rest) as Hin by (destruct rest; simplify_eq/=; by left).
    apply list_elem_of_lookup in Hin as [i Hi].
    pose proof (bfs_sorted _ _ _ _ _ _ _ Hinv 0%nat (S i) h h' ltac:(lia) eq_refl Hi).
    pose proof (bfs_window _ _ _ _ _ _ _ Hinv h y eq_refl ltac:(by right)). lia.
  - intros u w Hu Hur Huw. destruct (Hcase u Hu Hur) as [->|Hup]; [by apply Hnb|].
    by apply (bfs_closed _ _ _ _ _ _ _ Hinv u w).
  - intros u q Hu Hur Hq. destruct (Hcase u Hu Hur) as [->|Hup].
    + apply list_elem_of_lookup in Hq as [i Hi].
      by apply (bfs_sorted _ _ _ _ _ _ _ Hinv 0%nat (S i) h q ltac:(lia)).
    + apply (bfs_done_low _ _ _ _ _ _ _ Hinv u q Hu Hup). by right.
  - apply (bfs_parent _ _ _ _ _ _ _ Hinv).
  - apply (bfs_has_parent _ _ _ _ _ _ _ Hinv).
  - intros u Hu Hur. destruct (Hcase u Hu Hur) as [->|Hup]; [done|].
    by apply (bfs_end _ _ _ _ _ _ _ Hinv u).
Qed.

Lemma is_path_singleton (p : pos) : is_path R p p [p].
Proof.
  split; [done|]. split; [done|]. intros i a b Ha Hb.
  apply lookup_lt_Some in Hb. simpl in Hb. lia.
Qed.

Lemma is_path_snoc s p v l : is_path R s p l → R p v → is_path R s v (l ++ [v]).
Proof.
  intros (Hhd & Hla & Hch) Hpv.
  assert (l ≠ []) as Hne by (intros ->; done).
  split; [by destruct l|]. split; [by rewrite last_snoc|].
  intros i a b Ha Hb.
  apply lookup_lt_Some in Hb as Hi. rewrite length_app in Hi. simpl in Hi.
  destruct (decide (S i < length l)%nat) as [Hlt|Hge].
  - rewrite lookup_app_l in Ha, Hb by lia. by apply (Hch i).
  - assert (S i = length l) as Hi' by lia.
    rewrite Hi', list_lookup_middle in Hb by done. simplify_eq.
    rewrite lookup_app_l in Ha by lia.
    rewrite last_lookup in Hla. rewrite <- Hi' in Hla. simpl in Hla.
    by simplify_eq.
Qed.

Lemma is_path_nsteps s e l : is_path R s e l → nsteps R (length l - 1) s e.
Proof.
  intros (Hhd & Hla & Hch). apply nsteps_list. exists l.
  split; [destruct l; simplify_eq/=; lia | done].
Qed.

Lemma is_path_rtc s e l : is_path R s e l → rtc R s e.
Proof. intros H%is_path_nsteps. by eapply rtc_nsteps_2. Qed.

(** What [reconstruct] returns: the cells from the start (left out) to
    the given cell, one per level. *)
Lemma bfs_reconstruct_sound d pending visited parent fuel : ∀ v tail l,
  bfs_inv R startPos endPos d pending visited parent →
  v ∈ visited → reconstruct fuel parent v tail = Ok l →
  ∃ chain, l = chain ++ tail ∧ length chain = level d v
    ∧ is_path R startPos v (startPos :: chain).
Proof.
  induction fuel as [|fuel IH]; intros v tail l Hinv Hv Hl; [done|].
  simpl in Hl. destruct (bfs_start _ _ _ _ _ _ _ Hinv) as (Hs & H0 & Hps).
  destruct (parent !! v) as [p|] eqn:Hp.
  - destruct (bfs_parent _ _ _ _ _ _ _ Hinv v p Hp) as (Hpv & _ & HR & Hlev).
    destruct (IH p (v :: tail) l Hinv Hpv Hl) as (chain & -> & Hlen & Hpath).
    exists (chain ++ [v]). split; [by rewrite <- app_assoc|].
    split; [rewrite length_app; simpl; lia|].
    rewrite app_comm_cons. by eapply is_path_snoc.
  - assert (v = startPos) as ->.
    { destruct (decide (v = startPos)) as [|Hne]; [done|].
      destruct (bfs_has_parent _ _ _ _ _ _ _ Hinv v Hv Hne) as [p Hp']. congruence. }
    simplify_eq. exists []. split; [done|]. split; [by rewrite H0|].
    apply is_path_singleton.
Qed.

(** With nothing pending the visited cells are all the cells in reach,
    and the end is not among them. *)
Lemma bfs_exhausted d visited parent :
  bfs_inv R startPos endPos d [] visited parent → ¬ rtc R startPos endPos.
Proof.
  intros Hinv Hreach.
  destruct (bfs_start _ _ _ _ _ _ _ Hinv) as (Hs & _).
  assert (∀ x y, rtc R x y → x ∈ visited → y ∈ visited) as Hclosed.
  { intros x y Hxy. induction Hxy as [|x y z Hxy _ IH]; [done|].
    intros Hx. apply IH. eapply (bfs_closed _ _ _ _ _ _ _ Hinv x y); try done.
    apply not_elem_of_nil. }
  apply (bfs_end _ _ _ _ _ _ _ Hinv endPos); [by eapply Hclosed| |done].
  apply not_elem_of_nil.
Qed.

End BfsInvariant.

Section BfsRun.
Context (grid : list (list Z)) (rows cols : Z) (startPos endPos : pos).
Local Abbreviation R := (move4 grid rows cols).
Local Abbreviation U := (cells rows cols).

(** The four neighbours of the cell being expanded. *)
Lemma bfs_expand d h rest visited parent :
  bfs_inv R startPos endPos d (h :: rest) visited parent →
  ∃ d' visited' parent' rest',
    foldl (bfs_neighbor grid rows cols h) (visited, parent, rest) directions4
    = (visited', parent', rest')
    ∧ bfs_inv R startPos endPos d' (h :: rest') visited' parent'
    ∧ (∀ w, R h w → w ∈ visited') ∧ visited ⊆ visited'
    ∧ (length rest' + size (U ∖ visited') ≤ length rest + size (U ∖ visited))%nat.
Proof.
  intros Hinv.
  pose proof (foldl_spec
    (λ pre (s : bfs_vars),
       ∃ d', bfs_inv R startPos endPos d' (h :: s.2) s.1.1 s.1.2
         ∧ (∀ dir, dir ∈ pre → walkable grid rows cols (h.1 + dir.1, h.2 + dir.2) = true →
              (h.1 + dir.1, h.2 + dir.2) ∈ s.1.1)
         ∧ visited ⊆ s.1.1
         ∧ (length s.2 + size (U ∖ s.1.1) ≤ length rest + size (U ∖ visited))%nat)
    (bfs_neighbor grid rows cols h) directions4 [] (visited, parent, rest)) as H.
  destruct (foldl (bfs_neighbor grid rows cols h) (visited, parent, rest) directions4)
    as [[visited' parent'] rest'] eqn:E.
  destruct H as (d' & Hinv' & Hdirs & Hsub & Hlen).
  - exists d. simpl. split; [done|]. split; [|done].
    intros dir Hdir. by apply elem_of_nil in Hdir.
  - clear E. intros pre dir post [[vis par] q] Epre (d1 & Hinv1 & Hdirs1 & Hsub1 & Hlen1).
    simpl in *. unfold bfs_neighbor.
    destruct (walkable grid rows cols (h.1 + dir.1, h.2 + dir.2)) eqn:Hw; simpl.
    2:{ exists d1. split; [done|]. split; [|done].
        intros dir' [Hin| ->%list_elem_of_singleton]%elem_of_app; [by apply Hdirs1|].
        by rewrite Hw. }
    case_bool_decide as Hvis; simpl.
    { exists d1. split; [done|]. split; [|done].
      intros dir' [Hin| ->%list_elem_of_singleton]%elem_of_app; [by apply Hdirs1|done]. }
    exists (<[(h.1 + dir.1, h.2 + dir.2) := S (level d1 h)]> d1). split.
    { apply bfs_inv_enqueue; [done| |done]. exists dir. split; [|done].
      rewrite Epre. apply elem_of_app. right. by left. }
    split.
    { intros dir' [Hin| ->%list_elem_of_singleton]%elem_of_app Hw'; [|set_solver].
      specialize (Hdirs1 dir' Hin Hw'). set_solver. }
    split; [set_solver|].
    pose proof (unvisited_cell_shrinks rows cols _ vis (walkable_cells _ _ _ _ Hw) Hvis).
    rewrite length_app. simpl. lia.
  - exists d', visited', parent', rest'. simpl in *.
    split; [done|]. split; [done|]. split; [|done].
    intros w (dir & Hdir & -> & Hw). by apply Hdirs.
Qed.

Lemma bfs_loop_spec fuel : ∀ steps d visited parent queue,
  bfs_inv R startPos endPos d queue visited parent →
  mono_inv step_visited steps visited →
  Forall explore_self steps → Forall is_explore steps →
  (length queue + size (U ∖ visited) < fuel)%nat →
  ∃ steps', bfs_loop fuel grid rows cols startPos endPos steps (visited, parent, queue)
            = Ok steps'
    ∧ bfs_post R startPos endPos steps'.
Proof.
  induction fuel as [|fuel IH]; intros steps d visited parent queue Hinv Hmono Hself Hexp Hfuel;
    [lia|].
  cbn [bfs_loop]. destruct queue as [|cur queue].
  { exists steps. split; [done|]. split; [apply Hmono|]. split; [done|]. left.
    split; [done|]. by eapply bfs_exhausted. }
  assert (cur ∈ visited) as Hcur by (apply (bfs_pending _ _ _ _ _ _ _ Hinv); by left).
  assert (mono_inv step_visited (steps ++ [explore cur visited]) visited) as Hmono'.
  { apply mono_inv_push; [done|]. by intros X [= <-]. }
  assert (Forall explore_self (steps ++ [explore cur visited])) as Hself'.
  { rewrite Forall_app, Forall_singleton. done. }
  destruct (same_pos cur endPos) eqn:Hsame.
  - apply same_pos_true in Hsame as ->.
    destruct (reconstruct_total (level d) (size parent) parent endPos []) as [l Hl]; [done| |].
    { intros v p Hvp. destruct (bfs_parent _ _ _ _ _ _ _ Hinv v p Hvp) as (_ & _ & _ & ->). lia. }
    rewrite Hl. cbn [mbind result_bind].
    destruct (bfs_reconstruct_sound R startPos endPos d _ visited parent _ endPos [] l
                Hinv Hcur Hl) as (chain & -> & Hlen & Hpath).
    rewrite app_nil_r. eexists. split; [done|]. split; [|split].
    + eapply proj1, (mono_inv_push_none step_visited _ visited); done.
    + rewrite Forall_app, Forall_singleton. done.
    + right. exists steps, visited, (startPos :: chain).
      split; [by rewrite <- app_assoc|]. split; [done|]. split; [done|].
      intros l' Hl'. apply is_path_nsteps in Hl' as Hn.
      pose proof (bfs_least _ _ _ _ _ _ _ Hinv endPos _ Hcur Hn).
      destruct Hl' as (Hhd & _). destruct l'; [done|]. simpl in *. lia.
  - apply same_pos_false in Hsame.
    destruct (bfs_expand d cur queue visited parent Hinv)
      as (d' & visited' & parent' & queue' & -> & Hinv' & Hnb & Hsub & Hlen).
    apply (IH _ d').
    + by apply (bfs_inv_dequeue _ _ _ d' cur).
    + by eapply mono_inv_grow.
    + done.
    + rewrite Forall_app, Forall_singleton. done.
    + simpl in Hfuel. lia.
Qed.

Lemma dims_spec rows' cols' :
  dims grid = Ok (rows', cols') → rows' = Z.of_nat (length grid) ∧ 0 ≤ cols'.
Proof.
  unfold dims. destruct (aget grid 0) as [row0|]; [|done]. simpl.
  intros [= <- <-]. lia.
Qed.

(** A run of [bfs]. *)
Lemma bfs_spec :
  dims grid = Ok (rows, cols) →
  ∃ steps, bfs grid startPos endPos = Ok steps ∧ bfs_post R startPos endPos steps.
Proof.
  intros Hdims. unfold bfs. rewrite Hdims. cbn [mbind result_bind].
  apply (bfs_loop_spec _ [] (<[startPos := 0%nat]> ∅)).
  - split.
    + split; [set_solver|]. split; [apply level_insert_eq | done].
    + intros v ->%elem_of_singleton. rewrite level_insert_eq. constructor.
    + intros v j ->%elem_of_singleton _. rewrite level_insert_eq. lia.
    + intros q ->%list_elem_of_singleton. set_solver.
    + intros i j x y _ Hx Hy.
      apply list_elem_of_lookup_2, list_elem_of_singleton in Hx as ->.
      apply list_elem_of_lookup_2, list_elem_of_singleton in Hy as ->. done.
    + intros h y [= <-] ->%list_elem_of_singleton. lia.
    + intros u w ->%elem_of_singleton Hu. destruct Hu. by left.
    + intros u q ->%elem_of_singleton Hu. destruct Hu. by left.
    + intros v p Hvp. by rewrite lookup_empty in Hvp.
    + intros v ->%elem_of_singleton Hv. done.
    + intros u ->%elem_of_singleton Hu. destruct Hu. by left.
  - apply mono_inv_nil.
  - constructor.
  - constructor.
  - pose proof (size_cells rows cols).
    assert (size (U ∖ {[startPos]}) ≤ size U)%nat by (apply subseteq_size; set_solver).
    simpl. lia.
Qed.

End BfsRun.
End BfsFacts.

(** ** A* on the grid *)

Module AStarFacts.
Import Pathfinding PathFacts.
Local Open Scope Z_scope.

Lemma directions8_cost d : d ∈ directions8 → d.2 = cost_straight ∨ d.2 = cost_diagonal.
Proof.
  unfold directions8. rewrite !elem_of_cons, elem_of_nil.
  intros H. repeat (destruct H as [->|H]; [simpl; auto|]). done.
Qed.

Lemma aStar_select_spec fScore first rest :
  let r := aStar_select fScore (first :: rest) first in
  0 ≤ r.1.2 ∧ (first :: rest) !! Z.to_nat r.1.2 = Some r.1.1.
Proof.
  intros r. subst r. unfold aStar_select.
  apply (for_loop_ind (λ _ (s : pos * Z * option num),
           0 ≤ s.1.2 ∧ (first :: rest) !! Z.to_nat s.1.2 = Some s.1.1)).
  - done.
  - intros i [[cur idx] f] Hi [Hidx Hcur]. simpl in *. unfold aStar_select_at.
    destruct (aget (first :: rest) i) as [p|] eqn:Hp; [|done].
    destruct (js_num_lt _ _); [|done]. simpl. split; [lia|].
    unfold aget in Hp. by rewrite decide_True in Hp by lia.
Qed.

Section AStarRun.
Context (grid : list (list Z)) (rows cols : Z) (startPos endPos : pos).
Local Abbreviation R := (move8 grid rows cols).
Local Abbreviation U := (cells rows cols).

(** The eight neighbours of the cell just taken from the open set.  A
    neighbour that gets a parent is not visited, so it can be ranked
    after the current cell. *)
Lemma aStar_expand rank visited cur gScore fScore parent openSet :
  aStar_inv R U startPos rank visited parent openSet →
  cur ∈ visited → rtc R startPos cur →
  ∃ gScore' fScore' parent' openSet' rank',
    foldl (aStar_neighbor grid rows cols endPos visited cur)
      (gScore, fScore, parent, openSet) directions8
    = (gScore', fScore', parent', openSet')
    ∧ aStar_inv R U startPos rank' visited parent' openSet'.
Proof.
  intros Hinv Hcur Hreach.
  pose proof (foldl_spec
    (λ _ (s : aStar_vars), ∃ rank', aStar_inv R U startPos rank' visited s.1.2 s.2)
    (aStar_neighbor grid rows cols endPos visited cur) directions8 []
    (gScore, fScore, parent, openSet)) as H.
  destruct (foldl _ _ directions8) as [[[gScore' fScore'] parent'] openSet'].
  destruct H as [rank' Hinv']; [by exists rank| |by eauto 10].
  intros pre [[dRow dCol] cost] post [[[g f] par] open] Epre [rank1 Hinv1]. simpl in *.
  assert ((dRow, dCol, cost) ∈ directions8) as Hdir.
  { rewrite Epre. apply elem_of_app. right. by left. }
  unfold aStar_neighbor.
  destruct (walkable grid rows cols (cur.1 + dRow, cur.2 + dCol)) eqn:Hw; [|by exists rank1].
  case_bool_decide as Hvis; [by exists rank1|]. cbn [negb andb].
  set (nb := (cur.1 + dRow, cur.2 + dCol)) in *.
  destruct (g !! cur) as [gcur|]; [|by exists rank1].
  destruct (g !! nb) as [gnb|]; [|by exists rank1]. cbv zeta.
  destruct (num_lt (num_add gcur cost) gnb); [|by exists rank1].
  assert (nb ≠ cur) as Hne by (intros E; rewrite E in Hvis; done).
  simpl.
  assert (R cur nb) as Hmove.
  { exists cost, (dRow, dCol, cost). done. }
  destruct Hinv1 as [Hnd Hfresh Hcells Hpar Hrch Hvc].
  exists (λ v, if decide (v = nb) then S (rank1 cur) else rank1 v).
  split.
  - case_bool_decide as Hex; [done|].
    apply NoDup_app. split; [done|]. split; [|apply NoDup_singleton].
    intros x Hx ->%list_elem_of_singleton. apply Hex, Exists_exists.
    exists nb. split; [done|]. by apply same_pos_true.
  - intros v Hv. case_bool_decide; [by apply Hfresh|].
    apply elem_of_app in Hv as [Hv| ->%list_elem_of_singleton]; [by apply Hfresh|done].
  - intros v Hv. case_bool_decide; [by apply Hcells|].
    apply elem_of_app in Hv as [Hv| ->%list_elem_of_singleton]; [by apply Hcells|].
    left. by eapply walkable_cells.
  - intros v p Hvp. destruct (decide (v = nb)) as [->|Hvn].
    + rewrite lookup_insert_eq in Hvp. simplify_eq. split; [done|].
      rewrite decide_False by done. lia.
    + rewrite lookup_insert_ne in Hvp by done.
      destruct (Hpar v p Hvp) as [Hp Hrank]. split; [done|].
      rewrite decide_False by (intros ->; done). done.
  - intros v Hv. case_bool_decide; [by apply Hrch|].
    apply elem_of_app in Hv as [Hv| ->%list_elem_of_singleton]; [by apply Hrch|].
    by eapply rtc_r.
  - done.
Qed.

Lemma delete_taken (l : list pos) i x :
  NoDup l → l !! i = Some x → x ∉ delete i l.
Proof.
  intros Hnd Hi [j Hj]%list_elem_of_lookup.
  destruct (decide (j < i)%nat).
  - rewrite list_lookup_delete_lt in Hj by done.
    pose proof (NoDup_lookup l i j x Hnd Hi Hj). lia.
  - rewrite list_lookup_delete_ge in Hj by lia.
    pose proof (NoDup_lookup l i (S j) x Hnd Hi Hj). lia.
Qed.

Lemma aStar_inv_take rank visited parent openSet i cur :
  aStar_inv R U startPos rank visited parent openSet →
  openSet !! i = Some cur →
  aStar_inv R U startPos rank ({[cur]} ∪ visited) parent (delete i openSet).
Proof.
  intros [Hnd Hfresh Hcells Hpar Hrch Hvc] Hi.
  assert (∀ v, v ∈ delete i openSet → v ∈ openSet) as Hin
    by (intros v; apply list_elem_of_delete_inv).
  split.
  - apply (sublist_NoDup _ openSet); [done | apply sublist_delete].
  - intros v Hv [->%elem_of_singleton|Hvis]%elem_of_union.
    + by apply (delete_taken openSet i cur).
    + by apply (Hfresh v (Hin v Hv)).
  - intros v Hv. by apply Hcells, Hin.
  - intros v p Hvp. destruct (Hpar v p Hvp) as [Hp Hxy]. split; [set_solver|done].
  - intros v Hv. by apply Hrch, Hin.
  - intros v [->%elem_of_singleton|Hvis]%elem_of_union; [|by apply Hvc].
    apply Hcells. by eapply list_elem_of_lookup_2.
Qed.

Lemma aStar_loop_spec fuel : ∀ steps rank visited gScore fScore parent openSet,
  aStar_inv R U startPos rank visited parent openSet →
  mono_inv step_visited steps visited →
  Forall explore_self steps → Forall (not_explored endPos) steps →
  Forall is_explore steps →
  (size ((U ∪ {[startPos]}) ∖ visited) < fuel)%nat →
  ∃ steps', aStar_loop fuel grid rows cols endPos steps visited
              (gScore, fScore, parent, openSet) = Ok steps'
    ∧ aStar_post R startPos endPos steps'.
Proof.
  induction fuel as [|fuel IH];
    intros steps rank visited gScore fScore parent openSet Hinv Hmono Hself Hnot Hexp Hfuel;
    [lia|].
  cbn [aStar_loop]. destruct openSet as [|first rest].
  { exists steps. split; [done|]. split; [apply Hmono|]. split; [done|]. split; [done|].
    by left. }
  pose proof (aStar_select_spec fScore first rest) as Hsel.
  destruct (aStar_select fScore (first :: rest) first) as [[cur idx] f].
  simpl in Hsel. destruct Hsel as [Hidx Hcur].
  assert (cur ∈ first :: rest) as Hin by (by eapply list_elem_of_lookup_2).
  destruct (same_pos cur endPos) eqn:Hsame.
  - apply same_pos_true in Hsame as ->.
    destruct (trace_back_total rank (size parent) parent endPos [endPos])
      as [l Hl]; [done| |].
    { intros v p Hvp. by destruct (as_parent _ _ _ _ _ _ _ Hinv v p Hvp). }
    rewrite Hl. cbn [mbind result_bind]. eexists. split; [done|].
    split; [eapply proj1, (mono_inv_push_none step_visited _ visited); done|].
    split; [rewrite Forall_app, Forall_singleton; done|].
    split; [rewrite Forall_app, Forall_singleton; done|].
    right. exists steps, l. split; [done|]. split; [done|].
    by apply (as_reach _ _ _ _ _ _ _ Hinv).
  - apply same_pos_false in Hsame.
    pose proof (aStar_inv_take _ _ _ _ _ _ Hinv Hcur) as Hinv'.
    destruct (aStar_expand rank ({[cur]} ∪ visited) cur gScore fScore parent
                (delete (Z.to_nat idx) (first :: rest)))
      as (gScore' & fScore' & parent' & openSet' & rank' & -> & Hinv''); try done.
    { set_solver. }
    { by apply (as_reach _ _ _ _ _ _ _ Hinv). }
    apply (IH _ rank'); try done.
    + apply mono_inv_push; [|by intros X [= <-]].
      eapply mono_inv_grow; [done|]. set_solver.
    + rewrite Forall_app, Forall_singleton. split; [done|]. simpl. set_solver.
    + rewrite Forall_app, Forall_singleton. done.
    + rewrite Forall_app, Forall_singleton. done.
    + pose proof (pending_cells_shrink (U ∪ {[startPos]}) cur visited) as Hlt.
      pose proof (as_fresh _ _ _ _ _ _ _ Hinv cur Hin) as Hfr.
      destruct (as_cells _ _ _ _ _ _ _ Hinv cur Hin) as [Hc| ->].
      * specialize (Hlt ltac:(apply elem_of_union; by left) Hfr). lia.
      * specialize (Hlt ltac:(apply elem_of_union; right; by apply elem_of_singleton) Hfr).
        lia.
Qed.

Lemma lookup_init_scores (m : gmap pos num) (p : pos) :
  init_scores rows cols m !! p
  = if decide ((0 ≤ p.1 < rows) ∧ (0 ≤ p.2 < cols)) then Some Infinity else m !! p.
Proof.
  unfold init_scores.
  assert (∀ i (m' : gmap pos num),
            for_loop 0 cols (λ j m, <[(i, j) := Infinity]> m) m' !! p
            = if decide (p.1 = i ∧ 0 ≤ p.2 < cols) then Some Infinity else m' !! p) as Hrow.
  { intros i m'.
    assert (for_loop 0 cols (λ j m, <[(i, j) := Infinity]> m) m' !! p
            = if decide (p.1 = i ∧ 0 ≤ p.2 < Z.max 0 cols) then Some Infinity else m' !! p) as H.
    { refine (for_loop_ind (λ k (m1 : gmap pos num),
               m1 !! p = if decide (p.1 = i ∧ 0 ≤ p.2 < k) then Some Infinity else m' !! p)
               0 cols _ m' _ _).
      - by rewrite decide_False by lia.
      - intros j m1 Hj IH. destruct (decide (p = (i, j))) as [->|Hne].
        + rewrite lookup_insert_eq. simpl. by rewrite decide_True by lia.
        + rewrite lookup_insert_ne by done. rewrite IH.
          destruct p as [r c]. simpl in *.
          repeat case_decide; try done; try lia.
          destruct Hne. f_equal; lia. }
    rewrite H. repeat case_decide; try done; lia. }
  assert (for_loop 0 rows
            (λ i m, for_loop 0 cols (λ j m, <[(i, j) := Infinity]> m) m) m !! p
          = if decide (0 ≤ p.1 < Z.max 0 rows ∧ 0 ≤ p.2 < cols)
            then Some Infinity else m !! p) as H.
  { refine (for_loop_ind (λ k (m1 : gmap pos num),
             m1 !! p = if decide (0 ≤ p.1 < k ∧ 0 ≤ p.2 < cols)
                       then Some Infinity else m !! p) 0 rows _ m _ _).
    - by rewrite decide_False by lia.
    - intros i m1 Hi IH. rewrite Hrow, IH. repeat case_decide; try done; lia. }
  rewrite H. repeat case_decide; try done; lia.
Qed.

(** A run of [aStar]. *)
Lemma aStar_spec :
  dims grid = Ok (rows, cols) →
  ∃ steps, aStar grid startPos endPos = Ok steps ∧ aStar_post R startPos endPos steps.
Proof.
  intros Hdims. unfold aStar. rewrite Hdims. cbn [mbind result_bind].
  apply (aStar_loop_spec _ _ (λ _, 0%nat)).
  - split.
    + apply NoDup_singleton.
    + intros v _. apply not_elem_of_empty.
    + intros v ->%list_elem_of_singleton. by right.
    + intros v p Hvp. by rewrite lookup_empty in Hvp.
    + intros v ->%list_elem_of_singleton. done.
    + intros v Hv. by apply not_elem_of_empty in Hv.
  - apply mono_inv_nil.
  - constructor.
  - constructor.
  - constructor.
  - pose proof (size_cells rows cols).
    assert (size ((U ∪ {[startPos]}) ∖ ∅) ≤ size U + 1)%nat.
    { assert (size ({[startPos]} ∖ U) ≤ size ({[startPos]} : gset pos))%nat as Hle
        by (apply subseteq_size; set_solver).
      rewrite size_singleton in Hle.
      etrans; [apply (subseteq_size _ (U ∪ {[startPos]})); set_solver|].
      rewrite (size_union_alt U). lia. }
    lia.
Qed.

End AStarRun.
End AStarFacts.

(** ** Dijkstra on the grid *)

Module DijkstraFacts.
Import Pathfinding NumberFacts PathFacts AStarFacts.
Local Open Scope Z_scope.

Section DijkstraScan.
Context (rows cols : Z) (visited : gset pos) (distances : gmap pos num).
Context (Hnn : ∀ v x, distances !! v = Some x → nonneg x).

(** The state of the scan after the cells before [(i, j)] in row-major
    order: the candidate is one of them, and none of them that is not
    visited is closer. *)
Lemma dijkstra_scan_spec :
  let r := dijkstra_scan rows cols visited distances in
  nonneg r.2
  ∧ (∀ c, r.1 = Some c →
       in_rect rows cols c ∧ (c ∉ visited) ∧ (distances !! c = Some r.2))
  ∧ ∀ w y, in_rect rows cols w → w ∉ visited → distances !! w = Some y →
      num_lt y r.2 = false.
Proof.
  intros r. subst r. unfold dijkstra_scan.
  set (Q := λ (i j : Z) (s : option pos * num),
    nonneg s.2
    ∧ (∀ c, s.1 = Some c →
         in_rect rows cols c ∧ (c ∉ visited) ∧ (distances !! c = Some s.2))
    ∧ ∀ w y, (((0 ≤ w.1 < i) ∧ (0 ≤ w.2 < cols)) ∨ ((w.1 = i) ∧ (0 ≤ w.2 < j))) →
        w ∉ visited → distances !! w = Some y → num_lt y s.2 = false).
  assert (∀ i s, 0 ≤ i < rows → Q i 0 s →
            Q (i + 1) 0 (for_loop 0 cols (dijkstra_scan_cell visited distances i) s)) as Hrow.
  { intros i s Hi Hs.
    assert (Q i (Z.max 0 cols) (for_loop 0 cols (dijkstra_scan_cell visited distances i) s))
      as (H0 & H1 & H2).
    { apply (for_loop_ind (Q i)); [done|].
      clear s Hs. intros j [cur md] Hj (Hmd & Hc & Hmin). simpl in *.
      unfold dijkstra_scan_cell.
      destruct (distances !! (i, j)) as [d|] eqn:Hd.
      2:{ split; [done|]. split; [done|].
          intros w y [Hw|[Hw1 Hw2]] Hwv Hwy; [by apply (Hmin w); auto|].
          destruct (decide (w.2 = j)) as [Hwj|]; [|apply (Hmin w); auto; right; lia].
          destruct w as [w1 w2]. simpl in *. subst. congruence. }
      destruct (negb (bool_decide ((i, j) ∈ visited)) && num_lt d md) eqn:Hcond.
      - apply andb_true_iff in Hcond as [Hnv%negb_true_iff%bool_decide_eq_false Hlt].
        split; [by eapply Hnn|]. split.
        + intros c [= <-]. simpl. split; [split; simpl; lia|done].
        + simpl. intros w y Hw Hwv Hwy.
          destruct (decide (w = (i, j))) as [->|Hne].
          * rewrite Hd in Hwy. simplify_eq. apply num_lt_irrefl.
          * assert (num_lt y md = false) as Hy.
            { apply (Hmin w); [|done|done]. destruct Hw as [Hw|[Hw1 Hw2]]; [by left|].
              right. split; [done|]. destruct (decide (w.2 = j)); [|lia].
              destruct Hne. destruct w; simpl in *; by subst. }
            destruct (num_lt y d) eqn:Hyd; [|done].
            rewrite (num_lt_trans y d md) in Hy; [done| | | |done|done]; eauto.
      - split; [done|]. split; [done|]. intros w y Hw Hwv Hwy.
        destruct (decide (w = (i, j))) as [->|Hne].
        + rewrite Hd in Hwy. simplify_eq.
          apply andb_false_iff in Hcond as [Hc'|Hc']; [|done].
          apply negb_false_iff, bool_decide_eq_true in Hc'. done.
        + apply (Hmin w); [|done|done]. destruct Hw as [Hw|[Hw1 Hw2]]; [by left|].
          right. split; [done|]. destruct (decide (w.2 = j)); [|lia].
          destruct Hne. destruct w; simpl in *; by subst. }
    split; [done|]. split; [done|]. intros w y Hw. apply H2. destruct Hw as [Hw|Hw]; [|lia].
    destruct (decide (w.1 = i)); [right; lia | left; lia]. }
  assert (Q (Z.max 0 rows) 0
            (for_loop 0 rows
               (λ i s, for_loop 0 cols (dijkstra_scan_cell visited distances i) s)
               (None, Infinity))) as (H0 & H1 & H2).
  { apply (for_loop_ind (λ i s, Q i 0 s)).
    - split; [apply nonneg_Infinity|]. split; [done|]. intros w y Hw. lia.
    - intros i s Hi Hs. by apply Hrow. }
  split; [done|]. split; [done|]. intros w y [Hw1 Hw2]. apply H2. left. lia.
Qed.

End DijkstraScan.

Lemma directions8_moves d (p : pos) : d ∈ directions8 → (p.1 + d.1.1, p.2 + d.1.2) ≠ p.
Proof.
  unfold directions8. rewrite !elem_of_cons, elem_of_nil.
  intros H E. destruct p as [r c]. simpl in E.
  repeat (destruct H as [->|H]; [simpl in E; simplify_eq; lia|]). done.
Qed.

Lemma walkable_in_rect grid rows cols p :
  walkable grid rows cols p = true → in_rect rows cols p.
Proof.
  unfold walkable, in_rect. rewrite !andb_true_iff, !bool_decide_eq_true.
  intros [[[[? ?] ?] ?] _]. lia.
Qed.

Section DijkstraRun.
Context (grid : list (list Z)) (rows cols : Z) (startPos endPos : pos).
Local Abbreviation R := (move8 grid rows cols).
Local Abbreviation U := (cells rows cols).

(** The relaxation of the eight neighbours of the cell just visited.
    No visited cell is farther than it, and adding a cost does not
    bring a number down, so no visited cell is relaxed: a cell that
    gets a parent can be ranked after the current cell. *)
Lemma dijkstra_expand rank visited cur x distances parent :
  dijkstra_inv R rows cols startPos rank visited distances parent →
  cur ∈ visited → distances !! cur = Some x → rtc R startPos cur →
  (∀ u z, u ∈ visited → distances !! u = Some z → num_lt x z = false) →
  ∃ distances' parent' rank',
    foldl (dijkstra_relax grid rows cols cur) (distances, parent) directions8
    = (distances', parent')
    ∧ dijkstra_inv R rows cols startPos rank' visited distances' parent'.
Proof.
  intros Hinv Hcur Hx Hreachcur Hfar.
  pose proof (foldl_spec
    (λ _ (s : gmap pos num * gmap pos pos),
       (∃ rank', dijkstra_inv R rows cols startPos rank' visited s.1 s.2)
       ∧ s.1 !! cur = Some x
       ∧ ∀ u z, u ∈ visited → s.1 !! u = Some z → num_lt x z = false)
    (dijkstra_relax grid rows cols cur) directions8 [] (distances, parent)) as H.
  destruct (foldl _ _ directions8) as [distances' parent'].
  destruct H as [[rank' Hinv'] _]; [by eauto| |by eauto].
  intros pre [[dRow dCol] cost] post [dist par] Epre ([rank1 Hinv1] & Hx1 & Hfar1). simpl in *.
  assert ((dRow, dCol, cost) ∈ directions8) as Hdir.
  { rewrite Epre. apply elem_of_app. right. by left. }
  pose proof (cost_positive cost (directions8_cost _ Hdir)) as Hcost.
  pose proof (directions8_moves _ cur Hdir) as Hne. simpl in Hne.
  unfold dijkstra_relax.
  destruct (walkable grid rows cols (cur.1 + dRow, cur.2 + dCol)) eqn:Hw; [|by eauto].
  rewrite Hx1. set (key := (cur.1 + dRow, cur.2 + dCol)) in *.
  destruct (dist !! key) as [dk|] eqn:Hdk; [|by eauto]. cbv zeta.
  destruct (num_lt (num_add x cost) dk) eqn:Hlt; [|by eauto]. simpl in *.
  destruct Hinv1 as [Hnn Hreach Hset Hpar].
  assert (nonneg x) as Hx0 by (by eapply Hnn).
  destruct (num_add_ge x cost Hx0 Hcost) as [Hnew0 Hnewge].
  assert (∀ u z, u ∈ visited → dist !! u = Some z → num_lt (num_add x cost) z = false)
    as Hnewfar.
  { intros u z Hu Hz. apply (num_lt_neg_trans _ x); eauto. }
  assert (key ∉ visited) as Hkv.
  { intros Hin. rewrite (Hnewfar key dk Hin Hdk) in Hlt. done. }
  assert (R cur key) as Hmove by (exists cost, (dRow, dCol, cost); done).
  split; [|split].
  - exists (λ v, if decide (v = key) then S (rank1 cur) else rank1 v). split.
    + intros v y. destruct (decide (v = key)) as [->|Hvk].
      * rewrite lookup_insert_eq. by intros [= <-].
      * rewrite lookup_insert_ne by done. apply Hnn.
    + intros v y. destruct (decide (v = key)) as [->|Hvk].
      * intros _ _. by eapply rtc_r.
      * rewrite lookup_insert_ne by done. apply Hreach.
    + intros u w a b Hu Hwr Hwv. rewrite (lookup_insert_ne _ key u) by (by intros <-).
      intros Ha. destruct (decide (w = key)) as [->|Hwk].
      * rewrite lookup_insert_eq. intros [= <-]. by eapply Hnewfar.
      * rewrite lookup_insert_ne by done. by apply (Hset u w a b).
    + intros v p Hvp. destruct (decide (v = key)) as [->|Hvk].
      * rewrite lookup_insert_eq in Hvp. simplify_eq. split; [done|].
        rewrite decide_False by done. lia.
      * rewrite lookup_insert_ne in Hvp by done.
        destruct (Hpar v p Hvp) as [Hp Hrank]. split; [done|].
        rewrite decide_False by (intros ->; done). done.
  - by rewrite lookup_insert_ne.
  - intros u z Hu. rewrite lookup_insert_ne by (by intros <-). by apply Hfar1.
Qed.

Lemma dijkstra_loop_spec fuel : ∀ steps rank visited distances parent,
  dijkstra_inv R rows cols startPos rank visited distances parent →
  mono_inv step_visited steps visited →
  Forall explore_self steps → Forall is_explore steps →
  (size (U ∖ visited) < fuel)%nat →
  ∃ steps', dijkstra_loop fuel grid rows cols startPos endPos steps
              (visited, distances, parent) = Ok steps'
    ∧ dijkstra_post R startPos endPos steps'.
Proof.
  induction fuel as [|fuel IH];
    intros steps rank visited distances parent Hinv Hmono Hself Hexp Hfuel; [lia|].
  assert (dijkstra_post R startPos endPos steps) as Hstop.
  { split; [apply Hmono|]. split; [done|]. by left. }
  cbn [dijkstra_loop]. case_bool_decide as Hsize; [|by eauto].
  destruct (dijkstra_scan_spec rows cols visited distances
              (dj_nonneg _ _ _ _ _ _ _ _ Hinv)) as (Hmd & Hcand & Hmin).
  destruct (dijkstra_scan rows cols visited distances) as [[cur|] x]; [|by eauto].
  cbn [fst snd] in *.
  destruct (num_eq x Infinity) eqn:Hfinite; [by eauto|].
  destruct (Hcand cur eq_refl) as (Hrect & Hfresh & Hx).
  assert (rtc R startPos cur) as Hreachcur
    by (by eapply (dj_reach _ _ _ _ _ _ _ _ Hinv)).
  assert (cur ∈ U) as HcurU.
  { destruct cur as [r c]. destruct Hrect. apply elem_of_list_to_set.
    by apply elem_of_all_cells. }
  assert (mono_inv step_visited (steps ++ [explore cur ({[cur]} ∪ visited)])
            ({[cur]} ∪ visited)) as Hmono'.
  { apply mono_inv_push; [|by intros X [= <-]].
    eapply mono_inv_grow; [done|]. set_solver. }
  assert (Forall explore_self (steps ++ [explore cur ({[cur]} ∪ visited)])) as Hself'.
  { rewrite Forall_app, Forall_singleton. split; [done|]. simpl. set_solver. }
  destruct (same_pos cur endPos) eqn:Hsame.
  - apply same_pos_true in Hsame as ->.
    destruct (reconstruct_total rank (size parent) parent endPos [])
      as [l Hl]; [done| |].
    { intros v p Hvp. by destruct (dj_parent _ _ _ _ _ _ _ _ Hinv v p Hvp). }
    rewrite Hl. cbn [mbind result_bind]. eexists. split; [done|].
    split; [eapply proj1, (mono_inv_push_none step_visited _ ({[endPos]} ∪ visited)); done|].
    split; [rewrite Forall_app, Forall_singleton; done|].
    right. exists steps, ({[endPos]} ∪ visited), (startPos :: l).
    split; [by rewrite <- app_assoc|]. split; [done|]. done.
  - destruct Hinv as [Hnn Hreach Hset Hpar].
    assert (∀ u z, u ∈ {[cur]} ∪ visited → distances !! u = Some z →
              num_lt x z = false) as Hfar.
    { intros u z [->%elem_of_singleton|Hu]%elem_of_union Hz.
      - rewrite Hx in Hz. simplify_eq. apply num_lt_irrefl.
      - by apply (Hset u cur z x). }
    destruct (dijkstra_expand rank ({[cur]} ∪ visited) cur x distances parent)
      as (distances' & parent' & rank' & -> & Hinv'); try done.
    { split; try done.
      - intros u w a b [->%elem_of_singleton|Hu]%elem_of_union Hw Hwv Ha Hb.
        + rewrite Hx in Ha. simplify_eq. apply (Hmin w b); [done| |done]. set_solver.
        + apply (Hset u w a b); try done. set_solver.
      - intros v p Hvp. destruct (Hpar v p Hvp) as [Hp Hxy]. split; [set_solver|done]. }
    { set_solver. }
    apply (IH _ rank'); try done.
    + rewrite Forall_app, Forall_singleton. done.
    + pose proof (unvisited_cell_shrinks rows cols cur visited HcurU Hfresh). lia.
Qed.

(** A run of [dijkstra]. *)
Lemma dijkstra_spec :
  dims grid = Ok (rows, cols) →
  ∃ steps, dijkstra grid startPos endPos = Ok steps
    ∧ dijkstra_post R startPos endPos steps.
Proof.
  intros Hdims. unfold dijkstra. rewrite Hdims. cbn [mbind result_bind].
  assert (∀ v y, <[startPos := 0%float]> (init_scores rows cols ∅) !! v = Some y →
            (v = startPos ∧ y = 0%float) ∨ y = Infinity) as Hinit.
  { intros v y. destruct (decide (v = startPos)) as [->|Hne].
    - rewrite lookup_insert_eq. intros [= <-]. by left.
    - rewrite lookup_insert_ne by done. rewrite lookup_init_scores, lookup_empty.
      case_decide; [|done]. intros [= <-]. by right. }
  apply (dijkstra_loop_spec _ _ (λ _, 0%nat)).
  - split.
    + intros v y Hv. destruct (Hinit v y Hv) as [[_ ->]| ->];
        [apply nonneg_zero | apply nonneg_Infinity].
    + intros v y Hv Hfin. destruct (Hinit v y Hv) as [[-> _]| ->]; [done|].
      by vm_compute in Hfin.
    + intros u w a b Hu. by apply not_elem_of_empty in Hu.
    + intros v p Hvp. by rewrite lookup_empty in Hvp.
  - apply mono_inv_nil.
  - constructor.
  - constructor.
  - pose proof (size_cells rows cols).
    assert (size (U ∖ ∅) ≤ size U)%nat by (apply subseteq_size; set_solver). lia.
Qed.

End DijkstraRun.
End DijkstraFacts.

(** ** The step sequences of the grid searches *)

Module PathfindingFacts.
Import Pathfinding PathFacts BfsFacts AStarFacts DijkstraFacts.
Local Open Scope Z_scope.

(** A [path] step that follows explore steps only and closes the
    sequence is the one [path] step of the sequence. *)
Lemma path_step_last (l l1 l2 : list step) (x : step) p p' :
  Forall is_explore l → is_explore x →
  l1 ++ path p :: l2 = l ++ [x; path p'] → l1 = l ++ [x] ∧ l2 = [].
Proof.
  intros Hl Hx Heq.
  destruct (decide (l2 = [])) as [->|Hne].
  - change (l ++ [x; path p']) with (l ++ [x] ++ [path p']) in Heq.
    rewrite app_assoc in Heq. apply app_inj_2 in Heq as [-> _]; done.
  - destruct (exists_last Hne) as (l2' & y & ->). exfalso.
    change (l ++ [x; path p']) with (l ++ [x] ++ [path p']) in Heq.
    rewrite app_assoc in Heq.
    change (l1 ++ path p :: l2' ++ [y]) with (l1 ++ (path p :: l2') ++ [y]) in Heq.
    rewrite app_assoc in Heq. apply app_inj_2 in Heq as [Heq _]; [|done].
    assert (Forall is_explore (l1 ++ path p :: l2')) as Hall.
    { rewrite Heq. apply Forall_app. split; [done|]. by constructor. }
    apply Forall_app in Hall as [_ Hall]. by inversion Hall.
Qed.

Lemma no_path_step (steps l1 l2 : list step) p :
  Forall is_explore steps → steps ≠ l1 ++ path p :: l2.
Proof.
  intros Hall ->. apply Forall_app in Hall as [_ Hall]. by inversion Hall.
Qed.

(** C5: for every grid, start and end between which a 4-directional path
    over open cells exists, [bfs] returns a sequence of explore steps, then
    the explore step of the end cell, then a [path] step; the path it
    carries leads from start to end by such moves and no path from start
    to end has fewer cells.  On the 3x3 grid without obstacles, from
    [0,0] to [2,2], the last step is a [path] step with 5 cells. *)
Theorem bfs_path_fewest_cells :
  (∀ grid rows cols startPos endPos,
     dims grid = Ok (rows, cols) →
     (∃ l0, is_path (move4 grid rows cols) startPos endPos l0) →
     ∃ l visited p,
       bfs grid startPos endPos = Ok (l ++ [explore endPos visited; path p])
       ∧ Forall is_explore l
       ∧ is_path (move4 grid rows cols) startPos endPos p
       ∧ ∀ l', is_path (move4 grid rows cols) startPos endPos l' →
               (length p ≤ length l')%nat)
  ∧ ∃ steps p,
      bfs [[0; 0; 0]; [0; 0; 0]; [0; 0; 0]] (0, 0) (2, 2) = Ok steps
      ∧ last steps = Some (path p) ∧ length p = 5%nat.
Proof.
  split.
  - intros grid rows cols startPos endPos Hdims [l0 Hl0].
    destruct (bfs_spec grid rows cols startPos endPos Hdims)
      as (steps & Hrun & _ & _ & [[_ Hno]|(l & visited & p & -> & Hl & Hp & Hmin)]).
    + destruct Hno. by apply (is_path_rtc _ _ _ l0).
    + by exists l, visited, p.
  - eexists _, _. split; [vm_compute; reflexivity|]. split; reflexivity.
Qed.

Lemma bfs_path_fewest_cells_witness :
  ∃ l visited p,
    bfs [[0; 0; 0]; [0; 1; 0]; [0; 0; 0]] (0, 0) (2, 2)
      = Ok (l ++ [explore (2, 2) visited; path p])
    ∧ Forall is_explore l
    ∧ is_path (move4 [[0; 0; 0]; [0; 1; 0]; [0; 0; 0]] 3 3) (0, 0) (2, 2) p
    ∧ ∀ l', is_path (move4 [[0; 0; 0]; [0; 1; 0]; [0; 0; 0]] 3 3) (0, 0) (2, 2) l' →
            (length p ≤ length l')%nat.
Proof.
  apply (proj1 bfs_path_fewest_cells [[0; 0; 0]; [0; 1; 0]; [0; 0; 0]] 3 3 (0, 0) (2, 2)).
  - reflexivity.
  - exists [(0, 0); (0, 1); (0, 2); (1, 2); (2, 2)].
    apply (path_check_sound _ (move4b [[0; 0; 0]; [0; 1; 0]; [0; 0; 0]] 3 3)).
    + apply move4b_sound.
    + vm_compute; reflexivity.
Defined.

(** C4: when the end cell cannot be reached from the start cell by the
    moves of the search (4 directions for [bfs], 8 directions for
    [dijkstra] and [aStar], each move entering an open cell of the grid),
    the search returns a sequence that holds explore steps only. *)
Theorem unreachable_end_explore_only grid rows cols startPos endPos :
  dims grid = Ok (rows, cols) →
  (¬ rtc (move4 grid rows cols) startPos endPos →
     ∃ steps, bfs grid startPos endPos = Ok steps ∧ Forall is_explore steps)
  ∧ (¬ rtc (move8 grid rows cols) startPos endPos →
       (∃ steps, dijkstra grid startPos endPos = Ok steps ∧ Forall is_explore steps)
       ∧ (∃ steps, aStar grid startPos endPos = Ok steps ∧ Forall is_explore steps)).
Proof.
  intros Hdims. split; [|intros Hno; split].
  - intros Hno.
    destruct (bfs_spec grid rows cols startPos endPos Hdims)
      as (steps & Hrun & _ & _ & [[Hall _]|(l & visited & p & _ & _ & Hp & _)]).
    + by exists steps.
    + destruct Hno. by apply (is_path_rtc _ _ _ p).
  - destruct (dijkstra_spec grid rows cols startPos endPos Hdims)
      as (steps & Hrun & _ & _ & [Hall|(l & visited & p & _ & _ & Hreach)]).
    + by exists steps.
    + done.
  - destruct (aStar_spec grid rows cols startPos endPos Hdims)
      as (steps & Hrun & _ & _ & _ & [Hall|(l & p & _ & _ & Hreach)]).
    + by exists steps.
    + done.
Qed.

Lemma unreachable_end_explore_only_witness :
  (∃ steps, bfs [[0; 1; 0]; [1; 1; 0]] (0, 0) (1, 2) = Ok steps ∧ Forall is_explore steps)
  ∧ (∃ steps, dijkstra [[0; 1; 0]; [1; 1; 0]] (0, 0) (1, 2) = Ok steps
              ∧ Forall is_explore steps)
  ∧ (∃ steps, aStar [[0; 1; 0]; [1; 1; 0]] (0, 0) (1, 2) = Ok steps
              ∧ Forall is_explore steps).
Proof.
  destruct (unreachable_end_explore_only [[0; 1; 0]; [1; 1; 0]] 2 3 (0, 0) (1, 2))
    as [Hbfs Hrest].
  - reflexivity.
  - split.
    + apply Hbfs. apply blocked4_unreachable; [vm_compute; reflexivity | discriminate].
    + apply Hrest. apply blocked8_unreachable; [vm_compute; reflexivity | discriminate].
Defined.

(** C10: on every non-empty grid the three searches return, and a [path]
    step of [bfs] or of [dijkstra] comes right after an explore step at
    the end position, while no explore step of [aStar] is at the end
    position. *)
Theorem path_step_and_end_explore grid startPos endPos :
  grid ≠ [] →
  (∃ steps, bfs grid startPos endPos = Ok steps
     ∧ ∀ l1 p l2, steps = l1 ++ path p :: l2 →
         ∃ l0 visited, l1 = l0 ++ [explore endPos visited])
  ∧ (∃ steps, dijkstra grid startPos endPos = Ok steps
       ∧ ∀ l1 p l2, steps = l1 ++ path p :: l2 →
           ∃ l0 visited, l1 = l0 ++ [explore endPos visited])
  ∧ (∃ steps, aStar grid startPos endPos = Ok steps
       ∧ Forall (not_explored endPos) steps).
Proof.
  intros (rows & cols & Hdims)%dims_Ok. split; [|split].
  - destruct (bfs_spec grid rows cols startPos endPos Hdims)
      as (steps & Hrun & _ & _ & [[Hall _]|(l & visited & p & -> & Hl & _)]).
    + exists steps. split; [done|]. intros l1 p l2 Heq. by destruct (no_path_step _ l1 l2 p Hall).
    + eexists. split; [done|]. intros l1 p' l2 Heq.
      symmetry in Heq. apply path_step_last in Heq as [-> _]; [eauto|done..].
  - destruct (dijkstra_spec grid rows cols startPos endPos Hdims)
      as (steps & Hrun & _ & _ & [Hall|(l & visited & p & -> & Hl & _)]).
    + exists steps. split; [done|]. intros l1 p l2 Heq. by destruct (no_path_step _ l1 l2 p Hall).
    + eexists. split; [done|]. intros l1 p' l2 Heq.
      symmetry in Heq. apply path_step_last in Heq as [-> _]; [eauto|done..].
  - destruct (aStar_spec grid rows cols startPos endPos Hdims)
      as (steps & Hrun & _ & _ & Hend & _).
    by exists steps.
Qed.

Lemma path_step_and_end_explore_witness :
  (∃ steps, bfs [[0; 0]; [1; 0]] (0, 0) (1, 1) = Ok steps
     ∧ ∀ l1 p l2, steps = l1 ++ path p :: l2 →
         ∃ l0 visited, l1 = l0 ++ [explore (1, 1) visited])
  ∧ (∃ steps, dijkstra [[0; 0]; [1; 0]] (0, 0) (1, 1) = Ok steps
       ∧ ∀ l1 p l2, steps = l1 ++ path p :: l2 →
           ∃ l0 visited, l1 = l0 ++ [explore (1, 1) visited])
  ∧ (∃ steps, aStar [[0; 0]; [1; 0]] (0, 0) (1, 1) = Ok steps
       ∧ Forall (not_explored (1, 1)) steps).
Proof. apply (path_step_and_end_explore [[0; 0]; [1; 0]] (0, 0) (1, 1)). discriminate. Defined.

(** C2, the part that fails: on the 3x4 grid with one wall at [1,1], from
    [0,0] to [2,3], [aStar] returns a [path] step whose path is a valid
    8-directional path of cost 4.4 (44 tenths), [dijkstra] returns one of
    cost 3.8, and the path of [dijkstra] is a valid path as well: the
    path of [aStar] is not a cheapest one. *)
Theorem aStar_path_not_cheapest :
  ∃ stepsA stepsD p q,
    aStar [[0; 0; 0; 0]; [0; 1; 0; 0]; [0; 0; 0; 0]] (0, 0) (2, 3) = Ok stepsA
    ∧ final_path stepsA = Some p
    ∧ dijkstra [[0; 0; 0; 0]; [0; 1; 0; 0]; [0; 0; 0; 0]] (0, 0) (2, 3) = Ok stepsD
    ∧ final_path stepsD = Some q
    ∧ is_path (move8 [[0; 0; 0; 0]; [0; 1; 0; 0]; [0; 0; 0; 0]] 3 4) (0, 0) (2, 3) p
    ∧ is_path (move8 [[0; 0; 0; 0]; [0; 1; 0; 0]; [0; 0; 0; 0]] 3 4) (0, 0) (2, 3) q
    ∧ path_cost p = 44 ∧ path_cost q = 38.
Proof.
  eexists _, _, _, _.
  split; [vm_compute; reflexivity|]. split; [reflexivity|].
  split; [vm_compute; reflexivity|]. split; [reflexivity|].
  split; [|split; [|split; reflexivity]].
  - apply (path_check_sound _ (move8b [[0; 0; 0; 0]; [0; 1; 0; 0]; [0; 0; 0; 0]] 3 4));
      [apply move8b_sound | vm_compute; reflexivity].
  - apply (path_check_sound _ (move8b [[0; 0; 0; 0]; [0; 1; 0; 0]; [0; 0; 0; 0]] 3 4));
      [apply move8b_sound | vm_compute; reflexivity].
Qed.

End PathfindingFacts.

(** ** The visited sets along a step sequence *)

Module VisitedFacts.
Import PathFacts.
Local Open Scope Z_scope.

(** C9: each of the six searches returns a step sequence in which the
    visited sets grow from step to step and in which every explore step
    (every visit step) has its own position (its own node) in its visited
    set.  Grids are non-empty; graphs have the endpoints of their edges
    among their nodes, and the start node is a node of the graph. *)
Theorem visited_sets_grow :
  (∀ grid startPos endPos, grid ≠ [] →
     (∃ steps, Pathfinding.bfs grid startPos endPos = Ok steps
        ∧ monotone_snapshots Pathfinding.step_visited steps
        ∧ Forall Pathfinding.explore_self steps)
     ∧ (∃ steps, Pathfinding.dijkstra grid startPos endPos = Ok steps
          ∧ monotone_snapshots Pathfinding.step_visited steps
          ∧ Forall Pathfinding.explore_self steps)
     ∧ (∃ steps, Pathfinding.aStar grid startPos endPos = Ok steps
          ∧ monotone_snapshots Pathfinding.step_visited steps
          ∧ Forall Pathfinding.explore_self steps))
  ∧ (∀ g startNode, Graph.wf_graph g → (startNode < length (Graph.nodes g))%nat →
       (∃ steps, Graph.dfs g startNode = Ok steps
          ∧ monotone_snapshots Graph.step_visited steps
          ∧ Forall Graph.visit_self steps)
       ∧ (∃ steps, Graph.graphBFS g startNode = Ok steps
            ∧ monotone_snapshots Graph.step_visited steps
            ∧ Forall Graph.visit_self steps))
  ∧ (∀ g, Graph.wf_graph g →
       ∃ steps, Graph.topologicalSort g = Ok steps
         ∧ monotone_snapshots Graph.topo_visited steps
         ∧ Forall Graph.topo_visit_self steps).
Proof.
  split; [|split].
  - intros grid startPos endPos (rows & cols & Hdims)%dims_Ok. split; [|split].
    + destruct (BfsFacts.bfs_spec grid rows cols startPos endPos Hdims)
        as (steps & Hrun & Hmono & Hself & _).
      by exists steps.
    + destruct (DijkstraFacts.dijkstra_spec grid rows cols startPos endPos Hdims)
        as (steps & Hrun & Hmono & Hself & _).
      by exists steps.
    + destruct (AStarFacts.aStar_spec grid rows cols startPos endPos Hdims)
        as (steps & Hrun & Hmono & Hself & _).
      by exists steps.
  - intros g startNode Hg Hstart. split.
    + by apply TraversalFacts.dfs_spec.
    + by apply TraversalFacts.graphBFS_spec.
  - intros g Hg. by apply TraversalFacts.topologicalSort_mono.
Qed.

Lemma visited_sets_grow_witness :
  ((∃ steps, Pathfinding.bfs [[0; 0]; [1; 0]] (0, 0) (1, 1) = Ok steps
      ∧ monotone_snapshots Pathfinding.step_visited steps
      ∧ Forall Pathfinding.explore_self steps)
   ∧ (∃ steps, Pathfinding.dijkstra [[0; 0]; [1; 0]] (0, 0) (1, 1) = Ok steps
        ∧ monotone_snapshots Pathfinding.step_visited steps
        ∧ Forall Pathfinding.explore_self steps)
   ∧ (∃ steps, Pathfinding.aStar [[0; 0]; [1; 0]] (0, 0) (1, 1) = Ok steps
        ∧ monotone_snapshots Pathfinding.step_visited steps
        ∧ Forall Pathfinding.explore_self steps))
  ∧ ((∃ steps, Graph.dfs (Graph.Build_graph [0; 1; 2]%nat [(0, 1); (1, 2); (0, 2)]%nat) 0%nat = Ok steps
        ∧ monotone_snapshots Graph.step_visited steps
        ∧ Forall Graph.visit_self steps)
     ∧ (∃ steps,
          Graph.graphBFS (Graph.Build_graph [0; 1; 2]%nat [(0, 1); (1, 2); (0, 2)]%nat) 0%nat = Ok steps
          ∧ monotone_snapshots Graph.step_visited steps
          ∧ Forall Graph.visit_self steps))
  ∧ (∃ steps,
       Graph.topologicalSort (Graph.Build_graph [0; 1; 2]%nat [(0, 1); (1, 2); (0, 2)]%nat) = Ok steps
       ∧ monotone_snapshots Graph.topo_visited steps
       ∧ Forall Graph.topo_visit_self steps).
Proof.
  destruct visited_sets_grow as (Hgrid & Hgraph & Htopo).
  assert (Graph.wf_graph (Graph.Build_graph [0; 1; 2]%nat [(0, 1); (1, 2); (0, 2)]%nat)) as Hg.
  { unfold Graph.wf_graph. simpl. repeat constructor. }
  split; [|split].
  - apply Hgrid. discriminate.
  - apply Hgraph; [exact Hg | simpl; lia].
  - apply Htopo. exact Hg.
Defined.

End VisitedFacts.
